(** * Nexus knowledge graph: a shallow embedding of the graph store and
      of its query engine, with the properties of its specification.

    Sources embedded here:
    - [src/js/core/knowledge-graph.js]  (class [KnowledgeGraph]);
    - the storage manager (class [StorageManager]): the node and edge
      collections kept under [nexus_knowledge_nodes] and
      [nexus_knowledge_edges] of [chrome.storage.local], with their
      export, import, reset and migration;
    - [src/js/core/error-handler.js]  (class [ErrorRegistry] and the
      queries of [ErrorHandler] on it);
    - [src/js/utils/uuid.js]  ([v4] and [isValidUUID]).

    Conventions of the embedding.
    - JavaScript strings are [string]s; the empty string is the falsy
      string.  An absent property (or [null]/[undefined]) is [None].
    - Numbers that are counts are [nat], time stamps are [Z] (milliseconds),
      search scores are [Q]: every score is a multiple of one half, which
      IEEE doubles represent exactly.
    - [Date.now()] and [uuidv4()] are inputs of the operations that call
      them ([now], [rnd]).
    - The storage back end never fails: an operation raises only the errors
      that the JavaScript code raises itself with [throw new Error (...)].
      The [catch] blocks of the graph hand the error to
      [errorHandler.handleError] and rethrow it: the graph state does not
      depend on the registry, which is modelled on its own.
    - [Math.random() * 16 | 0] is an input of [v4] ([rand]).
    - The opaque [metadata] payloads and the [nexus_knowledge_meta] counters
      are not read by any operation below and are left out. *)

From Stdlib Require Import ZArith QArith Ascii String List Lia.
From Stdlib Require HexadecimalString.
From Stdlib Require Import Sorted Lqa.
From stdpp Require Import gmap strings list fin_maps.

Open Scope string_scope.

(** ** JavaScript string primitives *)

Module Js.

(** [c] is matched by the regular expression class [\s] (ASCII part). *)
Definition is_space (c : ascii) : bool :=
  let n := nat_of_ascii c in
  (n =? 32)%nat || ((9 <=? n)%nat && (n <=? 13)%nat).

(** [String.prototype.toLowerCase], on ASCII letters. *)
Definition lower_char (c : ascii) : ascii :=
  let n := nat_of_ascii c in
  if ((65 <=? n)%nat && (n <=? 90)%nat)%bool then ascii_of_nat (n + 32) else c.

Fixpoint toLowerCase (s : string) : string :=
  match s with
  | EmptyString => EmptyString
  | String c r => String (lower_char c) (toLowerCase r)
  end.

Fixpoint trimStart (s : string) : string :=
  match s with
  | EmptyString => EmptyString
  | String c r => if is_space c then trimStart r else s
  end.

Fixpoint all_space (s : string) : bool :=
  match s with
  | EmptyString => true
  | String c r => is_space c && all_space r
  end.

Fixpoint trimEnd (s : string) : string :=
  match s with
  | EmptyString => EmptyString
  | String c r => if all_space s then EmptyString else String c (trimEnd r)
  end.

(** [String.prototype.trim] *)
Definition trim (s : string) : string := trimEnd (trimStart s).

(** [s.split(/\s+/)]: [cur] is the piece being read, [in_run] tells that
    the previous character was white space. *)
Fixpoint split_ws_from (cur : string) (in_run : bool) (s : string) : list string :=
  match s with
  | EmptyString => [cur]
  | String c r =>
      if is_space c then
        if in_run then split_ws_from cur true r
        else cur :: split_ws_from EmptyString true r
      else split_ws_from (cur ++ String c EmptyString) false r
  end.

Definition split_ws (s : string) : list string := split_ws_from EmptyString false s.

(** [s.includes(t)] *)
Fixpoint includes (s t : string) : bool :=
  String.prefix t s ||
  match s with
  | EmptyString => false
  | String _ r => includes r t
  end.

(** [s.substring(0, n)] *)
Definition substring0 (n : nat) (s : string) : string := String.substring 0 n s.

(** [arr.includes(x)] on an array of strings *)
Definition arr_includes (l : list string) (x : string) : bool :=
  existsb (String.eqb x) l.

(** Truthiness of a string that may be absent: [!!s]. *)
Definition truthy (o : option string) : bool :=
  match o with
  | Some s => negb (String.eqb s "")
  | None => false
  end.

(** [s || d] for strings *)
Definition or_str (o : option string) (d : string) : string :=
  match o with
  | Some s => if String.eqb s "" then d else s
  | None => d
  end.

(** [n || d] for numbers: [0] is falsy *)
Definition or_Z (o : option Z) (d : Z) : Z :=
  match o with
  | Some n => if (n =? 0)%Z then d else n
  | None => d
  end.

Definition or_nat (o : option nat) (d : nat) : nat :=
  match o with
  | Some n => if (n =? 0)%nat then d else n
  | None => d
  end.

(** [x || d] for a value that is an object or an array when present *)
Definition or_obj {A : Type} (o : option A) (d : A) : A :=
  match o with
  | Some a => a
  | None => d
  end.

(** [arr.slice(from, to)] for [0 <= from], [0 <= to] *)
Definition slice {A : Type} (from to : nat) (l : list A) : list A :=
  take (to - from) (drop from l).

End Js.

(** ** Data model *)

Module Entity.
Record t : Type := mk { name : string }.
End Entity.

Module Content.
(** [node.content], as far as the graph reads it. [{}] is [empty]. *)
Record t : Type := mk {
  text : option string;
  summary : option string;
  entities : option (list Entity.t)
}.
Definition empty : t := mk None None None.
End Content.

Module Preview.
Record t : Type := mk {
  title : string;
  summary : string;
  keywords : list string;
  source : string;
  date : Z
}.
End Preview.

Module NodeData.
(** The argument of [addNode], and the shape that [generatePreview]
    reads. *)
Record t : Type := mk {
  id : option string;
  title : option string;
  content : option Content.t;
  url : option string;
  timestamp : option Z;
  source : option string;
  categories : option (list string);
  tags : option (list string);
  autoConnect : option (list string)
}.
Definition empty : t := mk None None None None None None None None None.
End NodeData.

Module Node.
(** A stored node. [createdAt] and [updatedAt] are set by the storage
    manager; the copy kept in the cache by [addNode] has neither. *)
Record t : Type := mk {
  id : string;
  title : string;
  content : Content.t;
  url : option string;
  timestamp : Z;
  source : string;
  categories : list string;
  tags : list string;
  preview : Preview.t;
  createdAt : option Z;
  updatedAt : option Z
}.
End Node.

Module Updates.
(** The argument [updates] of [updateNode]: the properties it carries. *)
Record t : Type := mk {
  title : option string;
  content : option Content.t;
  url : option string;
  timestamp : option Z;
  source : option string;
  categories : option (list string);
  tags : option (list string);
  preview : option Preview.t
}.
Definition empty : t := mk None None None None None None None None.
End Updates.

Module EdgeData.
(** The argument of [addEdge]. *)
Record t : Type := mk {
  id : option string;
  source : option string;
  target : option string;
  type : option string;
  label : option string;
  weight : option Q;
  bidirectional : option bool;
  timestamp : option Z
}.
End EdgeData.

Module Edge.
Record t : Type := mk {
  id : string;
  source : string;
  target : string;
  type : string;
  label : string;
  weight : Q;
  bidirectional : bool;
  timestamp : Z;
  createdAt : option Z;
  updatedAt : option Z
}.
End Edge.

(** ** The storage manager and the state of the knowledge graph *)

(** The two collections of [chrome.storage.local] that the graph uses. *)
Record Store : Type := mkStore {
  nodes : list Node.t;
  edges : list Edge.t
}.

(** A [KnowledgeGraph] instance: its storage manager and the cache
    [nodeMemo] ([Map] from node id to node). *)
Record KG : Type := mkKG {
  storageManager : Store;
  nodeMemo : gmap string Node.t
}.

Definition empty_graph : KG := mkKG (mkStore [] []) ∅.

(** *** State and exception monad

    An [async] method either returns a value or throws; the state it has
    written before throwing stays written. *)

Inductive Result (A : Type) : Type :=
| Ok (a : A)
| Throw (msg : string).
Arguments Ok {A} a.
Arguments Throw {A} msg.

Definition M (A : Type) : Type := KG -> Result A * KG.

Definition ret {A : Type} (a : A) : M A := fun s => (Ok a, s).

Definition throw {A : Type} (msg : string) : M A := fun s => (Throw msg, s).

Definition bind {A B : Type} (m : M A) (k : A -> M B) : M B :=
  fun s =>
    match m s with
    | (Ok a, s') => k a s'
    | (Throw e, s') => (Throw e, s')
    end.

(** [try { m } catch (error) { h }] *)
Definition try_catch {A : Type} (m : M A) (h : string -> M A) : M A :=
  fun s =>
    match m s with
    | (Ok a, s') => (Ok a, s')
    | (Throw e, s') => h e s'
    end.

Declare Scope kg_scope.
Delimit Scope kg_scope with kg.
Notation "x <- m ;; k" := (bind m (fun x => k))
  (at level 100, m at next level, right associativity) : kg_scope.
Notation "m ;; k" := (bind m (fun _ => k))
  (at level 100, right associativity) : kg_scope.
Open Scope kg_scope.

(** [getKnowledgeNodes], [getKnowledgeEdges] *)
Definition getKnowledgeNodes : M (list Node.t) :=
  fun s => (Ok (nodes (storageManager s)), s).

Definition getKnowledgeEdges : M (list Edge.t) :=
  fun s => (Ok (edges (storageManager s)), s).

(** [localStorage.set({[KNOWLEDGE_NODES]: ns})] and the same for edges *)
Definition set_nodes (ns : list Node.t) : M unit :=
  fun s => (Ok tt, mkKG (mkStore ns (edges (storageManager s))) (nodeMemo s)).

Definition set_edges (es : list Edge.t) : M unit :=
  fun s => (Ok tt, mkKG (mkStore (nodes (storageManager s)) es) (nodeMemo s)).

(** [nodeMemo.set], [nodeMemo.delete], [nodeMemo.get] *)
Definition memo_set (k : string) (n : Node.t) : M unit :=
  fun s => (Ok tt, mkKG (storageManager s) (<[k := n]> (nodeMemo s))).

Definition memo_delete (k : string) : M unit :=
  fun s => (Ok tt, mkKG (storageManager s) (delete k (nodeMemo s))).

Definition memo_get (k : string) : M (option Node.t) :=
  fun s => (Ok (nodeMemo s !! k), s).

(** [arr.findIndex(p)]: [None] stands for [-1]. *)
Fixpoint findIndex {A : Type} (p : A -> bool) (l : list A) : option nat :=
  match l with
  | [] => None
  | x :: r => if p x then Some 0 else option_map S (findIndex p r)
  end.

Definition node_has_id (i : string) (n : Node.t) : bool := String.eqb (Node.id n) i.
Definition edge_has_id (i : string) (e : Edge.t) : bool := String.eqb (Edge.id e) i.

(** [{...old, ...node, updatedAt: now}] *)
Definition spread_saved_node (old node : Node.t) (now : Z) : Node.t :=
  Node.mk (Node.id node) (Node.title node) (Node.content node) (Node.url node)
    (Node.timestamp node) (Node.source node) (Node.categories node)
    (Node.tags node) (Node.preview node)
    (match Node.createdAt node with Some c => Some c | None => Node.createdAt old end)
    (Some now).

(** [{...node, createdAt: now, updatedAt: now}] *)
Definition stamp_new_node (node : Node.t) (now : Z) : Node.t :=
  Node.mk (Node.id node) (Node.title node) (Node.content node) (Node.url node)
    (Node.timestamp node) (Node.source node) (Node.categories node)
    (Node.tags node) (Node.preview node) (Some now) (Some now).

(** [saveKnowledgeNode]. The index that [findIndex] returns is in range, so
    the branch where [ns !! i] is [None] is never taken. *)
Definition saveKnowledgeNode (now : Z) (node : Node.t) : M bool :=
  if String.eqb (Node.id node) "" then throw "Invalid knowledge node"
  else
    ns <- getKnowledgeNodes ;;
    match findIndex (node_has_id (Node.id node)) ns with
    | Some i =>
        match ns !! i with
        | Some old => set_nodes (<[i := spread_saved_node old node now]> ns) ;; ret true
        | None => set_nodes ns ;; ret true
        end
    | None => set_nodes (ns ++ [stamp_new_node node now]) ;; ret true
    end.

Definition spread_saved_edge (old edge : Edge.t) (now : Z) : Edge.t :=
  Edge.mk (Edge.id edge) (Edge.source edge) (Edge.target edge) (Edge.type edge)
    (Edge.label edge) (Edge.weight edge) (Edge.bidirectional edge)
    (Edge.timestamp edge)
    (match Edge.createdAt edge with Some c => Some c | None => Edge.createdAt old end)
    (Some now).

Definition stamp_new_edge (edge : Edge.t) (now : Z) : Edge.t :=
  Edge.mk (Edge.id edge) (Edge.source edge) (Edge.target edge) (Edge.type edge)
    (Edge.label edge) (Edge.weight edge) (Edge.bidirectional edge)
    (Edge.timestamp edge) (Some now) (Some now).

Definition saveKnowledgeEdge (now : Z) (edge : Edge.t) : M bool :=
  if String.eqb (Edge.id edge) "" || String.eqb (Edge.source edge) ""
     || String.eqb (Edge.target edge) ""
  then throw "Invalid knowledge edge"
  else
    es <- getKnowledgeEdges ;;
    match findIndex (edge_has_id (Edge.id edge)) es with
    | Some i =>
        match es !! i with
        | Some old => set_edges (<[i := spread_saved_edge old edge now]> es) ;; ret true
        | None => set_edges es ;; ret true
        end
    | None => set_edges (es ++ [stamp_new_edge edge now]) ;; ret true
    end.

(** [deleteEdgesForNode]: the cascade of a node deletion *)
Definition deleteEdgesForNode (nodeId : string) : M bool :=
  es <- getKnowledgeEdges ;;
  let filteredEdges :=
    filter (fun e => Edge.source e ≠ nodeId ∧ Edge.target e ≠ nodeId) es in
  if (length filteredEdges =? length es)%nat then ret false
  else set_edges filteredEdges ;; ret true.

Definition deleteKnowledgeNode (nodeId : string) : M bool :=
  ns <- getKnowledgeNodes ;;
  let filteredNodes := filter (fun n => Node.id n ≠ nodeId) ns in
  if (length filteredNodes =? length ns)%nat then ret false
  else
    set_nodes filteredNodes ;;
    deleteEdgesForNode nodeId ;;
    ret true.

Definition deleteKnowledgeEdge (edgeId : string) : M bool :=
  es <- getKnowledgeEdges ;;
  let filteredEdges := filter (fun e => Edge.id e ≠ edgeId) es in
  if (length filteredEdges =? length es)%nat then ret false
  else set_edges filteredEdges ;; ret true.

(** ** The knowledge graph: life cycle of nodes and edges *)

(** [generatePreview(nodeData)]. Its [catch] branch is not reachable on
    well-typed data and is left out. *)
Definition preview_summary (content : option Content.t) : string :=
  let summary := match content with Some c => Content.summary c | None => None end in
  let text := match content with Some c => Content.text c | None => None end in
  if Js.truthy summary then Js.or_str summary ""
  else
    match text with
    | Some t =>
        Js.substring0 150 t ++ (if (150 <? String.length t)%nat then "..." else "")
    | None => "No preview available"
    end.

Definition preview_keywords (content : option Content.t) : list string :=
  match content with
  | Some c =>
      match Content.entities c with
      | Some es => take 5 (map Entity.name es)
      | None => []
      end
  | None => []
  end.

Definition generatePreview (now : Z) (nodeData : NodeData.t) : Preview.t :=
  Preview.mk
    (Js.or_str (NodeData.title nodeData) "Untitled")
    (preview_summary (NodeData.content nodeData))
    (preview_keywords (NodeData.content nodeData))
    (Js.or_str (NodeData.source nodeData) "manual")
    (Js.or_Z (NodeData.timestamp nodeData) now).

(** A stored node read as the argument of [generatePreview]. *)
Definition node_as_data (n : Node.t) : NodeData.t :=
  NodeData.mk (Some (Node.id n)) (Some (Node.title n)) (Some (Node.content n))
    (Node.url n) (Some (Node.timestamp n)) (Some (Node.source n))
    (Some (Node.categories n)) (Some (Node.tags n)) None.

(** [getNode(nodeId)]: cache first, then a scan of the stored nodes, whose
    hit is added to the cache. *)
Definition getNode (nodeId : string) : M (option Node.t) :=
  if String.eqb nodeId "" then throw "Node ID is required"
  else
    cached <- memo_get nodeId ;;
    match cached with
    | Some n => ret (Some n)
    | None =>
        ns <- getKnowledgeNodes ;;
        match List.find (node_has_id nodeId) ns with
        | None => ret None
        | Some n => memo_set nodeId n ;; ret (Some n)
        end
    end.

(** [addEdge(edgeData)]; [uuid] is what [uuidv4()] returns when the edge
    has no id of its own. *)
Definition new_edge (now : Z) (uuid : string) (source target : string)
    (edgeData : EdgeData.t) : Edge.t :=
  Edge.mk
    (Js.or_str (EdgeData.id edgeData)
       (source ++ "-" ++ target ++ "-" ++ Js.substring0 8 uuid))
    source
    target
    (Js.or_str (EdgeData.type edgeData) "related")
    (Js.or_str (EdgeData.label edgeData) "")
    (Js.or_obj (EdgeData.weight edgeData) 1%Q)
    (Js.or_obj (EdgeData.bidirectional edgeData) false)
    (Js.or_Z (EdgeData.timestamp edgeData) now)
    None None.

Definition addEdge (now : Z) (uuid : string) (edgeData : EdgeData.t) : M string :=
  if negb (Js.truthy (EdgeData.source edgeData))
     || negb (Js.truthy (EdgeData.target edgeData))
  then throw "Edge must have source and target node IDs"
  else
    let source := Js.or_str (EdgeData.source edgeData) "" in
    let target := Js.or_str (EdgeData.target edgeData) "" in
    sourceNode <- getNode source ;;
    targetNode <- getNode target ;;
    match sourceNode, targetNode with
    | None, _ => throw ("Source node not found: " ++ source)
    | Some _, None => throw ("Target node not found: " ++ target)
    | Some _, Some _ =>
        let edge := new_edge now uuid source target edgeData in
        saveKnowledgeEdge now edge ;;
        ret (Edge.id edge)
    end.

(** The edge that [addNode] asks for, for one entry of [autoConnect]. *)
Definition autoConnect_edge (nodeId targetId : string) : EdgeData.t :=
  EdgeData.mk None (Some nodeId) (Some targetId) (Some "auto-connected") None
    (Some (1 # 2)) None None.

(** [for (const targetId of nodeData.autoConnect) await this.addEdge(...)];
    the [i]-th call draws the uuid [rnd i]. *)
Fixpoint autoConnect_loop (now : Z) (rnd : nat -> string) (i : nat)
    (nodeId : string) (targets : list string) : M unit :=
  match targets with
  | [] => ret tt
  | targetId :: rest =>
      addEdge now (rnd i) (autoConnect_edge nodeId targetId) ;;
      autoConnect_loop now rnd (S i) nodeId rest
  end.

(** The id that [addNode] gives to the node: [nodeData.id || uuidv4()]. *)
Definition new_node_id (rnd : nat -> string) (nodeData : NodeData.t) : string :=
  Js.or_str (NodeData.id nodeData) (rnd 0).

Definition new_node (now : Z) (rnd : nat -> string) (nodeData : NodeData.t) : Node.t :=
  Node.mk
    (new_node_id rnd nodeData)
    (Js.or_str (NodeData.title nodeData) "Untitled")
    (Js.or_obj (NodeData.content nodeData) Content.empty)
    (if Js.truthy (NodeData.url nodeData) then NodeData.url nodeData else None)
    (Js.or_Z (NodeData.timestamp nodeData) now)
    (Js.or_str (NodeData.source nodeData) "manual")
    (Js.or_obj (NodeData.categories nodeData) [])
    (Js.or_obj (NodeData.tags nodeData) [])
    (generatePreview now nodeData)
    None None.

(** [addNode(nodeData)], for a [nodeData] that is given; [rnd 0] is the
    uuid drawn for the node, [rnd (S i)] the one drawn for its [i]-th
    automatic connection. *)
Definition addNode (now : Z) (rnd : nat -> string) (nodeData : NodeData.t) : M string :=
  let nodeId := new_node_id rnd nodeData in
  let node := new_node now rnd nodeData in
  saveKnowledgeNode now node ;;
  memo_set nodeId node ;;
  match NodeData.autoConnect nodeData with
  | Some targets => autoConnect_loop now rnd 1 nodeId targets
  | None => ret tt
  end ;;
  ret nodeId.

(** [{...node, ...updates, id: nodeId, updatedAt: now}] *)
Definition spread_updates (node : Node.t) (updates : Updates.t) (nodeId : string)
    (now : Z) : Node.t :=
  Node.mk
    nodeId
    (Js.or_obj (Updates.title updates) (Node.title node))
    (Js.or_obj (Updates.content updates) (Node.content node))
    (match Updates.url updates with Some u => Some u | None => Node.url node end)
    (Js.or_obj (Updates.timestamp updates) (Node.timestamp node))
    (Js.or_obj (Updates.source updates) (Node.source node))
    (Js.or_obj (Updates.categories updates) (Node.categories node))
    (Js.or_obj (Updates.tags updates) (Node.tags node))
    (Js.or_obj (Updates.preview updates) (Node.preview node))
    (Node.createdAt node)
    (Some now).

Definition with_preview (n : Node.t) (p : Preview.t) : Node.t :=
  Node.mk (Node.id n) (Node.title n) (Node.content n) (Node.url n)
    (Node.timestamp n) (Node.source n) (Node.categories n) (Node.tags n)
    p (Node.createdAt n) (Node.updatedAt n).

(** The test [updates.content || updates.title]: a content object is
    truthy, a title is truthy when it is not empty. *)
Definition content_or_title_given (updates : Updates.t) : bool :=
  match Updates.content updates with
  | Some _ => true
  | None => Js.truthy (Updates.title updates)
  end.

Definition updateNode (now : Z) (nodeId : string) (updates : Updates.t) : M Node.t :=
  if String.eqb nodeId "" then throw "Node ID is required"
  else
    found <- getNode nodeId ;;
    match found with
    | None => throw ("Node not found: " ++ nodeId)
    | Some node =>
        let merged := spread_updates node updates nodeId now in
        let updatedNode :=
          if content_or_title_given updates
          then with_preview merged (generatePreview now (node_as_data merged))
          else merged in
        saveKnowledgeNode now updatedNode ;;
        memo_set nodeId updatedNode ;;
        ret updatedNode
    end.

Definition deleteNode (nodeId : string) : M bool :=
  if String.eqb nodeId "" then throw "Node ID is required"
  else
    result <- deleteKnowledgeNode nodeId ;;
    memo_delete nodeId ;;
    ret result.

Definition getEdge (edgeId : string) : M (option Edge.t) :=
  if String.eqb edgeId "" then throw "Edge ID is required"
  else
    es <- getKnowledgeEdges ;;
    ret (List.find (edge_has_id edgeId) es).

Definition deleteEdge (edgeId : string) : M bool :=
  if String.eqb edgeId "" then throw "Edge ID is required"
  else deleteKnowledgeEdge edgeId.

(** ** The search engine *)

Module SearchOptions.
Record t : Type := mk {
  limit : option nat;
  offset : option nat;
  sortBy : option string;
  order : option string;
  searchIn : option (list string)
}.
Definition empty : t := mk None None None None None.
End SearchOptions.

(** [searchOptions = { k: options.k || d, ..., ...options }]: the final
    spread puts [options.k] back whenever [options] has the property, so
    the default [d] is used exactly when the property is absent. *)
Definition search_option {A : Type} (given : option A) (default : A) : A :=
  match given with
  | Some v => v
  | None => default
  end.

Definition default_searchIn : list string := ["title"; "content"; "categories"; "tags"].

Module MatchDetails.
Record t : Type := mk {
  title : option nat;
  summary : option nat;
  text : option nat;
  entities : option nat;
  categories : option nat;
  tags : option nat;
  url : option nat
}.
End MatchDetails.

(** An element of the array [results] inside [search]: a stored node as it
    is (blank query), or the object [{node, score, matchDetails}] built by
    the scoring pass. *)
Inductive Hit : Type :=
| RawNode (n : Node.t)
| Scored (node : Node.t) (score : Q) (matchDetails : MatchDetails.t).

(** [result.node], [result.score], [result.matchDetails], [result.timestamp]:
    a stored node has no property [node], [score] or [matchDetails]; a
    scored object has no property [timestamp]. *)
Definition hit_node (h : Hit) : option Node.t :=
  match h with RawNode _ => None | Scored n _ _ => Some n end.

Definition hit_score (h : Hit) : option Q :=
  match h with RawNode _ => None | Scored _ s _ => Some s end.

Definition hit_matchDetails (h : Hit) : option MatchDetails.t :=
  match h with RawNode _ => None | Scored _ _ d => Some d end.

Definition hit_timestamp (h : Hit) : option Z :=
  match h with RawNode n => Some (Node.timestamp n) | Scored _ _ _ => None end.

(** [queryTerms.filter(term => fieldLower.includes(term)).length] *)
Definition count_terms_in (queryTerms : list string) (field : string) : nat :=
  length (List.filter (Js.includes (Js.toLowerCase field)) queryTerms).

(** [items.filter(item => queryTerms.some(term =>
      item.toLowerCase().includes(term))).length] *)
Definition count_items_with_term (queryTerms : list string) (items : list string) : nat :=
  length (List.filter
            (fun item => existsb (Js.includes (Js.toLowerCase item)) queryTerms)
            items).

Definition positive (n : nat) : option nat :=
  if (0 <? n)%nat then Some n else None.

Definition Q_of_nat (n : nat) : Q := inject_Z (Z.of_nat n).

(** The matches of one node, field by field; a field that is not searched
    (not listed in [searchIn], or falsy on the node) has no match. *)
Section Scoring.
Variable searchIn : list string.
Variable queryTerms : list string.
Variable node : Node.t.

Definition titleMatch : nat :=
  if Js.arr_includes searchIn "title" && Js.truthy (Some (Node.title node))
  then count_terms_in queryTerms (Node.title node) else 0.

Definition summaryMatch : nat :=
  if Js.arr_includes searchIn "content"
     && Js.truthy (Content.summary (Node.content node))
  then count_terms_in queryTerms (Js.or_str (Content.summary (Node.content node)) "")
  else 0.

Definition textMatch : nat :=
  if Js.arr_includes searchIn "content"
     && Js.truthy (Content.text (Node.content node))
  then count_terms_in queryTerms (Js.or_str (Content.text (Node.content node)) "")
  else 0.

Definition entityMatch : nat :=
  if Js.arr_includes searchIn "content" then
    match Content.entities (Node.content node) with
    | Some es => count_items_with_term queryTerms (map Entity.name es)
    | None => 0
    end
  else 0.

Definition categoryMatch : nat :=
  if Js.arr_includes searchIn "categories"
  then count_items_with_term queryTerms (Node.categories node) else 0.

Definition tagMatch : nat :=
  if Js.arr_includes searchIn "tags"
  then count_items_with_term queryTerms (Node.tags node) else 0.

Definition urlMatch : nat :=
  if Js.arr_includes searchIn "url" && Js.truthy (Node.url node)
  then count_terms_in queryTerms (Js.or_str (Node.url node) "") else 0.

(** The running sum [score += ...] of the scoring pass, in its order. *)
Definition node_score : Q :=
  0 + Q_of_nat (titleMatch * 3)
    + Q_of_nat (summaryMatch * 2)
    + Q_of_nat textMatch
    + Q_of_nat entityMatch * (3 # 2)
    + Q_of_nat (categoryMatch * 2)
    + Q_of_nat tagMatch * (5 # 2)
    + Q_of_nat urlMatch.

Definition node_matchDetails : MatchDetails.t :=
  MatchDetails.mk
    (positive (titleMatch * 3))
    (positive (summaryMatch * 2))
    (positive textMatch)
    (positive entityMatch)
    (positive categoryMatch)
    (positive tagMatch)
    (positive urlMatch).

Definition scoreNode : Hit := Scored node node_score node_matchDetails.
End Scoring.

(** [Array.prototype.sort(compare)] is stable. [gt a b] tells that
    [compare(a, b) > 0]; for a comparator that is a consistent ordering the
    sorted array is the one that stable insertion builds. *)
Fixpoint insert_sorted {A : Type} (gt : A -> A -> bool) (x : A) (l : list A) : list A :=
  match l with
  | [] => [x]
  | y :: r => if gt y x then x :: y :: r else y :: insert_sorted gt x r
  end.

Definition js_sort {A : Type} (gt : A -> A -> bool) (l : list A) : list A :=
  fold_left (fun sorted x => insert_sorted gt x sorted) l [].

(** [(b.timestamp || 0) - (a.timestamp || 0) > 0] *)
Definition timestamp_desc_gt (a b : Hit) : bool :=
  (0 <? Js.or_Z (hit_timestamp b) 0 - Js.or_Z (hit_timestamp a) 0)%Z.

(** [b.score - a.score > 0]; the subtraction of two absent scores is [NaN],
    which orders nothing. *)
Definition score_desc_gt (a b : Hit) : bool :=
  match hit_score a, hit_score b with
  | Some sa, Some sb => negb (Qle_bool (sb - sa) 0)
  | _, _ => false
  end.

(** Values met while [getNestedProperty] walks a node. Arrays and the
    built-in properties of strings and arrays ([length], indices) are not
    followed: they read as [undefined] here. *)
Inductive Value : Type :=
| VUndefined
| VNumber (z : Z)
| VString (s : string)
| VArray
| VContent (c : Content.t)
| VPreview (p : Preview.t)
| VNode (n : Node.t).

Definition of_opt_string (o : option string) : Value :=
  match o with Some s => VString s | None => VUndefined end.

Definition of_opt_number (o : option Z) : Value :=
  match o with Some z => VNumber z | None => VUndefined end.

(** [current[part]] *)
Definition get_property (current : Value) (part : string) : Value :=
  match current with
  | VNode n =>
      if String.eqb part "id" then VString (Node.id n)
      else if String.eqb part "title" then VString (Node.title n)
      else if String.eqb part "content" then VContent (Node.content n)
      else if String.eqb part "url" then of_opt_string (Node.url n)
      else if String.eqb part "timestamp" then VNumber (Node.timestamp n)
      else if String.eqb part "source" then VString (Node.source n)
      else if String.eqb part "categories" then VArray
      else if String.eqb part "tags" then VArray
      else if String.eqb part "preview" then VPreview (Node.preview n)
      else if String.eqb part "createdAt" then of_opt_number (Node.createdAt n)
      else if String.eqb part "updatedAt" then of_opt_number (Node.updatedAt n)
      else VUndefined
  | VContent c =>
      if String.eqb part "text" then of_opt_string (Content.text c)
      else if String.eqb part "summary" then of_opt_string (Content.summary c)
      else if String.eqb part "entities" then
        match Content.entities c with Some _ => VArray | None => VUndefined end
      else VUndefined
  | VPreview p =>
      if String.eqb part "title" then VString (Preview.title p)
      else if String.eqb part "summary" then VString (Preview.summary p)
      else if String.eqb part "keywords" then VArray
      else if String.eqb part "source" then VString (Preview.source p)
      else if String.eqb part "date" then VNumber (Preview.date p)
      else VUndefined
  | _ => VUndefined
  end.

(** [path.split('.')] *)
Fixpoint split_dot_from (cur : string) (s : string) : list string :=
  match s with
  | EmptyString => [cur]
  | String c r =>
      if Ascii.eqb c "."%char then cur :: split_dot_from EmptyString r
      else split_dot_from (cur ++ String c EmptyString) r
  end.

Fixpoint walk_parts (current : Value) (parts : list string) : Value :=
  match parts with
  | [] => current
  | part :: rest =>
      match current with
      | VUndefined => VUndefined
      | _ => walk_parts (get_property current part) rest
      end
  end.

(** [getNestedProperty(obj, path)]; [obj] is [undefined] when [a.node] is
    read on a stored node. *)
Definition getNestedProperty (obj : option Node.t) (path : string) : Value :=
  walk_parts (match obj with Some n => VNode n | None => VUndefined end)
             (split_dot_from EmptyString path).

(** [v || 0] *)
Definition or_zero (v : Value) : Value :=
  match v with
  | VUndefined => VNumber 0
  | VNumber z => VNumber z
  | VString s => if String.eqb s "" then VNumber 0 else VString s
  | other => other
  end.

(** The comparator of the non-relevance sort; [None] is [NaN] (a
    subtraction with an operand that is not a number: the numeric
    coercions of strings, arrays and objects are not followed), which the
    sort reads as "equal". [localeCompare] is taken as the ordinal
    comparison. *)
Definition sort_compare (sortBy : string) (order : Z) (a b : Hit) : option Z :=
  let aValue := or_zero (getNestedProperty (hit_node a) sortBy) in
  let bValue := or_zero (getNestedProperty (hit_node b) sortBy) in
  match aValue, bValue with
  | VString sa, VString sb =>
      Some (order * match String.compare sa sb with Lt => -1 | Eq => 0 | Gt => 1 end)%Z
  | VNumber za, VNumber zb => Some (order * (za - zb))%Z
  | _, _ => None
  end.

Definition sort_gt (sortBy : string) (order : Z) (a b : Hit) : bool :=
  match sort_compare sortBy order a b with
  | Some z => (0 <? z)%Z
  | None => false
  end.

Module ResultItem.
(** An element of the returned [results]:
    [{...result.node, score: result.score, matchDetails: result.matchDetails}].
    [fields] holds the properties that the spread of [result.node]
    copies: none when [result.node] is [undefined]. *)
Record t : Type := mk {
  fields : option Node.t;
  score : option Q;
  matchDetails : option MatchDetails.t
}.
End ResultItem.

Module SearchResult.
Record t : Type := mk {
  total : nat;
  offset : nat;
  limit : nat;
  results : list ResultItem.t
}.
End SearchResult.

Definition format_result (result : Hit) : ResultItem.t :=
  ResultItem.mk (hit_node result) (hit_score result) (hit_matchDetails result).

(** [!query || query.trim() === ''] *)
Definition blank_query (query : string) : bool := String.eqb (Js.trim query) "".

Definition query_terms (query : string) : list string :=
  Js.split_ws (Js.toLowerCase (Js.trim query)).

(** [results] before any sort: every stored node for a blank query, the
    scored objects of positive score otherwise. *)
Definition search_matches (ns : list Node.t) (query : string) (searchIn : list string)
    : list Hit :=
  if blank_query query then map RawNode ns
  else
    List.filter (fun result => negb (Qle_bool (default 0%Q (hit_score result)) 0))
                (map (scoreNode searchIn (query_terms query)) ns).

(** [results] after the sorts, before pagination. *)
Definition search_sorted (ns : list Node.t) (query : string)
    (options : SearchOptions.t) : list Hit :=
  let searchIn := search_option (SearchOptions.searchIn options) default_searchIn in
  let sortBy := search_option (SearchOptions.sortBy options) "relevance" in
  let order := search_option (SearchOptions.order options) "desc" in
  let results :=
    if blank_query query
    then js_sort timestamp_desc_gt (search_matches ns query searchIn)
    else js_sort score_desc_gt (search_matches ns query searchIn) in
  if negb (String.eqb sortBy "relevance")
  then js_sort (sort_gt sortBy (if String.eqb order "asc" then 1 else -1)%Z) results
  else results.

(** [search(query, options)] on the stored nodes [ns]. Its [catch] branch
    is not reachable on well-typed data and is left out. *)
Definition search_nodes (ns : list Node.t) (query : string) (options : SearchOptions.t)
    : SearchResult.t :=
  let limit := search_option (SearchOptions.limit options) 20 in
  let offset := search_option (SearchOptions.offset options) 0 in
  let results := search_sorted ns query options in
  let paginatedResults := Js.slice offset (offset + limit) results in
  SearchResult.mk (length results) offset limit (map format_result paginatedResults).

Definition search (query : string) (options : SearchOptions.t) : M SearchResult.t :=
  ns <- getKnowledgeNodes ;;
  ret (search_nodes ns query options).

(** ** The traversal engine *)

Module ConnOptions.
Record t : Type := mk {
  depth : option nat;
  limit : option nat;
  edgeTypes : option (list string);
  direction : option string;
  includeSelf : option bool
}.
Definition empty : t := mk None None None None None.
End ConnOptions.

Module Connected.
(** An element of the array that [getConnectedNodes] returns. *)
Record t : Type := mk {
  node : Node.t;
  edge : option Edge.t;
  depth : nat;
  direction : option string
}.
End Connected.

(** The filter that builds [connectedEdges], once, from the seed
    [nodeId]. *)
Definition connected_edge (edgeTypes : option (list string)) (direction : string)
    (nodeId : string) (edge : Edge.t) : bool :=
  match edgeTypes with
  | Some types => Js.arr_includes types (Edge.type edge)
  | None => true
  end
  &&
  (if String.eqb direction "out" then String.eqb (Edge.source edge) nodeId
   else if String.eqb direction "in" then String.eqb (Edge.target edge) nodeId
   else String.eqb (Edge.source edge) nodeId || String.eqb (Edge.target edge) nodeId).

Definition touches (currentId : string) (edge : Edge.t) : bool :=
  String.eqb (Edge.source edge) currentId || String.eqb (Edge.target edge) currentId.

(** The variables that the loops of [getConnectedNodes] update. *)
Record Traversal : Type := mkTraversal {
  visited : gset string;
  connectedNodes : list Connected.t;
  nextNodesToProcess : list string
}.

(** A loop body either falls through or executes [return connectedNodes]. *)
Inductive Flow : Type :=
| Continue (t : Traversal)
| Return (result : list Connected.t).

Section Traverse.
Variable nodeId : string.
Variable limit : nat.
Variable includeSelf : bool.
Variable connectedEdges : list Edge.t.

(** [for (const edge of nodeEdges) { ... }] *)
Fixpoint edges_loop (currentDepth : nat) (currentId : string)
    (nodeEdges : list Edge.t) (t : Traversal) : M Flow :=
  match nodeEdges with
  | [] => ret (Continue t)
  | edge :: rest =>
      let connectedId :=
        if String.eqb (Edge.source edge) currentId
        then Edge.target edge else Edge.source edge in
      if decide (connectedId ∈ visited t) then edges_loop currentDepth currentId rest t
      else
        let visited' := {[connectedId]} ∪ visited t in
        connectedNode <- getNode connectedId ;;
        let t' :=
          match connectedNode with
          | Some n =>
              mkTraversal visited'
                (connectedNodes t ++
                   [Connected.mk n (Some edge) currentDepth
                      (Some (if String.eqb (Edge.source edge) currentId
                             then "out" else "in"))])
                (nextNodesToProcess t ++ [connectedId])
          | None => mkTraversal visited' (connectedNodes t) (nextNodesToProcess t)
          end in
        if (0 <? limit)%nat && (limit <=? length (connectedNodes t'))%nat
        then ret (Return (connectedNodes t'))
        else edges_loop currentDepth currentId rest t'
  end.

(** The injection of the seed itself, at the first level. *)
Definition include_self (currentDepth : nat) (currentId : string) (t : Traversal)
    : M Traversal :=
  if includeSelf && (currentDepth =? 1)%nat && String.eqb currentId nodeId then
    node <- getNode currentId ;;
    match node with
    | Some n =>
        ret (mkTraversal (visited t)
               (connectedNodes t ++ [Connected.mk n None 0 None])
               (nextNodesToProcess t))
    | None => ret t
    end
  else ret t.

(** [for (const currentId of nodesToProcess) { ... }] *)
Fixpoint nodes_loop (currentDepth : nat) (nodesToProcess : list string)
    (t : Traversal) : M Flow :=
  match nodesToProcess with
  | [] => ret (Continue t)
  | currentId :: rest =>
      t1 <- include_self currentDepth currentId t ;;
      let nodeEdges := List.filter (touches currentId) connectedEdges in
      flow <- edges_loop currentDepth currentId nodeEdges t1 ;;
      match flow with
      | Return result => ret (Return result)
      | Continue t2 => nodes_loop currentDepth rest t2
      end
  end.

(** [while (currentDepth <= depth && nodesToProcess.length > 0)];
    [levels] is [depth - currentDepth + 1], the number of levels left. *)
Fixpoint depth_loop (levels : nat) (currentDepth : nat) (nodesToProcess : list string)
    (seen : gset string) (found : list Connected.t) : M (list Connected.t) :=
  match levels with
  | 0 => ret found
  | S levels' =>
      match nodesToProcess with
      | [] => ret found
      | _ :: _ =>
          flow <- nodes_loop currentDepth nodesToProcess (mkTraversal seen found []) ;;
          match flow with
          | Return result => ret result
          | Continue t =>
              depth_loop levels' (S currentDepth) (nextNodesToProcess t)
                (visited t) (connectedNodes t)
          end
      end
  end.
End Traverse.

(** [getConnectedNodes(nodeId, options)]: any error is caught and turned
    into the empty array. *)
Definition getConnectedNodes (nodeId : string) (options : ConnOptions.t)
    : M (list Connected.t) :=
  try_catch
    (if String.eqb nodeId "" then throw "Node ID is required"
     else
       let depth := Js.or_nat (ConnOptions.depth options) 1 in
       let limit := Js.or_nat (ConnOptions.limit options) 50 in
       let edgeTypes := ConnOptions.edgeTypes options in
       let direction := Js.or_str (ConnOptions.direction options) "both" in
       let includeSelf := Js.or_obj (ConnOptions.includeSelf options) false in
       es <- getKnowledgeEdges ;;
       let connectedEdges := List.filter (connected_edge edgeTypes direction nodeId) es in
       let seen : gset string := if includeSelf then ∅ else {[nodeId]} in
       depth_loop nodeId limit includeSelf connectedEdges depth 1 [nodeId] seen [])
    (fun _ => ret []).

(** ** The statistics aggregator *)

(** The three distributions are plain objects ([{}]) used as counters,
    one property per key, updated by
    [counts[k] = (counts[k] || 0) + 1]. A property of such an object
    holds a number or, once [+] has met a value that is not a number, a
    string. *)
Inductive Count : Type :=
| Num (n : nat)
| Str (s : string).

(** [String(f)] for a built-in function [f] of the given name. *)
Definition native_function (name : string) : string :=
  "function " ++ name ++ "() { [native code] }".

(** What [counts[k]] reads, converted to a string as [+ 1] does, when
    [counts] has no property [k] of its own but [Object.prototype] has
    one: [__proto__] reads the prototype itself, an object; [constructor]
    reads the function [Object]; the other members read a function of
    their own name. [None] when [counts[k]] is [undefined]. *)
Definition inherited (k : string) : option string :=
  if String.eqb k "__proto__" then Some "[object Object]"
  else if String.eqb k "constructor" then Some (native_function "Object")
  else if Js.arr_includes
            ["toString"; "toLocaleString"; "valueOf"; "hasOwnProperty";
             "isPrototypeOf"; "propertyIsEnumerable"; "__defineGetter__";
             "__defineSetter__"; "__lookupGetter__"; "__lookupSetter__"] k
  then Some (native_function k)
  else None.

(** [counts[k] = (counts[k] || 0) + 1]. A number is incremented; a string
    that is not empty, and an inherited object or function, are truthy and
    [+ 1] appends ["1"] to their text. The assignment creates or replaces
    the property [k] of [counts], save for [__proto__]: its setter ignores
    a value that is not an object, and [counts] stays as it is. *)
Definition increment (counts : gmap string Count) (k : string) : gmap string Count :=
  let value :=
    match counts !! k with
    | Some (Num n) => Num (n + 1)
    | Some (Str s) => if String.eqb s "" then Num 1 else Str (s ++ "1")
    | None =>
        match inherited k with
        | Some text => Str (text ++ "1")
        | None => Num 1
        end
    end in
  if String.eqb k "__proto__" then counts else <[k := value]> counts.

(** [const source = node.source || 'unknown';
     sourceCounts[source] = (sourceCounts[source] || 0) + 1] *)
Definition count_source (sourceCounts : gmap string Count) (node : Node.t)
    : gmap string Count :=
  let source := Js.or_str (Some (Node.source node)) "unknown" in
  increment sourceCounts source.

Definition sourceDistribution (ns : list Node.t) : gmap string Count :=
  fold_left count_source ns ∅.

(** [categoriesCounts[category] = (categoriesCounts[category] || 0) + 1] *)
Definition count_category (categoriesCounts : gmap string Count) (category : string)
    : gmap string Count :=
  increment categoriesCounts category.

Definition categoriesDistribution (ns : list Node.t) : gmap string Count :=
  fold_left (fun counts node => fold_left count_category (Node.categories node) counts)
            ns ∅.

(** [const type = edge.type || 'unknown';
     edgeTypeCounts[type] = (edgeTypeCounts[type] || 0) + 1] *)
Definition count_edge_type (edgeTypeCounts : gmap string Count) (edge : Edge.t)
    : gmap string Count :=
  let type := Js.or_str (Some (Edge.type edge)) "unknown" in
  increment edgeTypeCounts type.

Definition edgeTypeDistribution (es : list Edge.t) : gmap string Count :=
  fold_left count_edge_type es ∅.

Module Statistics.
(** The result of [getStatistics], without [timeDistribution] (calendar
    months), [connectionStats] (a floating-point average) and
    [lastUpdated]. Its [catch] branch is not reachable here. *)
Record t : Type := mk {
  nodeCount : nat;
  edgeCount : nat;
  categoriesDistribution : gmap string Count;
  sourceDistribution : gmap string Count;
  edgeTypeDistribution : gmap string Count
}.
End Statistics.

Definition getStatistics : M Statistics.t :=
  ns <- getKnowledgeNodes ;;
  es <- getKnowledgeEdges ;;
  ret (Statistics.mk (length ns) (length es) (categoriesDistribution ns)
         (sourceDistribution ns) (edgeTypeDistribution es)).

(** The sum of the values of a map of numbers. *)
Definition sum_values (m : gmap string nat) : nat :=
  map_fold (fun _ v acc => v + acc) 0 m.

(** ** The storage manager: export, import, reset and migration *)

Module ImportData.
(** The argument of [importData]: [nodes] is [None] when the property is
    missing or is not an array. *)
Record t : Type := mk {
  nodes : option (list Node.t);
  edges : option (list Edge.t)
}.
End ImportData.

Module ImportReport.
(** What [importData] returns. *)
Record t : Type := mk {
  nodesAdded : nat;
  edgesAdded : nat;
  totalNodes : nat;
  totalEdges : nat
}.
End ImportReport.

(** [localStorage.set({[KNOWLEDGE_NODES]: ns, [KNOWLEDGE_EDGES]: es})] *)
Definition set_collections (ns : list Node.t) (es : list Edge.t) : M unit :=
  fun s => (Ok tt, mkKG (mkStore ns es) (nodeMemo s)).

(** [clearAllData] *)
Definition clearAllData : M bool :=
  set_collections [] [] ;;
  ret true.

(** [exportAllData], as far as the collections go. *)
Definition exportAllData : M ImportData.t :=
  ns <- getKnowledgeNodes ;;
  es <- getKnowledgeEdges ;;
  ret (ImportData.mk (Some ns) (Some es)).

(** [new Set(existingNodes.map(node => node.id)).has(i)] *)
Definition id_in_nodes (ns : list Node.t) (i : string) : bool :=
  existsb (node_has_id i) ns.

Definition id_in_edges (es : list Edge.t) (i : string) : bool :=
  existsb (edge_has_id i) es.

(** The filter of the imported edges: the id is new, and both ends are
    ids of existing or of newly imported nodes. *)
Definition importable_edge (existingNodes newNodes : list Node.t)
    (existingEdges : list Edge.t) (edge : Edge.t) : bool :=
  if id_in_edges existingEdges (Edge.id edge) then false
  else
    let sourceExists :=
      id_in_nodes existingNodes (Edge.source edge)
      || existsb (node_has_id (Edge.source edge)) newNodes in
    let targetExists :=
      id_in_nodes existingNodes (Edge.target edge)
      || existsb (node_has_id (Edge.target edge)) newNodes in
    sourceExists && targetExists.

Definition importData (importData : ImportData.t) : M ImportReport.t :=
  match ImportData.nodes importData with
  | None => throw "Invalid import data"
  | Some importedNodes =>
      existingNodes <- getKnowledgeNodes ;;
      existingEdges <- getKnowledgeEdges ;;
      let newNodes :=
        List.filter (fun node => negb (id_in_nodes existingNodes (Node.id node)))
                    importedNodes in
      let newEdges :=
        List.filter (importable_edge existingNodes newNodes existingEdges)
                    (Js.or_obj (ImportData.edges importData) []) in
      let mergedNodes := (existingNodes ++ newNodes)%list in
      let mergedEdges := (existingEdges ++ newEdges)%list in
      set_collections mergedNodes mergedEdges ;;
      ret (ImportReport.mk (length newNodes) (length newEdges)
             (length mergedNodes) (length mergedEdges))
  end.

(** [{...node, createdAt: node.createdAt || now, updatedAt: node.updatedAt || now}] *)
Definition migrate_node (now : Z) (node : Node.t) : Node.t :=
  Node.mk (Node.id node) (Node.title node) (Node.content node) (Node.url node)
    (Node.timestamp node) (Node.source node) (Node.categories node)
    (Node.tags node) (Node.preview node)
    (Some (Js.or_Z (Node.createdAt node) now))
    (Some (Js.or_Z (Node.updatedAt node) now)).

Definition migrate_edge (now : Z) (edge : Edge.t) : Edge.t :=
  Edge.mk (Edge.id edge) (Edge.source edge) (Edge.target edge) (Edge.type edge)
    (Edge.label edge) (Edge.weight edge) (Edge.bidirectional edge)
    (Edge.timestamp edge)
    (Some (Js.or_Z (Edge.createdAt edge) now))
    (Some (Js.or_Z (Edge.updatedAt edge) now)).

(** [migrateToV1]; [now] is the one [Date.now()] of the call. *)
Definition migrateToV1 (now : Z) : M bool :=
  ns <- getKnowledgeNodes ;;
  es <- getKnowledgeEdges ;;
  set_collections (map (migrate_node now) ns) (map (migrate_edge now) es) ;;
  ret true.

(** ** The knowledge graph: insights *)

Module InsightOptions.
(** The argument of [getNodesForInsight]. *)
Record t : Type := mk {
  nodeIds : option (list string);
  categories : option (list string);
  tags : option (list string);
  timeRange : option Z;
  limit : option nat
}.
Definition empty : t := mk None None None None None.
End InsightOptions.

(** An element of the array that [getNodesForInsight] returns: a node
    fetched by id, or an element of the [results] of [search]. *)
Inductive InsightNode : Type :=
| StoredNode (n : Node.t)
| SearchHit (r : ResultItem.t).

(** [for (const nodeId of nodeIds) { const node = await getNode(nodeId);
      if (node) nodes.push(node); }] *)
Fixpoint collect_nodes (nodeIds : list string) (found : list Node.t) : M (list Node.t) :=
  match nodeIds with
  | [] => ret found
  | nodeId :: rest =>
      node <- getNode nodeId ;;
      collect_nodes rest (match node with Some n => found ++ [n] | None => found end)%list
  end.

(** The query built from the categories and the tags. *)
Definition insight_query (categories tags : list string) : string :=
  (match categories with [] => "" | _ :: _ => String.concat " " categories end)
  ++ (match tags with [] => "" | _ :: _ => " " ++ String.concat " " tags end).

(** [node.timestamp >= rangeStart && node.timestamp <= now] on an element
    of [results]; without the fields of a node, [node.timestamp] is
    [undefined] and both comparisons are false. *)
Definition in_time_range (rangeStart now : Z) (item : ResultItem.t) : bool :=
  match ResultItem.fields item with
  | Some n => (rangeStart <=? Node.timestamp n)%Z && (Node.timestamp n <=? now)%Z
  | None => false
  end.

Definition insight_search_options (limit : nat) : SearchOptions.t :=
  SearchOptions.mk (Some limit) None (Some "timestamp") (Some "desc")
    (Some ["categories"; "tags"; "title"; "content"]).

(** [getNodesForInsight(options)]: any error is caught and turned into the
    empty array. *)
Definition getNodesForInsight (now : Z) (options : InsightOptions.t)
    : M (list InsightNode) :=
  try_catch
    (let nodeIds := search_option (InsightOptions.nodeIds options) [] in
     let categories := search_option (InsightOptions.categories options) [] in
     let tags := search_option (InsightOptions.tags options) [] in
     let limit := search_option (InsightOptions.limit options) 20 in
     match nodeIds with
     | _ :: _ =>
         found <- collect_nodes nodeIds [] ;;
         ret (map StoredNode found)
     | [] =>
         searchResults <- search (insight_query categories tags)
                            (insight_search_options limit) ;;
         let filteredResults :=
           match InsightOptions.timeRange options with
           | Some range =>
               if (range =? 0)%Z then SearchResult.results searchResults
               else List.filter (in_time_range (now - range) now)
                                (SearchResult.results searchResults)
           | None => SearchResult.results searchResults
           end in
         ret (map SearchHit filteredResults)
     end)
    (fun _ => ret []).

Module InsightData.
(** The argument of [addInsightNode]. *)
Record t : Type := mk {
  title : option string;
  content : option Content.t;
  categories : option (list string);
  tags : option (list string);
  relatedNodes : option (list string)
}.
End InsightData.

(** The node that [addInsightNode] hands to [addNode]. *)
Definition insight_node (content : Content.t) (insightData : InsightData.t) : NodeData.t :=
  NodeData.mk None
    (Some (Js.or_str (InsightData.title insightData) "Generated Insight"))
    (Some content) None None (Some "insight")
    (Some (Js.or_obj (InsightData.categories insightData) ["insight"]))
    (Some (Js.or_obj (InsightData.tags insightData) []))
    None.

(** The edge from an insight to a node it was generated from. *)
Definition insight_edge (insightId relatedId : string) : EdgeData.t :=
  EdgeData.mk None (Some insightId) (Some relatedId) (Some "insight")
    (Some "Generated from") None (Some true) None.

(** [for (const relatedId of insightData.relatedNodes) await this.addEdge(...)];
    the [i]-th call draws the uuid [rnd i]. *)
Fixpoint relatedNodes_loop (now : Z) (rnd : nat -> string) (i : nat)
    (insightId : string) (relatedNodes : list string) : M unit :=
  match relatedNodes with
  | [] => ret tt
  | relatedId :: rest =>
      addEdge now (rnd i) (insight_edge insightId relatedId) ;;
      relatedNodes_loop now rnd (S i) insightId rest
  end.

(** [addInsightNode(insightData)]; [rnd 0] is the uuid of the node,
    [rnd (S i)] the one drawn for the edge to the [i]-th related node. *)
Definition addInsightNode (now : Z) (rnd : nat -> string) (insightData : InsightData.t)
    : M string :=
  match InsightData.content insightData with
  | None => throw "Insight data is required"
  | Some content =>
      insightId <- addNode now rnd (insight_node content insightData) ;;
      match InsightData.relatedNodes insightData with
      | Some relatedNodes => relatedNodes_loop now rnd 1 insightId relatedNodes
      | None => ret tt
      end ;;
      ret insightId
  end.

(** ** The statistics aggregator: connections *)

(** The body of the loop over the edges that fills [connectionCounts]
    ([Map] from node id to number of edge ends). *)
Definition count_connections (connectionCounts : gmap string nat) (edge : Edge.t)
    : gmap string nat :=
  let afterSource :=
    <[Edge.source edge := default 0 (connectionCounts !! Edge.source edge) + 1]>
      connectionCounts in
  <[Edge.target edge := default 0 (afterSource !! Edge.target edge) + 1]> afterSource.

Definition connectionCounts (es : list Edge.t) : gmap string nat :=
  fold_left count_connections es ∅.

(** [Array.from(connectionCounts.values())] *)
Definition connection_values (m : gmap string nat) : list nat :=
  map snd (map_to_list m).

(** [Math.min(...counts)] and [Math.max(...counts)] on a non-empty array *)
Definition min_of (counts : list nat) : nat :=
  match counts with
  | [] => 0
  | c :: rest => fold_left Nat.min rest c
  end.

Definition max_of (counts : list nat) : nat :=
  match counts with
  | [] => 0
  | c :: rest => fold_left Nat.max rest c
  end.

Module ConnectionStats.
(** [connectionStats], without [avg] (a floating-point quotient). *)
Record t : Type := mk {
  min : nat;
  max : nat;
  isolated : nat
}.
End ConnectionStats.

(** [nodes.filter(node => !connectedNodeIds.has(node.id)).length] *)
Definition isolatedCount (ns : list Node.t) (counts : gmap string nat) : nat :=
  length (List.filter (fun node => negb (bool_decide (is_Some (counts !! Node.id node)))) ns).

Definition connectionStats (ns : list Node.t) (es : list Edge.t) : ConnectionStats.t :=
  let counts := connectionCounts es in
  if (0 <? size counts)%nat then
    ConnectionStats.mk (min_of (connection_values counts))
      (max_of (connection_values counts)) (isolatedCount ns counts)
  else if (0 <? length ns)%nat then ConnectionStats.mk 0 0 (length ns)
  else ConnectionStats.mk 0 0 0.

(** ** The error registry ([error-handler.js]) *)

Module ErrorInfo.
(** The argument of [handleError], as far as the registry keeps it. *)
Record t : Type := mk {
  message : option string;
  context : option string;
  category : option string;
  level : option string
}.
End ErrorInfo.

Module ErrorEntry.
(** A standardized error of the registry. *)
Record t : Type := mk {
  message : string;
  context : string;
  category : string;
  level : string;
  timestamp : Z;
  handled : bool
}.
End ErrorEntry.

(** [ErrorRegistry]: the recent errors, newest first, and the bound. *)
Record ErrorRegistry : Type := mkRegistry {
  errors : list ErrorEntry.t;
  maxErrors : nat
}.

(** [new ErrorRegistry(maxErrors)] *)
Definition new_registry (maxErrors : nat) : ErrorRegistry := mkRegistry [] maxErrors.

(** [arr.pop()]: the array without its last element *)
Definition pop {A : Type} (l : list A) : list A := removelast l.

(** [registry.add(error)] *)
Definition registry_add (error : ErrorEntry.t) (r : ErrorRegistry) : ErrorRegistry :=
  let unshifted := error :: errors r in
  if (maxErrors r <? length unshifted)%nat
  then mkRegistry (pop unshifted) (maxErrors r)
  else mkRegistry unshifted (maxErrors r).

(** The standardized error that [handleError] builds at time [timestamp]. *)
Definition standard_error (timestamp : Z) (errorInfo : ErrorInfo.t) : ErrorEntry.t :=
  ErrorEntry.mk
    (Js.or_str (ErrorInfo.message errorInfo) "Unknown error")
    (Js.or_str (ErrorInfo.context errorInfo) "unknown")
    (Js.or_str (ErrorInfo.category errorInfo) "unknown")
    (Js.or_str (ErrorInfo.level errorInfo) "error")
    timestamp true.

(** [handleError(errorInfo)], on the registry (the console and the
    listeners are left out). *)
Definition handleError (timestamp : Z) (errorInfo : ErrorInfo.t) (r : ErrorRegistry)
    : ErrorEntry.t * ErrorRegistry :=
  let error := standard_error timestamp errorInfo in
  (error, registry_add error r).

Module ErrorFilter.
(** The argument of [getFiltered]. *)
Record t : Type := mk {
  category : option string;
  level : option string;
  limit : option nat
}.
End ErrorFilter.

(** [registry.getFiltered({category, level, limit})] *)
Definition getFiltered (f : ErrorFilter.t) (r : ErrorRegistry) : list ErrorEntry.t :=
  let byCategory :=
    if Js.truthy (ErrorFilter.category f)
    then List.filter
           (fun e => String.eqb (ErrorEntry.category e)
                       (Js.or_str (ErrorFilter.category f) ""))
           (errors r)
    else errors r in
  let byLevel :=
    if Js.truthy (ErrorFilter.level f)
    then List.filter
           (fun e => String.eqb (ErrorEntry.level e) (Js.or_str (ErrorFilter.level f) ""))
           byCategory
    else byCategory in
  match ErrorFilter.limit f with
  | Some limit => if (0 <? limit)%nat then Js.slice 0 limit byLevel else byLevel
  | None => byLevel
  end.

(** [getRecentErrors(limit = 10)]: [None] is the omitted argument. *)
Definition getRecentErrors (limit : option nat) (r : ErrorRegistry) : list ErrorEntry.t :=
  getFiltered (ErrorFilter.mk None None (Some (search_option limit 10))) r.

Definition getErrorsByCategory (category : string) (limit : option nat)
    (r : ErrorRegistry) : list ErrorEntry.t :=
  getFiltered (ErrorFilter.mk (Some category) None limit) r.

Definition getErrorsByLevel (level : string) (limit : option nat) (r : ErrorRegistry)
    : list ErrorEntry.t :=
  getFiltered (ErrorFilter.mk None (Some level) limit) r.

(** [clearErrors()] *)
Definition clearErrors (r : ErrorRegistry) : ErrorRegistry := mkRegistry [] (maxErrors r).

(** ** UUIDs ([utils/uuid.js]) *)

(** [v.toString(16)] for a non-negative integer *)
Definition toString16 (v : N) : string :=
  HexadecimalString.NilZero.string_of_uint (N.to_hex_uint v).

(** The callback of [replace]: [c] is the matched character, [r] the value
    of [Math.random() * 16 | 0]. *)
Definition uuid_digit (c : ascii) (r : N) : string :=
  let v := if Ascii.eqb c "x"%char then r else N.lor (N.land r 3) 8 in
  toString16 v.

(** [template.replace(/[xy]/g, callback)]; [rand i] is the [i]-th random
    draw. *)
Fixpoint replace_xy (template : string) (rand : nat -> N) (i : nat) : string :=
  match template with
  | EmptyString => EmptyString
  | String c rest =>
      if Ascii.eqb c "x"%char || Ascii.eqb c "y"%char
      then uuid_digit c (rand i) ++ replace_xy rest rand (S i)
      else String c (replace_xy rest rand i)
  end.

(** [v4()] *)
Definition v4 (rand : nat -> N) : string :=
  replace_xy "xxxxxxxx-xxxx-4xxx-yxxx-xxxxxxxxxxxx" rand 0.

(** The pieces of the regular expression of [isValidUUID]. *)
Inductive CharClass : Type :=
| HexDigit
| Literal (c : ascii)
| Variant.

Definition in_range (lo hi c : ascii) : bool :=
  (nat_of_ascii lo <=? nat_of_ascii c)%nat && (nat_of_ascii c <=? nat_of_ascii hi)%nat.

(** One character against [[0-9a-f]], a literal or [[89ab]], with the flag
    [i]. *)
Definition class_matches (cls : CharClass) (c : ascii) : bool :=
  match cls with
  | HexDigit => in_range "0" "9" c || in_range "a" "f" c || in_range "A" "F" c
  | Literal l => Ascii.eqb (Js.lower_char l) (Js.lower_char c)
  | Variant => in_range "8" "9" c || in_range "a" "b" c || in_range "A" "B" c
  end.

(** [/^[0-9a-f]{8}-[0-9a-f]{4}-4[0-9a-f]{3}-[89ab][0-9a-f]{3}-[0-9a-f]{12}$/i] *)
Definition uuid_pattern : list CharClass :=
  (repeat HexDigit 8 ++ [Literal "-"] ++ repeat HexDigit 4 ++ [Literal "-"; Literal "4"]
   ++ repeat HexDigit 3 ++ [Literal "-"; Variant] ++ repeat HexDigit 3
   ++ [Literal "-"] ++ repeat HexDigit 12)%list.

Fixpoint matches_exactly (pattern : list CharClass) (s : string) : bool :=
  match pattern, s with
  | [], EmptyString => true
  | cls :: pattern', String c rest => class_matches cls c && matches_exactly pattern' rest
  | _, _ => false
  end.

(** [isValidUUID(uuid)] *)
Definition isValidUUID (uuid : string) : bool := matches_exactly uuid_pattern uuid.

(** * Vocabulary of the properties, and the stores of the examples *)

Open Scope list_scope.

(** ** Stored nodes *)

(** Some stored node has the id [k]. *)
Definition has_id (ns : list Node.t) (k : string) : Prop :=
  exists n, n ∈ ns /\ Node.id n = k.

(** [stored] is [node] up to the stamps [createdAt] and [updatedAt]. *)
Definition same_fields (stored node : Node.t) : Prop :=
  Node.id stored = Node.id node /\ Node.title stored = Node.title node /\
  Node.content stored = Node.content node /\ Node.url stored = Node.url node /\
  Node.timestamp stored = Node.timestamp node /\
  Node.source stored = Node.source node /\
  Node.categories stored = Node.categories node /\
  Node.tags stored = Node.tags node /\ Node.preview stored = Node.preview node.

(** The collections that a successful [deleteNode(x)] leaves. *)
Definition without_node (x : string) (ns : list Node.t) : list Node.t :=
  filter (fun n => Node.id n ≠ x) ns.

Definition without_edges_of (x : string) (es : list Edge.t) : list Edge.t :=
  filter (fun e => Edge.source e ≠ x ∧ Edge.target e ≠ x) es.

(** The preview of a node agrees with its title and content: it is what
    [generatePreview] derives from them. *)
Definition preview_consistent (n : Node.t) : Prop :=
  Preview.title (Node.preview n) = Js.or_str (Some (Node.title n)) "Untitled" /\
  Preview.summary (Node.preview n) = preview_summary (Some (Node.content n)) /\
  Preview.keywords (Node.preview n) = preview_keywords (Some (Node.content n)).

(** The bucket of the source distribution that a node is counted in:
    [node.source || 'unknown']. *)
Definition source_bucket (node : Node.t) : string :=
  Js.or_str (Some (Node.source node)) "unknown".

(** A copy of a node with another [url]. *)
Definition with_url (n : Node.t) (u : option string) : Node.t :=
  Node.mk (Node.id n) (Node.title n) (Node.content n) u
    (Node.timestamp n) (Node.source n) (Node.categories n) (Node.tags n)
    (Node.preview n) (Node.createdAt n) (Node.updatedAt n).

(** The default fields of [search], and [url]. *)
Definition searchIn_with_url : list string := default_searchIn ++ ["url"].

(** ** The invariant of the graph and its reachable states *)

(** What every state of the graph satisfies: stored ids are not empty, the
    cache only knows ids that are stored, and both ends of every stored
    edge are stored nodes. *)
Record Inv (kg : KG) : Prop := mkInv {
  inv_ids : forall n, n ∈ nodes (storageManager kg) -> Node.id n <> "";
  inv_memo : forall k n,
    nodeMemo kg !! k = Some n -> has_id (nodes (storageManager kg)) k;
  inv_edges : forall e, e ∈ edges (storageManager kg) ->
    has_id (nodes (storageManager kg)) (Edge.source e) /\
    has_id (nodes (storageManager kg)) (Edge.target e)
}.

(** An [async] method keeps the invariant, whether it returns or throws. *)
Definition preserves {A : Type} (m : M A) : Prop :=
  forall kg, Inv kg -> Inv (snd (m kg)).

(** A call of the public interface of the graph, with the values that the
    clock and the uuid generator return during the call.
    ([addInsightNode] is a sequence of [addNode] and [addEdge] calls;
    [search], [getEdge] and [getStatistics] do not change the state.) *)
Inductive Call : Type :=
| CallAddNode (now : Z) (rnd : nat -> string) (nodeData : NodeData.t)
| CallGetNode (nodeId : string)
| CallUpdateNode (now : Z) (nodeId : string) (updates : Updates.t)
| CallDeleteNode (nodeId : string)
| CallAddEdge (now : Z) (uuid : string) (edgeData : EdgeData.t)
| CallDeleteEdge (edgeId : string)
| CallGetConnectedNodes (nodeId : string) (options : ConnOptions.t).

(** The state after a call, whether it returned or threw. *)
Definition run_call (c : Call) (kg : KG) : KG :=
  match c with
  | CallAddNode now rnd nodeData => snd (addNode now rnd nodeData kg)
  | CallGetNode nodeId => snd (getNode nodeId kg)
  | CallUpdateNode now nodeId updates => snd (updateNode now nodeId updates kg)
  | CallDeleteNode nodeId => snd (deleteNode nodeId kg)
  | CallAddEdge now uuid edgeData => snd (addEdge now uuid edgeData kg)
  | CallDeleteEdge edgeId => snd (deleteEdge edgeId kg)
  | CallGetConnectedNodes nodeId options => snd (getConnectedNodes nodeId options kg)
  end.

Definition run_calls (cs : list Call) (kg : KG) : KG :=
  fold_left (fun s c => run_call c s) cs kg.

(** The states that a graph created on an empty store goes through. *)
Inductive reachable : KG -> Prop :=
| reachable_empty : reachable empty_graph
| reachable_call (c : Call) (kg : KG) : reachable kg -> reachable (run_call c kg).

(** ** The traversal loops *)

(** [connectedId] in the loop over the edges of [currentId]. *)
Definition other_end (currentId : string) (edge : Edge.t) : string :=
  if String.eqb (Edge.source edge) currentId then Edge.target edge else Edge.source edge.

(** The cap [K] seen from inside the loops when every push is followed by
    the test of the limit: room is left while the loop goes on. *)
Definition flow_bounded (K : nat) (r : Result Flow) : Prop :=
  match r with
  | Ok (Continue t) => length (connectedNodes t) < K
  | Ok (Return result) => length result <= K
  | Throw _ => True
  end.

(** The same when a push may come without a test before the next push. *)
Definition flow_bounded_weak (K : nat) (r : Result Flow) : Prop :=
  match r with
  | Ok (Continue t) => length (connectedNodes t) <= K
  | Ok (Return result) => length result <= S K
  | Throw _ => True
  end.

(** What the first level of the traversal leaves: the seed is visited and
    is not on the next frontier. *)
Definition frontier_ok (nodeId : string) (t : Traversal) : Prop :=
  nodeId ∈ visited t /\ Forall (fun c => c <> nodeId) (nextNodesToProcess t).

(** The ids and depths of an array returned by [getConnectedNodes]. *)
Definition ids_of (found : list Connected.t) : list (string * nat) :=
  map (fun c => (Node.id (Connected.node c), Connected.depth c)) found.

Definition connected_ids (nodeId : string) (options : ConnOptions.t) (kg : KG)
    : Result (list (string * nat)) :=
  match fst (getConnectedNodes nodeId options kg) with
  | Ok found => Ok (ids_of found)
  | Throw e => Throw e
  end.

(** ** Stores and arguments of the examples *)

(** A node whose url, and nothing else, contains the word [rust]. *)
Definition url_only_node : Node.t :=
  Node.mk "n1" "Alpha" Content.empty (Some "http://rust.example") 1 "manual" [] []
    (Preview.mk "Alpha" "No preview available" [] "manual" 1) (Some 1%Z) (Some 1%Z).

(** A store with two nodes. *)
Definition node_alpha : Node.t :=
  Node.mk "a" "Alpha" (Content.mk (Some "first text") None None) None 100 "manual"
    [] ["x"] (Preview.mk "Alpha" "first text" [] "manual" 100) (Some 100%Z) (Some 100%Z).

Definition node_beta : Node.t :=
  Node.mk "b" "Beta" Content.empty None 200 "webpage" [] []
    (Preview.mk "Beta" "No preview available" [] "webpage" 200)
    (Some 200%Z) (Some 200%Z).

Definition two_nodes : KG := mkKG (mkStore [node_alpha; node_beta] []) ∅.

Definition data_of (i title : string) (ts : Z) : NodeData.t :=
  NodeData.mk (Some i) (Some title) None None (Some ts) None None None None.

Definition edge_of (s t : string) : EdgeData.t :=
  EdgeData.mk None (Some s) (Some t) None None None None None.

Definition no_uuid : nat -> string := fun _ => "00000000-0000-4000-8000-000000000000".

(** The chain [A -> B -> C], built through the interface. *)
Definition chain_calls : list Call :=
  [ CallAddNode 1 no_uuid (data_of "A" "Rust Ownership" 1);
    CallAddNode 2 no_uuid (data_of "B" "Go Concurrency" 2);
    CallAddNode 3 no_uuid (data_of "C" "Zig Allocators" 3);
    CallAddEdge 4 (no_uuid 0) (edge_of "A" "B");
    CallAddEdge 5 (no_uuid 0) (edge_of "B" "C") ].

Definition chain_graph : KG := run_calls chain_calls empty_graph.

(** A node to add, with an automatic connection to an id that no node
    has. *)
Definition data_with_ghost : NodeData.t :=
  NodeData.mk (Some "D") (Some "Dangling") None None (Some 9%Z) None None None
    (Some ["A"; "ghost"; "B"]).

(** A store with the single node [n1], titled [Alpha]. *)
Definition one_node : KG :=
  run_call (CallAddNode 10 no_uuid (data_of "n1" "Alpha" 10)) empty_graph.

(** The argument [{title: t}] of [updateNode]. *)
Definition retitle (title : string) : Updates.t :=
  Updates.mk (Some title) None None None None None None None.

(** What is stored about a node: id, title, title of its preview, and the
    title that [generatePreview] derives from the stored node. *)
Definition title_view (now : Z) (n : Node.t) : string * string * string * string :=
  (Node.id n, Node.title n, Preview.title (Node.preview n),
   Preview.title (generatePreview now (node_as_data n))).

(** ** Vocabulary of the additional properties *)

(** What holds of an element returned by the traversal: a neighbour comes
    with one of the edges of [connectedEdges], a depth between 1 and
    [maxDepth] and a direction; the injected seed comes without edge, at
    depth 0, and only when [includeSelf] is set. *)
Definition entry_ok (maxDepth : nat) (connectedEdges : list Edge.t) (includeSelf : bool)
    (c : Connected.t) : Prop :=
  match Connected.edge c with
  | Some e =>
      In e connectedEdges /\ 1 <= Connected.depth c <= maxDepth /\
      (Connected.direction c = Some "out" \/ Connected.direction c = Some "in")
  | None =>
      includeSelf = true /\ Connected.depth c = 0 /\ Connected.direction c = None
  end.

(** [entry_ok] seen from inside the loops. *)
Definition flow_all (P : Connected.t -> Prop) (r : Result Flow) : Prop :=
  match r with
  | Ok (Continue t) => Forall P (connectedNodes t)
  | Ok (Return result) => Forall P result
  | Throw _ => True
  end.

(** The element [a] of [results] may come before [b] under the comparator
    [gt]: [compare(a, b) <= 0]. *)
Definition may_precede {A : Type} (gt : A -> A -> bool) (a b : A) : Prop :=
  gt a b = false.

(** A scored element of [results]. *)
Definition is_scored (h : Hit) : Prop :=
  match h with Scored _ _ _ => True | RawNode _ => False end.

(** The score of [h] is [s]. *)
Definition has_score (s : Q) (h : Hit) : bool :=
  match hit_score h with
  | Some x => Qeq_bool x s
  | None => false
  end.

(** The returned element [a] has a score, and so has [b], which is not
    larger. *)
Definition score_ge (a b : ResultItem.t) : Prop :=
  match ResultItem.score a, ResultItem.score b with
  | Some x, Some y => (y <= x)%Q
  | _, _ => False
  end.

(** The matches of a node in the fields that are searched, all together. *)
Definition match_count (searchIn queryTerms : list string) (node : Node.t) : nat :=
  titleMatch searchIn queryTerms node + summaryMatch searchIn queryTerms node
  + textMatch searchIn queryTerms node + entityMatch searchIn queryTerms node
  + categoryMatch searchIn queryTerms node + tagMatch searchIn queryTerms node
  + urlMatch searchIn queryTerms node.

(** The bucket of the edge-type distribution that an edge is counted in:
    [edge.type || 'unknown']. *)
Definition type_bucket (edge : Edge.t) : string :=
  Js.or_str (Some (Edge.type edge)) "unknown".

(** The number of edge ends at the node [k]: a self-loop has two. *)
Definition edge_ends (k : string) (es : list Edge.t) : nat :=
  length (List.filter (fun e => String.eqb (Edge.source e) k) es)
  + length (List.filter (fun e => String.eqb (Edge.target e) k) es).

(** The number of times the category [c] is listed by the nodes. *)
Definition category_uses (c : string) (ns : list Node.t) : nat :=
  list_sum (map (fun n => length (List.filter (String.eqb c) (Node.categories n))) ns).

(** An [async] method keeps the property [P] of the state, whether it
    returns or throws. *)
Definition maintains {A : Type} (P : KG -> Prop) (m : M A) : Prop :=
  forall kg, P kg -> P (snd (m kg)).

(** The ids of the stored nodes are pairwise different, and so are the ids
    of the stored edges. *)
Definition unique_ids (kg : KG) : Prop :=
  NoDup (map Node.id (nodes (storageManager kg))) /\
  NoDup (map Edge.id (edges (storageManager kg))).

(** The cache is coherent: a node cached under [k] has the id [k] and the
    fields of a stored node. *)
Definition coherent (kg : KG) : Prop :=
  forall k n, nodeMemo kg !! k = Some n ->
    Node.id n = k /\
    exists stored, stored ∈ nodes (storageManager kg) /\ same_fields stored n.

(** The node that [updateNode] builds from the node [node] it starts
    from. *)
Definition updated_from (now : Z) (nodeId : string) (updates : Updates.t)
    (node : Node.t) : Node.t :=
  let merged := spread_updates node updates nodeId now in
  if content_or_title_given updates
  then with_preview merged (generatePreview now (node_as_data merged))
  else merged.

(** [stored] is [edge] up to the stamps [createdAt] and [updatedAt]. *)
Definition same_edge_fields (stored edge : Edge.t) : Prop :=
  Edge.id stored = Edge.id edge /\ Edge.source stored = Edge.source edge /\
  Edge.target stored = Edge.target edge /\ Edge.type stored = Edge.type edge /\
  Edge.label stored = Edge.label edge /\ Edge.weight stored = Edge.weight edge /\
  Edge.bidirectional stored = Edge.bidirectional edge /\
  Edge.timestamp stored = Edge.timestamp edge.

(** [edgeData.source] (or [edgeData.target]) names a stored node. *)
Definition resolves (kg : KG) (o : option string) : Prop :=
  exists s, o = Some s /\ has_id (nodes (storageManager kg)) s.

(** Some stored edge has the id [k]. *)
Definition has_edge_id (es : list Edge.t) (k : string) : Prop :=
  exists e, e ∈ es /\ Edge.id e = k.

(** Both ends of every edge of [es] are ids of nodes of [ns]. *)
Definition ends_stored (ns : list Node.t) (es : list Edge.t) : Prop :=
  forall e, e ∈ es -> has_id ns (Edge.source e) /\ has_id ns (Edge.target e).

(** Both stamps of a record are set, and are not the falsy [0]. *)
Definition stamped (createdAt updatedAt : option Z) : Prop :=
  exists c u, createdAt = Some c /\ updatedAt = Some u /\ c <> 0%Z /\ u <> 0%Z.

(** An export of the two nodes [a] and [b], without edges. *)
Definition two_nodes_export : ImportData.t :=
  ImportData.mk (Some [node_alpha; node_beta]) None.

(** Options of [getNodesForInsight] that ask for the nodes [ids]. *)
Definition insight_by_ids (ids : list string) : InsightOptions.t :=
  InsightOptions.mk (Some ids) None None None None.

(** Options of [getNodesForInsight] without criteria, for the last
    [range] milliseconds. *)
Definition insight_recent (range : Z) : InsightOptions.t :=
  InsightOptions.mk None None None (Some range) None.

(** An insight about the ends of the chain. *)
Definition chain_insight : InsightData.t :=
  InsightData.mk (Some "Systems languages")
    (Some (Content.mk (Some "A and C are systems languages") None None))
    None None (Some ["A"; "C"]).

(** ** Vocabulary of the error registry and of the UUIDs *)

(** The registry after a sequence of [handleError] calls, each with its
    clock reading. *)
Definition handle_all (calls : list (Z * ErrorInfo.t)) (r : ErrorRegistry)
    : ErrorRegistry :=
  fold_left (fun reg call => snd (handleError (fst call) (snd call) reg)) calls r.

(** The standardized errors of a sequence of calls, oldest first. *)
Definition standardized (calls : list (Z * ErrorInfo.t)) : list ErrorEntry.t :=
  map (fun call => standard_error (fst call) (snd call)) calls.

(** What [getFiltered] tests on an error: an absent or empty criterion
    admits every error. *)
Definition admits (criterion : option string) (value : string) : Prop :=
  Js.truthy criterion = true -> criterion = Some value.

(** The characters of a template of [v4] against the pieces of a
    pattern: an [x] is replaced by any hexadecimal digit, a [y] by one of
    [8], [9], [a], [b], and any other character stays. *)
Fixpoint fits (template : string) (pattern : list CharClass) : bool :=
  match template, pattern with
  | EmptyString, [] => true
  | String c rest, cls :: pattern' =>
      (if Ascii.eqb c "x"%char
       then match cls with HexDigit => true | _ => false end
       else if Ascii.eqb c "y"%char
       then match cls with Variant => true | _ => false end
       else class_matches cls c)
      && fits rest pattern'
  | _, _ => false
  end.

(** ** Vocabulary of the distributions *)

(** A counter as the code means it: a map from key to number, where a
    key is counted once more. *)
Definition tally (m : gmap string nat) (k : string) : gmap string nat :=
  <[k := default 0 (m !! k) + 1]> m.

(** The bucket that counts [n] occurrences: absent for none, the number
    [n] otherwise. *)
Definition bucket (n : nat) : option Count :=
  if (n =? 0)%nat then None else Some (Num n).

(** The sum of the values of a distribution whose values are numbers. *)
Definition number_of (c : Count) : nat :=
  match c with Num n => n | Str _ => 0 end.

Definition sum_counts (m : gmap string Count) : nat :=
  sum_values (number_of <$> m).

(** A key that reads as [undefined] on an empty object: not the name of
    a member of [Object.prototype]. *)
Definition plain_key (k : string) : Prop := inherited k = None.

(** The number of occurrences of the key [k]. *)
Definition occurrences (k : string) (keys : list string) : nat :=
  length (List.filter (String.eqb k) keys).

(** A node to add, with the source [source]. *)
Definition data_with_source (source : string) : NodeData.t :=
  NodeData.mk (Some "n1") (Some "Alpha") None None (Some 1%Z) (Some source)
    None None None.

(** ** Vocabulary of the sorted results *)

(** [a] may come before [b] in the results of a blank query: both are
    stored nodes, and [b] is not newer than [a]. *)
Definition newest_first (a b : Hit) : Prop :=
  match hit_timestamp a, hit_timestamp b with
  | Some ta, Some tb => (tb <= ta)%Z
  | _, _ => False
  end.

(** [a] may come before [b] in the results sorted by relevance: both are
    scored, and the score of [b] is not larger. *)
Definition best_first (a b : Hit) : Prop :=
  match hit_score a, hit_score b with
  | Some sa, Some sb => (sb <= sa)%Q
  | _, _ => False
  end.

(** [a] may come before [b] in the scored results sorted by [timestamp],
    ascending for the order [asc] and descending for any other. *)
Definition by_timestamp (order : string) (a b : Hit) : Prop :=
  match hit_node a, hit_node b with
  | Some na, Some nb =>
      if String.eqb order "asc"
      then (Node.timestamp na <= Node.timestamp nb)%Z
      else (Node.timestamp nb <= Node.timestamp na)%Z
  | _, _ => False
  end.

(** The matches of a node in the fields other than [url]. *)
Definition match_count_without_url (searchIn queryTerms : list string) (node : Node.t)
    : nat :=
  titleMatch searchIn queryTerms node + summaryMatch searchIn queryTerms node
  + textMatch searchIn queryTerms node + entityMatch searchIn queryTerms node
  + categoryMatch searchIn queryTerms node + tagMatch searchIn queryTerms node.

(** The chain with a fourth node, which lists a category twice. *)
Definition categorized_graph : KG :=
  run_call
    (CallAddNode 6 no_uuid
       (NodeData.mk (Some "D") (Some "Odin") None None (Some 6%Z) None
          (Some ["lang"; "systems"; "lang"]) None None))
    chain_graph.

(** * Properties *)

(** ** Statistics: the source distribution *)

Lemma sum_values_empty : sum_values ∅ = 0.
Proof. unfold sum_values. apply map_fold_empty. Qed.

Lemma sum_values_insert_fresh (m : gmap string nat) (k : string) (v : nat) :
  m !! k = None -> sum_values (<[k := v]> m) = v + sum_values m.
Proof.
  intros Hk. unfold sum_values.
  rewrite map_fold_insert_L; [reflexivity | | exact Hk].
  intros; lia.
Qed.

Lemma sum_values_bump (m : gmap string nat) (k : string) :
  sum_values (<[k := default 0 (m !! k) + 1]> m) = S (sum_values m).
Proof.
  destruct (m !! k) as [v|] eqn:Hk; simpl.
  - rewrite <- (insert_delete_eq m k (v + 1)).
    rewrite sum_values_insert_fresh by apply lookup_delete_eq.
    unfold sum_values at 2.
    rewrite (map_fold_delete_L _ _ k v m); [| intros; lia | exact Hk].
    fold (sum_values (delete k m)). lia.
  - rewrite sum_values_insert_fresh by exact Hk. lia.
Qed.

(** *** Counting with a map of numbers *)

Lemma fold_tally_sum (keys : list string) (m : gmap string nat) :
  sum_values (fold_left tally keys m) = length keys + sum_values m.
Proof.
  revert m. induction keys as [|c keys IH]; intros m; simpl; [reflexivity |].
  rewrite IH. unfold tally. rewrite sum_values_bump. lia.
Qed.

Lemma occurrences_cons (k c : string) (keys : list string) :
  occurrences k (c :: keys) = (if String.eqb k c then 1 else 0) + occurrences k keys.
Proof. unfold occurrences. simpl. destruct (String.eqb k c); reflexivity. Qed.

Lemma fold_tally_lookup (keys : list string) (m : gmap string nat) (k : string) :
  fold_left tally keys m !! k =
  match m !! k with
  | Some v => Some (v + occurrences k keys)
  | None => positive (occurrences k keys)
  end.
Proof.
  revert m. induction keys as [|c keys IH]; intros m.
  - simpl. destruct (m !! k); [f_equal; unfold occurrences; simpl; lia | reflexivity].
  - cbn [fold_left]. rewrite IH, occurrences_cons. unfold tally.
    destruct (String.eqb_spec k c) as [-> | Hne].
    + rewrite lookup_insert_eq. destruct (m !! c); simpl; [f_equal; lia | reflexivity].
    + rewrite lookup_insert_ne by congruence. reflexivity.
Qed.

(** *** Counting with an object *)

Lemma plain_key_not_proto (k : string) : plain_key k -> String.eqb k "__proto__" = false.
Proof.
  unfold plain_key, inherited. destruct (String.eqb k "__proto__"); [discriminate | reflexivity].
Qed.

(** On keys that are not names of members of [Object.prototype], and as
    long as every value is a number, the object is the map of numbers. *)
Lemma increment_numbers (m : gmap string nat) (k : string) :
  plain_key k -> increment (Num <$> m) k = Num <$> tally m k.
Proof.
  intros Hk. unfold increment, tally. rewrite (plain_key_not_proto k Hk).
  rewrite lookup_fmap, fmap_insert. unfold plain_key in Hk. rewrite Hk.
  destruct (m !! k); reflexivity.
Qed.

Lemma fold_increment_numbers (keys : list string) (m : gmap string nat) :
  Forall plain_key keys ->
  fold_left increment keys (Num <$> m) = Num <$> fold_left tally keys m.
Proof.
  revert m. induction keys as [|c keys IH]; intros m Hkeys; [reflexivity |].
  apply Forall_cons in Hkeys as [Hc Hkeys]. cbn [fold_left].
  rewrite increment_numbers by exact Hc. apply IH, Hkeys.
Qed.

Lemma sum_counts_numbers (m : gmap string nat) : sum_counts (Num <$> m) = sum_values m.
Proof.
  unfold sum_counts. f_equal. apply map_eq. intros i.
  rewrite !lookup_fmap. destruct (m !! i); reflexivity.
Qed.

Lemma bucket_positive (n : nat) : Num <$> positive n = bucket n.
Proof. unfold positive, bucket. destruct n; reflexivity. Qed.

(** Counting plain keys from the empty object: every key of the list is
    counted once, in the bucket of its name. *)
Lemma fold_increment_plain (keys : list string) :
  Forall plain_key keys ->
  sum_counts (fold_left increment keys ∅) = length keys /\
  forall k, fold_left increment keys ∅ !! k = bucket (occurrences k keys).
Proof.
  intros Hkeys. rewrite <- (fmap_empty Num).
  rewrite (fold_increment_numbers keys ∅ Hkeys). split.
  - rewrite sum_counts_numbers, fold_tally_sum, sum_values_empty. lia.
  - intros k. rewrite lookup_fmap, fold_tally_lookup, lookup_empty.
    apply bucket_positive.
Qed.

Lemma occurrences_map {A : Type} (f : A -> string) (k : string) (l : list A) :
  occurrences k (map f l) = length (List.filter (fun x => String.eqb (f x) k) l).
Proof.
  unfold occurrences. induction l as [|x l IH]; simpl; [reflexivity |].
  rewrite (String.eqb_sym k (f x)). destruct (String.eqb (f x) k); simpl; rewrite IH;
    reflexivity.
Qed.

Lemma fold_count_source (ns : list Node.t) (m : gmap string Count) :
  fold_left count_source ns m = fold_left increment (map source_bucket ns) m.
Proof.
  revert m. induction ns as [|n ns IH]; intros m; simpl; [reflexivity | apply IH].
Qed.

(** As long as no stored source is the name of a member of
    [Object.prototype], [sourceDistribution] is what the claim says: its
    values are numbers that add up to [nodeCount], the bucket of a source
    counting the nodes of that source. *)
Lemma getStatistics_source_total_plain (kg : KG) :
  Forall (fun n => plain_key (source_bucket n)) (nodes (storageManager kg)) ->
  exists stats : Statistics.t,
    getStatistics kg = (Ok stats, kg) /\
    Statistics.nodeCount stats = length (nodes (storageManager kg)) /\
    sum_counts (Statistics.sourceDistribution stats) = Statistics.nodeCount stats /\
    forall k : string,
      Statistics.sourceDistribution stats !! k =
      bucket (length (List.filter (fun n => String.eqb (source_bucket n) k)
                        (nodes (storageManager kg)))).
Proof.
  intros Hplain. eexists. split; [reflexivity |]. simpl. split; [reflexivity |].
  unfold sourceDistribution. rewrite fold_count_source.
  assert (Hkeys : Forall plain_key (map source_bucket (nodes (storageManager kg)))).
  { apply Forall_fmap. exact Hplain. }
  destruct (fold_increment_plain _ Hkeys) as [Hsum Hlookup]. split.
  - rewrite Hsum. apply length_map.
  - intros k. rewrite Hlookup, occurrences_map. reflexivity.
Qed.

(** C9 fails on the code. [sourceCounts] is a plain object, and a source
    may be the name of a member of [Object.prototype]. After
    [addNode({source: '__proto__'})] on the empty store, [getStatistics]
    returns [nodeCount] 1 and an empty [sourceDistribution]: the read
    [sourceCounts['__proto__']] gives the prototype, [+ 1] makes a string
    of it, and the assignment of a string to [__proto__] is ignored; the
    values add up to 0. After [addNode({source: 'constructor'})], the
    bucket holds the text of the function [Object] followed by [1], not
    a number. *)
Theorem getStatistics_source_prototype_keys :
  let lost := run_call (CallAddNode 1 no_uuid (data_with_source "__proto__")) empty_graph in
  let text := run_call (CallAddNode 1 no_uuid (data_with_source "constructor")) empty_graph in
  reachable lost /\
  map Node.source (nodes (storageManager lost)) = ["__proto__"] /\
  (exists stats : Statistics.t,
     getStatistics lost = (Ok stats, lost) /\
     Statistics.nodeCount stats = 1 /\
     Statistics.sourceDistribution stats = ∅ /\
     sum_counts (Statistics.sourceDistribution stats) = 0) /\
  reachable text /\
  map Node.source (nodes (storageManager text)) = ["constructor"] /\
  (exists stats : Statistics.t,
     getStatistics text = (Ok stats, text) /\
     Statistics.nodeCount stats = 1 /\
     Statistics.sourceDistribution stats =
       {[ "constructor" := Str "function Object() { [native code] }1" ]}).
Proof.
  intros lost text.
  split; [apply reachable_call, reachable_empty |]. split; [reflexivity |].
  split; [eexists; split; [reflexivity |]; repeat split |].
  split; [apply reachable_call, reachable_empty |]. split; [reflexivity |].
  eexists. split; [reflexivity |]. split; reflexivity.
Qed.

(** ** Search: sorting, pagination and the searched fields *)

Lemma insert_sorted_perm {A : Type} (gt : A -> A -> bool) (x : A) (l : list A) :
  insert_sorted gt x l ≡ₚ x :: l.
Proof.
  induction l as [|y r IH]; simpl.
  - reflexivity.
  - destruct (gt y x).
    + reflexivity.
    + rewrite IH. apply Permutation_swap.
Qed.

Lemma fold_insert_sorted_perm {A : Type} (gt : A -> A -> bool) (l acc : list A) :
  fold_left (fun sorted x => insert_sorted gt x sorted) l acc ≡ₚ acc ++ l.
Proof.
  revert acc. induction l as [|x l IH]; intros acc; simpl.
  - rewrite app_nil_r. reflexivity.
  - rewrite IH, insert_sorted_perm.
    change (x :: acc ++ l) with ((x :: acc) ++ l).
    rewrite (Permutation_middle acc l x). reflexivity.
Qed.

(** Sorting only reorders. *)
Lemma js_sort_perm {A : Type} (gt : A -> A -> bool) (l : list A) :
  js_sort gt l ≡ₚ l.
Proof. unfold js_sort. rewrite fold_insert_sorted_perm. reflexivity. Qed.

Lemma js_sort_length {A : Type} (gt : A -> A -> bool) (l : list A) :
  length (js_sort gt l) = length l.
Proof. apply Permutation_length, js_sort_perm. Qed.

Lemma slice_length {A : Type} (from to : nat) (l : list A) :
  length (Js.slice from to l) = Nat.min (to - from) (length l - from).
Proof. unfold Js.slice. rewrite length_take, length_drop. reflexivity. Qed.

(** The sorted results are a reordering of the matches. *)
Lemma search_sorted_perm (ns : list Node.t) (query : string) (options : SearchOptions.t) :
  search_sorted ns query options ≡ₚ
  search_matches ns query (search_option (SearchOptions.searchIn options) default_searchIn).
Proof.
  unfold search_sorted.
  destruct (negb (String.eqb _ "relevance")); destruct (blank_query query);
    rewrite ?js_sort_perm; reflexivity.
Qed.

(** C6, as stated, fails: the default fields are not the five of the
    claim, and under default options the query [rust] does not match a
    node whose url contains it (it does once [searchIn] lists [url]). *)
Lemma search_default_url_counterexample :
  search_option (SearchOptions.searchIn SearchOptions.empty) default_searchIn <>
    ["title"; "content"; "categories"; "tags"; "url"] /\
  Js.includes (Js.toLowerCase "http://rust.example") "rust" = true /\
  search_nodes [url_only_node] "rust" SearchOptions.empty =
    SearchResult.mk 0 0 20 [] /\
  map ResultItem.fields
    (SearchResult.results
       (search_nodes [url_only_node] "rust"
          (SearchOptions.mk None None None None (Some searchIn_with_url)))) =
    [Some url_only_node].
Proof.
  split; [discriminate |]. split; [reflexivity |]. split; reflexivity.
Qed.

(** ** Search with a blank query *)

Lemma Forall_js_sort {A : Type} (P : A -> Prop) (gt : A -> A -> bool) (l : list A) :
  Forall P l -> Forall P (js_sort gt l).
Proof. intros H. rewrite js_sort_perm. exact H. Qed.

Lemma Forall_slice {A : Type} (P : A -> Prop) (from to : nat) (l : list A) :
  Forall P l -> Forall P (Js.slice from to l).
Proof. intros H. unfold Js.slice. apply Forall_take, Forall_drop, H. Qed.

(** For a blank query the elements of [results] are the stored nodes
    themselves, which have no property [node]: the formatting step
    [{...result.node, score: result.score, ...}] then copies nothing, and
    every returned element is [{score: undefined, matchDetails: undefined}],
    whatever the options. *)
Lemma search_blank_items_empty (ns : list Node.t) (query : string)
    (options : SearchOptions.t) :
  blank_query query = true ->
  Forall (fun item => item = ResultItem.mk None None None)
         (SearchResult.results (search_nodes ns query options)).
Proof.
  intros Hblank. unfold search_nodes. simpl.
  apply Forall_fmap, Forall_slice.
  eapply Forall_impl with (P := fun h => hit_node h = None /\ hit_score h = None
                                        /\ hit_matchDetails h = None).
  - unfold search_sorted, search_matches. rewrite Hblank.
    destruct (negb _); repeat apply Forall_js_sort;
      apply Forall_fmap, Forall_forall; intros n _; simpl; auto.
  - intros h (H1 & H2 & H3). unfold format_result. simpl. congruence.
Qed.

(** C2 at a concrete input. [search('', {})] on a store with the nodes
    [a] and [b] counts both ([total = 2]) and orders them by time stamp
    before formatting, but neither returned element carries a field of a
    stored node: both are [{score: undefined, matchDetails: undefined}]. *)
Theorem search_blank_drops_node_fields :
  search_sorted (nodes (storageManager two_nodes)) "" SearchOptions.empty =
    [RawNode node_beta; RawNode node_alpha] /\
  search "" SearchOptions.empty two_nodes =
    (Ok (SearchResult.mk 2 0 20
           [ResultItem.mk None None None; ResultItem.mk None None None]),
     two_nodes).
Proof. split; reflexivity. Qed.

(** ** Life cycle: what the storage manager does to the collections *)

Lemma eqb_empty_false (s : string) : s <> "" -> String.eqb s "" = false.
Proof. intros H. apply String.eqb_neq. exact H. Qed.

Lemma findIndex_Some {A : Type} (p : A -> bool) (l : list A) (i : nat) :
  findIndex p l = Some i -> exists x, l !! i = Some x /\ p x = true.
Proof.
  revert i. induction l as [|y r IH]; intros i; simpl.
  - discriminate.
  - destruct (p y) eqn:Hp.
    + intros [= <-]. exists y. split; [reflexivity | exact Hp].
    + destruct (findIndex p r) as [j|]; simpl; [| discriminate].
      intros [= <-]. destruct (IH j eq_refl) as (x & Hx & Hpx).
      exists x. split; [exact Hx | exact Hpx].
Qed.

Lemma elem_of_insert_inv {A : Type} (l : list A) (i : nat) (y x : A) :
  x ∈ <[i := y]> l -> x = y \/ x ∈ l.
Proof.
  revert i. induction l as [|z r IH]; intros i; simpl.
  - intros H. right. exact H.
  - destruct i as [|i]; simpl; rewrite !elem_of_cons.
    + intros [-> | H]; auto.
    + intros [-> | H]; auto. destruct (IH i H); auto.
Qed.

Lemma elem_of_insert_new {A : Type} (l : list A) (i : nat) (y old : A) :
  l !! i = Some old -> y ∈ <[i := y]> l.
Proof.
  revert i. induction l as [|z r IH]; intros i; simpl.
  - destruct i; discriminate.
  - destruct i as [|i]; simpl; intros H.
    + apply elem_of_cons. left. reflexivity.
    + apply elem_of_cons. right. apply IH, H.
Qed.

Lemma elem_of_insert_old {A : Type} (l : list A) (i : nat) (y old x : A) :
  l !! i = Some old -> x ∈ l -> x = old \/ x ∈ <[i := y]> l.
Proof.
  revert i. induction l as [|z r IH]; intros i; simpl.
  - destruct i; discriminate.
  - destruct i as [|i]; simpl; rewrite !elem_of_cons.
    + intros [= ->] [-> | H]; auto.
    + intros Hi [-> | H]; auto. destruct (IH i Hi H); auto.
Qed.

Lemma filter_same_length {A : Type} (P : A -> Prop) `{forall x, Decision (P x)}
    (l : list A) :
  length (filter P l) = length l -> filter P l = l.
Proof.
  induction l as [|x r IH]; [reflexivity |].
  rewrite filter_cons. destruct (decide (P x)); simpl.
  - intros [= Hlen]. f_equal. apply IH, Hlen.
  - intros Hlen. pose proof (length_filter P r). lia.
Qed.

Lemma filter_all {A : Type} (P : A -> Prop) `{forall x, Decision (P x)} (l : list A) :
  (forall x, x ∈ l -> P x) -> filter P l = l.
Proof.
  induction l as [|x r IH]; intros Hall; [reflexivity |].
  rewrite filter_cons, decide_True by (apply Hall, elem_of_cons; auto).
  f_equal. apply IH. intros y Hy. apply Hall, elem_of_cons. auto.
Qed.

Lemma same_fields_spread (old node : Node.t) (now : Z) :
  same_fields (spread_saved_node old node now) node.
Proof. repeat split. Qed.

Lemma same_fields_stamp (node : Node.t) (now : Z) :
  same_fields (stamp_new_node node now) node.
Proof. repeat split. Qed.

Lemma node_has_id_eq (k : string) (n : Node.t) : node_has_id k n = true <-> Node.id n = k.
Proof. unfold node_has_id. apply String.eqb_eq. Qed.

(** [saveKnowledgeNode] of a node with an id: it returns, touches only the
    node collection, keeps every id that was stored, and stores the node
    (up to the stamps) either in place of the node of the same id or at
    the end. *)
Lemma saveKnowledgeNode_run (now : Z) (node : Node.t) (kg : KG) :
  Node.id node <> "" ->
  exists ns',
    saveKnowledgeNode now node kg =
      (Ok true, mkKG (mkStore ns' (edges (storageManager kg))) (nodeMemo kg)) /\
    (exists stored, stored ∈ ns' /\ same_fields stored node) /\
    (forall n, n ∈ ns' ->
       n ∈ nodes (storageManager kg) \/ same_fields n node) /\
    (forall k, has_id (nodes (storageManager kg)) k -> has_id ns' k) /\
    (length (nodes (storageManager kg)) <= length ns') /\
    (~ has_id (nodes (storageManager kg)) (Node.id node) ->
       ns' = nodes (storageManager kg) ++ [stamp_new_node node now]).
Proof.
  intros Hid. unfold saveKnowledgeNode. rewrite (eqb_empty_false _ Hid).
  unfold bind, getKnowledgeNodes, set_nodes, ret. simpl.
  set (ns := nodes (storageManager kg)).
  destruct (findIndex (node_has_id (Node.id node)) ns) as [i|] eqn:Hfind.
  - destruct (findIndex_Some _ _ _ Hfind) as (old & Hold & Hp).
    apply node_has_id_eq in Hp. rewrite Hold.
    exists (<[i := spread_saved_node old node now]> ns).
    split; [reflexivity |]. split; [| split; [| split; [| split]]].
    + exists (spread_saved_node old node now). split.
      * eapply elem_of_insert_new, Hold.
      * apply same_fields_spread.
    + intros n Hn. apply elem_of_insert_inv in Hn as [-> | Hn].
      * right. apply same_fields_spread.
      * left. exact Hn.
    + intros k (n & Hn & Hk).
      destruct (elem_of_insert_old ns i (spread_saved_node old node now) old n Hold Hn)
        as [-> | Hin].
      * exists (spread_saved_node old node now). split.
        -- eapply elem_of_insert_new, Hold.
        -- simpl. congruence.
      * exists n. split; [exact Hin | exact Hk].
    + rewrite length_insert. lia.
    + intros Hnot. exfalso. apply Hnot. exists old. split; [| exact Hp].
      eapply list_elem_of_lookup_2, Hold.
  - exists (ns ++ [stamp_new_node node now]).
    split; [reflexivity |]. split; [| split; [| split; [| split]]].
    + exists (stamp_new_node node now). split.
      * apply elem_of_app. right. apply list_elem_of_singleton. reflexivity.
      * apply same_fields_stamp.
    + intros n Hn. apply elem_of_app in Hn as [Hn | Hn].
      * left. exact Hn.
      * apply list_elem_of_singleton in Hn as ->. right. apply same_fields_stamp.
    + intros k (n & Hn & Hk). exists n. split; [| exact Hk].
      apply elem_of_app. left. exact Hn.
    + rewrite length_app. lia.
    + reflexivity.
Qed.

Lemma deleteEdgesForNode_run (x : string) (kg : KG) :
  exists b,
    deleteEdgesForNode x kg =
      (Ok b, mkKG (mkStore (nodes (storageManager kg))
                     (without_edges_of x (edges (storageManager kg))))
               (nodeMemo kg)).
Proof.
  unfold deleteEdgesForNode, bind, getKnowledgeEdges, set_edges, ret. simpl.
  fold (without_edges_of x (edges (storageManager kg))).
  destruct (Nat.eqb_spec (length (without_edges_of x (edges (storageManager kg))))
              (length (edges (storageManager kg)))) as [Hlen | Hlen].
  - exists false. unfold without_edges_of in *.
    rewrite (filter_same_length _ _ Hlen). destruct kg as [[ns es] memo]. reflexivity.
  - exists true. reflexivity.
Qed.

Lemma deleteNode_run (x : string) (kg : KG) :
  x <> "" ->
  let ns := nodes (storageManager kg) in
  let es := edges (storageManager kg) in
  (length (without_node x ns) = length ns ->
     deleteNode x kg = (Ok false, mkKG (storageManager kg) (delete x (nodeMemo kg)))) /\
  (length (without_node x ns) <> length ns ->
     deleteNode x kg =
       (Ok true, mkKG (mkStore (without_node x ns) (without_edges_of x es))
                   (delete x (nodeMemo kg)))).
Proof.
  intros Hx ns es. unfold deleteNode. rewrite (eqb_empty_false _ Hx).
  split; intros Hlen;
    unfold bind at 1; unfold deleteKnowledgeNode;
    unfold bind at 1; unfold getKnowledgeNodes at 1; cbv beta iota;
    fold ns; fold (without_node x ns).
  - apply Nat.eqb_eq in Hlen. rewrite Hlen. reflexivity.
  - apply Nat.eqb_neq in Hlen. rewrite Hlen.
    unfold bind at 1. unfold set_nodes at 1. cbv beta iota.
    unfold bind at 1.
    destruct (deleteEdgesForNode_run x
                (mkKG (mkStore (without_node x ns) (edges (storageManager kg)))
                   (nodeMemo kg))) as (b & ->).
    reflexivity.
Qed.

Lemma not_has_id_length (x : string) (ns : list Node.t) :
  ~ has_id ns x <-> length (without_node x ns) = length ns.
Proof.
  unfold without_node. split.
  - intros Hnot. rewrite filter_all; [reflexivity |].
    intros n Hn Heq. apply Hnot. exists n. split; [exact Hn | exact Heq].
  - intros Hlen (n & Hn & Hk). apply filter_same_length in Hlen.
    rewrite <- Hlen in Hn. apply list_elem_of_filter in Hn as [Hne _].
    contradiction.
Qed.

(** C8. For an id [x] (a string that is not empty: the empty string is the
    missing id, which [deleteNode] rejects) that no stored node has,
    [deleteNode(x)] returns [false], raises nothing, and leaves the node
    collection and the edge collection as they were. *)
Theorem deleteNode_absent (kg : KG) (x : string) :
  x <> "" ->
  ~ has_id (nodes (storageManager kg)) x ->
  exists kg',
    deleteNode x kg = (Ok false, kg') /\
    nodes (storageManager kg') = nodes (storageManager kg) /\
    edges (storageManager kg') = edges (storageManager kg).
Proof.
  intros Hx Habsent. apply not_has_id_length in Habsent.
  destruct (deleteNode_run x kg Hx) as [Hfalse _].
  rewrite (Hfalse Habsent). eexists. split; [reflexivity |]. split; reflexivity.
Qed.

(** The guard of [deleteNode]: the missing id raises, and nothing changes. *)
Lemma deleteNode_missing_id (kg : KG) :
  deleteNode "" kg = (Throw "Node ID is required", kg).
Proof. reflexivity. Qed.

(** Deleting twice: the second call finds nothing to delete. *)
Lemma deleteNode_twice (kg : KG) (x : string) :
  x <> "" ->
  exists kg',
    deleteNode x (snd (deleteNode x kg)) = (Ok false, kg') /\
    storageManager kg' = storageManager (snd (deleteNode x kg)).
Proof.
  intros Hx.
  assert (Hgone : ~ has_id (nodes (storageManager (snd (deleteNode x kg)))) x).
  { destruct (deleteNode_run x kg Hx) as [Hfalse Htrue].
    destruct (Nat.eq_dec (length (without_node x (nodes (storageManager kg))))
                (length (nodes (storageManager kg)))) as [Hlen | Hlen].
    - rewrite (Hfalse Hlen). simpl. apply not_has_id_length, Hlen.
    - rewrite (Htrue Hlen). simpl. intros (n & Hn & Hk).
      apply list_elem_of_filter in Hn as [Hne _]. contradiction. }
  apply not_has_id_length in Hgone.
  destruct (deleteNode_run x (snd (deleteNode x kg)) Hx) as [Hfalse _].
  rewrite (Hfalse Hgone). eexists. split; reflexivity.
Qed.

(** The id [ghost] on the store of two nodes. *)
Lemma deleteNode_absent_witness :
  exists kg',
    deleteNode "ghost" two_nodes = (Ok false, kg') /\
    nodes (storageManager kg') = nodes (storageManager two_nodes) /\
    edges (storageManager kg') = edges (storageManager two_nodes).
Proof.
  apply (deleteNode_absent two_nodes "ghost").
  - discriminate.
  - intros (n & Hn & Hk). simpl in Hn.
    apply elem_of_cons in Hn as [-> | Hn]; [discriminate Hk |].
    apply elem_of_cons in Hn as [-> | Hn]; [discriminate Hk |].
    apply elem_of_nil in Hn. exact Hn.
Defined.

(** ** Life cycle: the invariant of the graph *)

Lemma Inv_empty : Inv empty_graph.
Proof.
  split; simpl.
  - intros n Hn. apply elem_of_nil in Hn. contradiction.
  - intros k n Hk. rewrite lookup_empty in Hk. discriminate.
  - intros e He. apply elem_of_nil in He. contradiction.
Qed.

Lemma preserves_ret {A : Type} (a : A) : preserves (ret a).
Proof. intros kg H. exact H. Qed.

Lemma preserves_throw {A : Type} (msg : string) : preserves (@throw A msg).
Proof. intros kg H. exact H. Qed.

Lemma preserves_bind {A B : Type} (m : M A) (k : A -> M B) :
  preserves m -> (forall a, preserves (k a)) -> preserves (bind m k).
Proof.
  intros Hm Hk kg H. unfold bind. specialize (Hm kg H).
  destruct (m kg) as [[a | e] kg1]; simpl in *.
  - apply Hk, Hm.
  - exact Hm.
Qed.

Lemma preserves_try_catch {A : Type} (m : M A) (h : string -> M A) :
  preserves m -> (forall e, preserves (h e)) -> preserves (try_catch m h).
Proof.
  intros Hm Hh kg H. unfold try_catch. specialize (Hm kg H).
  destruct (m kg) as [[a | e] kg1]; simpl in *.
  - exact Hm.
  - apply Hh, Hm.
Qed.

Lemma find_has_id (k : string) (ns : list Node.t) :
  match List.find (node_has_id k) ns with
  | Some n => n ∈ ns /\ Node.id n = k
  | None => ~ has_id ns k
  end.
Proof.
  destruct (List.find (node_has_id k) ns) as [n|] eqn:Hfind.
  - apply find_some in Hfind as [Hin Hp]. split.
    + apply list_elem_of_In, Hin.
    + apply node_has_id_eq, Hp.
  - intros (n & Hn & Hk). apply list_elem_of_In in Hn.
    pose proof (find_none _ _ Hfind n Hn) as Hp.
    apply node_has_id_eq in Hk. congruence.
Qed.

(** [getNode]: the collections are not touched; the cache may gain the
    node found by the scan. *)
Lemma getNode_run (k : string) (kg : KG) :
  Inv kg -> k <> "" ->
  exists r memo',
    getNode k kg = (Ok r, mkKG (storageManager kg) memo') /\
    Inv (mkKG (storageManager kg) memo') /\
    (has_id (nodes (storageManager kg)) k <-> exists n, r = Some n) /\
    (~ has_id (nodes (storageManager kg)) k -> r = None /\ memo' = nodeMemo kg).
Proof.
  intros HInv Hk. unfold getNode. rewrite (eqb_empty_false _ Hk).
  unfold bind, memo_get, getKnowledgeNodes, memo_set, ret. simpl.
  destruct (nodeMemo kg !! k) as [n|] eqn:Hmemo.
  - assert (Hhas : has_id (nodes (storageManager kg)) k)
      by (eapply (inv_memo _ HInv); exact Hmemo).
    exists (Some n), (nodeMemo kg). destruct kg as [st memo]. simpl in *.
    split; [reflexivity |]. split; [exact HInv |]. split.
    + split; [intros _; exists n; reflexivity | intros _; exact Hhas].
    + intros Hnot. contradiction.
  - pose proof (find_has_id k (nodes (storageManager kg))) as Hfind.
    destruct (List.find (node_has_id k) (nodes (storageManager kg))) as [n|].
    + destruct Hfind as [Hin Hid].
      assert (Hhas : has_id (nodes (storageManager kg)) k)
        by (exists n; split; [exact Hin | exact Hid]).
      exists (Some n), (<[k := n]> (nodeMemo kg)).
      split; [reflexivity |]. split; [| split].
      * destruct HInv as [H1 H2 H3]. split; simpl; [exact H1 | | exact H3].
        intros k' n' Hlook. destruct (decide (k = k')) as [<- | Hne].
        -- exact Hhas.
        -- rewrite lookup_insert_ne in Hlook by exact Hne. eapply H2, Hlook.
      * split; [intros _; exists n; reflexivity | intros _; exact Hhas].
      * intros Hnot. contradiction.
    + exists None, (nodeMemo kg). destruct kg as [st memo]. simpl in *.
      split; [reflexivity |]. split; [exact HInv |]. split.
      * split; [intros Hhas; contradiction | intros [n Hn]; discriminate].
      * intros _. split; reflexivity.
Qed.

Lemma preserves_getNode (k : string) : preserves (getNode k).
Proof.
  intros kg HInv. destruct (String.eqb_spec k "") as [-> | Hk].
  - exact HInv.
  - destruct (getNode_run k kg HInv Hk) as (r & memo' & -> & HInv' & _). exact HInv'.
Qed.

Lemma Inv_memo_set (k : string) (n : Node.t) (kg : KG) :
  Inv kg -> has_id (nodes (storageManager kg)) k -> Inv (snd (memo_set k n kg)).
Proof.
  intros [H1 H2 H3] Hk. split; simpl; [exact H1 | | exact H3].
  intros k' n' Hlook. destruct (decide (k = k')) as [<- | Hne].
  - exact Hk.
  - rewrite lookup_insert_ne in Hlook by exact Hne. eapply H2, Hlook.
Qed.

Lemma saveKnowledgeNode_Inv (now : Z) (node : Node.t) (kg : KG) :
  Inv kg -> Node.id node <> "" ->
  Inv (snd (saveKnowledgeNode now node kg)) /\
  has_id (nodes (storageManager (snd (saveKnowledgeNode now node kg)))) (Node.id node).
Proof.
  intros [H1 H2 H3] Hid.
  destruct (saveKnowledgeNode_run now node kg Hid)
    as (ns' & -> & (stored & Hin & Hsame) & Hfrom & Hmono & _). simpl.
  split; [split; simpl |].
  - intros n Hn. destruct (Hfrom n Hn) as [Hold | Hnew].
    + apply H1, Hold.
    + destruct Hnew as [-> _]. exact Hid.
  - intros k n Hlook. apply Hmono. eapply H2, Hlook.
  - intros e He. destruct (H3 e He). split; apply Hmono; assumption.
  - exists stored. split; [exact Hin |]. apply Hsame.
Qed.

Lemma preserves_saveKnowledgeNode (now : Z) (node : Node.t) :
  preserves (saveKnowledgeNode now node).
Proof.
  intros kg HInv. destruct (String.eqb_spec (Node.id node) "") as [Heq | Hid].
  - unfold saveKnowledgeNode. rewrite Heq. exact HInv.
  - apply saveKnowledgeNode_Inv; assumption.
Qed.

(** [saveKnowledgeEdge] touches only the edge collection; an edge of the
    new collection was there before or has the ends of the saved edge. *)
Lemma saveKnowledgeEdge_run (now : Z) (edge : Edge.t) (kg : KG) :
  exists r es',
    saveKnowledgeEdge now edge kg =
      (r, mkKG (mkStore (nodes (storageManager kg)) es') (nodeMemo kg)) /\
    forall e, e ∈ es' ->
      e ∈ edges (storageManager kg) \/
      (Edge.source e = Edge.source edge /\ Edge.target e = Edge.target edge).
Proof.
  unfold saveKnowledgeEdge.
  destruct (String.eqb (Edge.id edge) "" || String.eqb (Edge.source edge) ""
            || String.eqb (Edge.target edge) "").
  - exists (Throw "Invalid knowledge edge"), (edges (storageManager kg)).
    destruct kg as [[ns es] memo]. split; [reflexivity | auto].
  - unfold bind, getKnowledgeEdges, set_edges, ret. simpl.
    destruct (findIndex (edge_has_id (Edge.id edge)) (edges (storageManager kg)))
      as [i|] eqn:Hfind.
    + destruct (findIndex_Some _ _ _ Hfind) as (old & Hold & _). rewrite Hold.
      eexists _, _. split; [reflexivity |].
      intros e He. apply elem_of_insert_inv in He as [-> | He]; [right | left].
      * split; reflexivity.
      * exact He.
    + eexists _, _. split; [reflexivity |].
      intros e He. apply elem_of_app in He as [He | He]; [left; exact He | right].
      apply list_elem_of_singleton in He as ->. split; reflexivity.
Qed.

Lemma Inv_set_edges (kg : KG) (es' : list Edge.t) :
  Inv kg ->
  (forall e, e ∈ es' ->
     has_id (nodes (storageManager kg)) (Edge.source e) /\
     has_id (nodes (storageManager kg)) (Edge.target e)) ->
  Inv (mkKG (mkStore (nodes (storageManager kg)) es') (nodeMemo kg)).
Proof. intros [H1 H2 H3] Hes. split; simpl; assumption. Qed.

Lemma saveKnowledgeEdge_Inv (now : Z) (edge : Edge.t) (kg : KG) :
  Inv kg ->
  has_id (nodes (storageManager kg)) (Edge.source edge) ->
  has_id (nodes (storageManager kg)) (Edge.target edge) ->
  Inv (snd (saveKnowledgeEdge now edge kg)) /\
  nodes (storageManager (snd (saveKnowledgeEdge now edge kg))) =
    nodes (storageManager kg).
Proof.
  intros HInv Hs Ht.
  destruct (saveKnowledgeEdge_run now edge kg) as (r & es' & -> & Hfrom). simpl.
  split; [| reflexivity].
  apply Inv_set_edges; [exact HInv |].
  intros e He. destruct (Hfrom e He) as [Hold | [-> ->]].
  - apply (inv_edges _ HInv), Hold.
  - split; assumption.
Qed.

Lemma truthy_or_str (o : option string) :
  Js.truthy o = true -> o = Some (Js.or_str o "") /\ Js.or_str o "" <> "".
Proof.
  destruct o as [s|]; simpl; [| discriminate].
  destruct (String.eqb_spec s "") as [-> | Hne]; simpl; [discriminate |].
  intros _. split; [reflexivity | exact Hne].
Qed.

(** Closes the cases where an operation throws before it writes. *)
Ltac finish_throw HInv :=
  split; [reflexivity |]; split; [exact HInv |]; split; [reflexivity |];
  intros; eexists; reflexivity.

(** [addEdge]: the invariant is kept and the nodes are not touched; when
    the target is not a stored node the call throws. *)
Lemma addEdge_run (now : Z) (uuid : string) (edgeData : EdgeData.t) (kg : KG) :
  Inv kg ->
  exists r kg',
    addEdge now uuid edgeData kg = (r, kg') /\
    Inv kg' /\
    nodes (storageManager kg') = nodes (storageManager kg) /\
    (forall t, EdgeData.target edgeData = Some t ->
       ~ has_id (nodes (storageManager kg)) t -> exists e, r = Throw e).
Proof.
  intros HInv. unfold addEdge.
  destruct (Js.truthy (EdgeData.source edgeData)) eqn:Hsrc; simpl.
  2:{ eexists _, kg. finish_throw HInv. }
  destruct (Js.truthy (EdgeData.target edgeData)) eqn:Htgt; simpl.
  2:{ eexists _, kg. finish_throw HInv. }
  apply truthy_or_str in Hsrc as [_ Hs]. apply truthy_or_str in Htgt as [Htgt Ht].
  set (source := Js.or_str (EdgeData.source edgeData) "") in *.
  set (target := Js.or_str (EdgeData.target edgeData) "") in *.
  unfold bind at 1.
  destruct (getNode_run source kg HInv Hs) as (r1 & memo1 & -> & HInv1 & Hyes1 & Hno1).
  unfold bind at 1.
  destruct (getNode_run target _ HInv1 Ht) as (r2 & memo2 & -> & HInv2 & Hyes2 & Hno2).
  simpl in *.
  assert (Hmiss : forall t, EdgeData.target edgeData = Some t ->
                    ~ has_id (nodes (storageManager kg)) t -> r2 = None).
  { intros t Heq Hnot. rewrite Htgt in Heq. injection Heq as <-. apply Hno2, Hnot. }
  destruct r1 as [n1|].
  - destruct r2 as [n2|].
    + unfold bind at 1.
      assert (Hhas1 : has_id (nodes (storageManager kg)) source)
        by (apply Hyes1; eexists; reflexivity).
      assert (Hhas2 : has_id (nodes (storageManager kg)) target)
        by (apply Hyes2; eexists; reflexivity).
      pose proof (saveKnowledgeEdge_Inv now (new_edge now uuid source target edgeData)
                    _ HInv2 Hhas1 Hhas2) as [HInv3 Hnodes].
      destruct (saveKnowledgeEdge now (new_edge now uuid source target edgeData)
                  {| storageManager := storageManager kg; nodeMemo := memo2 |})
        as [[b | e] kg3]; simpl in *.
      * eexists _, _. split; [reflexivity |]. split; [exact HInv3 |].
        split; [exact Hnodes |]. intros t Heq Hnot.
        specialize (Hmiss t Heq Hnot). discriminate.
      * eexists _, _. split; [reflexivity |]. split; [exact HInv3 |].
        split; [exact Hnodes |]. intros; eexists; reflexivity.
    + eexists _, _. finish_throw HInv2.
  - eexists _, _. finish_throw HInv2.
Qed.

Lemma preserves_addEdge (now : Z) (uuid : string) (edgeData : EdgeData.t) :
  preserves (addEdge now uuid edgeData).
Proof.
  intros kg HInv.
  destruct (addEdge_run now uuid edgeData kg HInv) as (r & kg' & -> & HInv' & _).
  exact HInv'.
Qed.

(** The loop over [autoConnect]: it keeps the invariant and the nodes; it
    throws as soon as a target is not a stored node. *)
Lemma autoConnect_loop_run (now : Z) (rnd : nat -> string) (nodeId : string)
    (targets : list string) (i : nat) (kg : KG) :
  Inv kg ->
  exists r kg',
    autoConnect_loop now rnd i nodeId targets kg = (r, kg') /\
    Inv kg' /\
    nodes (storageManager kg') = nodes (storageManager kg) /\
    (forall t, t ∈ targets ->
       ~ has_id (nodes (storageManager kg)) t -> exists e, r = Throw e).
Proof.
  revert i kg. induction targets as [|targetId rest IH]; intros i kg HInv; simpl.
  - eexists _, kg. split; [reflexivity |]. split; [exact HInv |].
    split; [reflexivity |]. intros t Ht. apply elem_of_nil in Ht. contradiction.
  - unfold bind at 1.
    destruct (addEdge_run now (rnd i) (autoConnect_edge nodeId targetId) kg HInv)
      as (r1 & kg1 & -> & HInv1 & Hnodes1 & Hmiss1).
    destruct r1 as [edgeId | e].
    + destruct (IH (S i) kg1 HInv1) as (r2 & kg2 & -> & HInv2 & Hnodes2 & Hmiss2).
      eexists _, _. split; [reflexivity |]. split; [exact HInv2 |].
      split; [congruence |].
      intros t Ht Hnot. apply elem_of_cons in Ht as [-> | Ht].
      * destruct (Hmiss1 targetId eq_refl Hnot) as [e He]. discriminate.
      * apply (Hmiss2 t Ht). rewrite Hnodes1. exact Hnot.
    + eexists _, _. split; [reflexivity |]. split; [exact HInv1 |].
      split; [exact Hnodes1 |]. intros; eexists; reflexivity.
Qed.

(** [addNode] with an id that is not empty: the node is saved and cached
    first, whatever the automatic connections do afterwards. *)
Lemma addNode_run (now : Z) (rnd : nat -> string) (nodeData : NodeData.t) (kg : KG) :
  Inv kg ->
  new_node_id rnd nodeData <> "" ->
  exists r kg',
    addNode now rnd nodeData kg = (r, kg') /\
    Inv kg' /\
    (exists stored,
       stored ∈ nodes (storageManager kg') /\
       same_fields stored (new_node now rnd nodeData)) /\
    (~ has_id (nodes (storageManager kg)) (new_node_id rnd nodeData) ->
       nodes (storageManager kg') =
         nodes (storageManager kg) ++ [stamp_new_node (new_node now rnd nodeData) now]) /\
    (forall targets t,
       NodeData.autoConnect nodeData = Some targets ->
       t ∈ targets ->
       t <> new_node_id rnd nodeData ->
       ~ has_id (nodes (storageManager kg)) t ->
       exists e, r = Throw e).
Proof.
  intros HInv Hid. unfold addNode.
  set (node := new_node now rnd nodeData).
  set (nodeId := new_node_id rnd nodeData) in *.
  assert (Hnode : Node.id node = nodeId) by reflexivity.
  destruct (saveKnowledgeNode_Inv now node kg HInv Hid) as [HInv1 Hhas1].
  destruct (saveKnowledgeNode_run now node kg Hid)
    as (ns' & Hrun & Hstored & Hfrom & Hmono & _ & Hfresh).
  rewrite Hrun in HInv1, Hhas1. simpl in HInv1, Hhas1.
  unfold bind at 1. rewrite Hrun.
  unfold bind at 1. unfold memo_set at 1. cbv beta iota. simpl storageManager.
  simpl nodeMemo.
  pose proof (Inv_memo_set nodeId node _ HInv1 Hhas1) as HInv2. simpl in HInv2.
  set (kg2 := {| storageManager := {| nodes := ns'; edges := edges (storageManager kg) |};
                 nodeMemo := <[nodeId := node]> (nodeMemo kg) |}) in *.
  assert (Hback : forall t, t <> nodeId -> ~ has_id (nodes (storageManager kg)) t ->
                    ~ has_id (nodes (storageManager kg2)) t).
  { intros t Hne Hnot (n & Hn & Hk). simpl in Hn.
    destruct (Hfrom n Hn) as [Hold | Hnew].
    - apply Hnot. exists n. split; [exact Hold | exact Hk].
    - destruct Hnew as [Hidn _]. congruence. }
  destruct (NodeData.autoConnect nodeData) as [targets|].
  - unfold bind at 1.
    destruct (autoConnect_loop_run now rnd nodeId targets 1 kg2 HInv2)
      as (r & kg3 & -> & HInv3 & Hnodes3 & Hmiss3).
    destruct r as [[] | e].
    + eexists _, _. split; [reflexivity |]. split; [exact HInv3 |].
      rewrite Hnodes3. simpl. split; [exact Hstored |]. split; [exact Hfresh |].
      intros targets' t [= <-] Ht Hne Hnot.
      destruct (Hmiss3 t Ht (Hback t Hne Hnot)) as [e He]. discriminate.
    + eexists _, _. split; [reflexivity |]. split; [exact HInv3 |].
      rewrite Hnodes3. simpl. split; [exact Hstored |]. split; [exact Hfresh |].
      intros; eexists; reflexivity.
  - eexists _, _. split; [reflexivity |]. split; [exact HInv2 |].
    simpl. split; [exact Hstored |]. split; [exact Hfresh |].
    intros targets t Hnone. discriminate.
Qed.

Lemma preserves_addNode (now : Z) (rnd : nat -> string) (nodeData : NodeData.t) :
  preserves (addNode now rnd nodeData).
Proof.
  intros kg HInv.
  destruct (String.eqb_spec (new_node_id rnd nodeData) "") as [Heq | Hid].
  - unfold addNode. unfold bind at 1. unfold saveKnowledgeNode. simpl.
    rewrite Heq. exact HInv.
  - destruct (addNode_run now rnd nodeData kg HInv Hid) as (r & kg' & -> & HInv' & _).
    exact HInv'.
Qed.

Lemma preserves_updateNode (now : Z) (nodeId : string) (updates : Updates.t) :
  preserves (updateNode now nodeId updates).
Proof.
  intros kg HInv. unfold updateNode.
  destruct (String.eqb_spec nodeId "") as [-> | Hid]; [exact HInv |].
  unfold bind at 1.
  destruct (getNode_run nodeId kg HInv Hid) as (r & memo' & -> & HInv1 & _).
  destruct r as [node|]; [| exact HInv1].
  set (updatedNode :=
         if content_or_title_given updates
         then with_preview (spread_updates node updates nodeId now)
                (generatePreview now (node_as_data (spread_updates node updates nodeId now)))
         else spread_updates node updates nodeId now).
  assert (Hidu : Node.id updatedNode = nodeId).
  { unfold updatedNode. destruct (content_or_title_given updates); reflexivity. }
  assert (Hne : Node.id updatedNode <> "") by congruence.
  destruct (saveKnowledgeNode_Inv now updatedNode _ HInv1 Hne) as [HInv2 Hhas2].
  destruct (saveKnowledgeNode_run now updatedNode
              {| storageManager := storageManager kg; nodeMemo := memo' |} Hne)
    as (ns' & Hrun & _).
  rewrite Hrun in HInv2, Hhas2. unfold bind at 1. rewrite Hrun.
  rewrite Hidu in Hhas2.
  apply (Inv_memo_set nodeId updatedNode _ HInv2 Hhas2).
Qed.

Lemma has_id_without_node (x k : string) (ns : list Node.t) :
  k <> x -> has_id ns k -> has_id (without_node x ns) k.
Proof.
  intros Hne (n & Hn & Hk). exists n. split; [| exact Hk].
  apply list_elem_of_filter. split; [congruence | exact Hn].
Qed.

Lemma preserves_deleteNode (nodeId : string) : preserves (deleteNode nodeId).
Proof.
  intros kg [H1 H2 H3].
  destruct (String.eqb_spec nodeId "") as [-> | Hid]; [split; assumption |].
  destruct (deleteNode_run nodeId kg Hid) as [Hfalse Htrue].
  destruct (Nat.eq_dec (length (without_node nodeId (nodes (storageManager kg))))
              (length (nodes (storageManager kg)))) as [Hlen | Hlen].
  - rewrite (Hfalse Hlen). split; simpl; [exact H1 | | exact H3].
    intros k n Hlook. apply lookup_delete_Some in Hlook as [_ Hlook]. eapply H2, Hlook.
  - rewrite (Htrue Hlen). split; simpl.
    + intros n Hn. apply list_elem_of_filter in Hn as [_ Hn]. apply H1, Hn.
    + intros k n Hlook. apply lookup_delete_Some in Hlook as [Hne Hlook].
      apply has_id_without_node; [congruence | eapply H2, Hlook].
    + intros e He. apply list_elem_of_filter in He as [[Hs Ht] He].
      destruct (H3 e He). split; apply has_id_without_node; assumption.
Qed.

Lemma preserves_deleteEdge (edgeId : string) : preserves (deleteEdge edgeId).
Proof.
  intros kg [H1 H2 H3]. unfold deleteEdge.
  destruct (String.eqb edgeId ""); [split; assumption |].
  unfold deleteKnowledgeEdge, bind, getKnowledgeEdges, set_edges, ret. simpl.
  destruct (_ =? _)%nat; simpl; [split; assumption |].
  split; simpl; [exact H1 | exact H2 |].
  intros e He. apply list_elem_of_filter in He as [_ He]. apply H3, He.
Qed.

(** The traversal reads the graph: it changes the state only through the
    cache fills of [getNode]. *)
Section TraversePreserves.
Variable nodeId : string.
Variable limit : nat.
Variable includeSelf : bool.
Variable connectedEdges : list Edge.t.

Lemma preserves_edges_loop (currentDepth : nat) (currentId : string)
    (nodeEdges : list Edge.t) (t : Traversal) :
  preserves (edges_loop limit currentDepth currentId nodeEdges t).
Proof.
  revert t. induction nodeEdges as [|edge rest IH]; intros t; simpl.
  - apply preserves_ret.
  - destruct (decide _); [apply IH |].
    apply preserves_bind; [apply preserves_getNode |].
    intros connectedNode. destruct (_ && _); [apply preserves_ret | apply IH].
Qed.

Lemma preserves_include_self (currentDepth : nat) (currentId : string)
    (t : Traversal) :
  preserves (include_self nodeId includeSelf currentDepth currentId t).
Proof.
  unfold include_self. destruct (_ && _); [| apply preserves_ret].
  apply preserves_bind; [apply preserves_getNode |].
  intros [n|]; apply preserves_ret.
Qed.

Lemma preserves_nodes_loop (currentDepth : nat) (nodesToProcess : list string)
    (t : Traversal) :
  preserves (nodes_loop nodeId limit includeSelf connectedEdges currentDepth
               nodesToProcess t).
Proof.
  revert t. induction nodesToProcess as [|currentId rest IH]; intros t; simpl.
  - apply preserves_ret.
  - apply preserves_bind; [apply preserves_include_self |]. intros t1.
    apply preserves_bind; [apply preserves_edges_loop |].
    intros [t2 | result]; [apply IH | apply preserves_ret].
Qed.

Lemma preserves_depth_loop (levels currentDepth : nat) (nodesToProcess : list string)
    (seen : gset string) (found : list Connected.t) :
  preserves (depth_loop nodeId limit includeSelf connectedEdges levels currentDepth
               nodesToProcess seen found).
Proof.
  revert currentDepth nodesToProcess seen found.
  induction levels as [|levels IH]; intros currentDepth nodesToProcess seen found;
    simpl.
  - apply preserves_ret.
  - destruct nodesToProcess as [|currentId rest]; [apply preserves_ret |].
    apply preserves_bind; [apply preserves_nodes_loop |].
    intros [t | result]; [apply IH | apply preserves_ret].
Qed.
End TraversePreserves.

Lemma preserves_getConnectedNodes (nodeId : string) (options : ConnOptions.t) :
  preserves (getConnectedNodes nodeId options).
Proof.
  unfold getConnectedNodes. apply preserves_try_catch.
  - destruct (String.eqb nodeId ""); [apply preserves_throw |].
    apply preserves_bind; [intros kg H; exact H |].
    intros es. apply preserves_depth_loop.
  - intros e. apply preserves_ret.
Qed.

(** ** Reachable states *)

Lemma run_call_Inv (c : Call) (kg : KG) : Inv kg -> Inv (run_call c kg).
Proof.
  intros HInv. destruct c; simpl.
  - apply preserves_addNode, HInv.
  - apply preserves_getNode, HInv.
  - apply preserves_updateNode, HInv.
  - apply preserves_deleteNode, HInv.
  - apply preserves_addEdge, HInv.
  - apply preserves_deleteEdge, HInv.
  - apply preserves_getConnectedNodes, HInv.
Qed.

Lemma reachable_Inv (kg : KG) : reachable kg -> Inv kg.
Proof.
  induction 1 as [|c kg Hreach IH].
  - apply Inv_empty.
  - apply run_call_Inv, IH.
Qed.

Lemma has_id_not_empty (kg : KG) (k : string) :
  Inv kg -> has_id (nodes (storageManager kg)) k -> k <> "".
Proof. intros HInv (n & Hn & <-). apply (inv_ids _ HInv), Hn. Qed.

(** [getNode] finds every stored id. *)
Lemma getNode_found (kg : KG) (k : string) :
  Inv kg -> has_id (nodes (storageManager kg)) k ->
  exists n kg', getNode k kg = (Ok (Some n), kg').
Proof.
  intros HInv Hhas.
  destruct (getNode_run k kg HInv (has_id_not_empty kg k HInv Hhas))
    as (r & memo' & Hrun & _ & Hyes & _).
  destruct (proj1 Hyes Hhas) as [n ->]. eexists _, _. exact Hrun.
Qed.

Lemma reachable_run_calls (cs : list Call) (kg : KG) :
  reachable kg -> reachable (run_calls cs kg).
Proof.
  revert kg. induction cs as [|c cs IH]; intros kg H; simpl.
  - exact H.
  - apply IH, reachable_call, H.
Qed.

Lemma reachable_chain_graph : reachable chain_graph.
Proof. apply reachable_run_calls, reachable_empty. Qed.

(** C4. In every state that the graph reaches, [getNode] finds both ends
    of every stored edge; and when [deleteNode(n)] returns [true], no
    stored edge has [n] as its source or its target any more. *)
Theorem referential_integrity (kg : KG) :
  reachable kg ->
  (forall e, e ∈ edges (storageManager kg) ->
     (exists n kg', getNode (Edge.source e) kg = (Ok (Some n), kg')) /\
     (exists n kg', getNode (Edge.target e) kg = (Ok (Some n), kg'))) /\
  (forall x kg', deleteNode x kg = (Ok true, kg') ->
     (forall e, e ∈ edges (storageManager kg') ->
        Edge.source e <> x /\ Edge.target e <> x) /\
     forall e, e ∈ edges (storageManager kg') ->
       (exists n kg'', getNode (Edge.source e) kg' = (Ok (Some n), kg'')) /\
       (exists n kg'', getNode (Edge.target e) kg' = (Ok (Some n), kg''))).
Proof.
  intros Hreach.
  assert (Hends : forall s, Inv s -> forall e, e ∈ edges (storageManager s) ->
            (exists n s', getNode (Edge.source e) s = (Ok (Some n), s')) /\
            (exists n s', getNode (Edge.target e) s = (Ok (Some n), s'))).
  { intros s HInv e He. destruct (inv_edges _ HInv e He) as [Hs Ht].
    split; apply getNode_found; assumption. }
  pose proof (reachable_Inv kg Hreach) as HInv.
  split; [apply Hends, HInv |].
  intros x kg' Hdel. split.
  - destruct (String.eqb_spec x "") as [-> | Hx]; [discriminate Hdel |].
    destruct (deleteNode_run x kg Hx) as [Hfalse Htrue].
    destruct (Nat.eq_dec (length (without_node x (nodes (storageManager kg))))
                (length (nodes (storageManager kg)))) as [Hlen | Hlen].
    + rewrite (Hfalse Hlen) in Hdel. discriminate Hdel.
    + rewrite (Htrue Hlen) in Hdel. injection Hdel as <-. simpl.
      intros e He. apply list_elem_of_filter in He as [Hends' _]. exact Hends'.
  - apply Hends. pose proof (preserves_deleteNode x kg HInv) as HInv'.
    rewrite Hdel in HInv'. exact HInv'.
Qed.

Lemma has_id_elem_of (ns : list Node.t) (k : string) :
  has_id ns k <-> k ∈ map Node.id ns.
Proof.
  unfold has_id. rewrite list_elem_of_In, in_map_iff.
  split; intros (n & H1 & H2); exists n.
  - split; [exact H2 | apply list_elem_of_In, H1].
  - split; [apply list_elem_of_In, H2 | exact H1].
Qed.

Lemma chain_graph_ids :
  map Node.id (nodes (storageManager chain_graph)) = ["A"; "B"; "C"].
Proof. vm_compute. reflexivity. Qed.

(** The chain [A -> B -> C] is reachable, and both of its edges resolve. *)
Lemma referential_integrity_witness :
  reachable chain_graph /\
  (forall e, e ∈ edges (storageManager chain_graph) ->
     (exists n kg', getNode (Edge.source e) chain_graph = (Ok (Some n), kg')) /\
     (exists n kg', getNode (Edge.target e) chain_graph = (Ok (Some n), kg'))).
Proof.
  split.
  - apply reachable_chain_graph.
  - apply (referential_integrity chain_graph). apply reachable_chain_graph.
Defined.

(** Deleting the middle node of the chain removes both edges. *)
Example deleteNode_cascade_chain :
  fst (deleteNode "B" chain_graph) = Ok true /\
  map Node.id (nodes (storageManager (snd (deleteNode "B" chain_graph)))) = ["A"; "C"] /\
  map Edge.id (edges (storageManager chain_graph)) = ["A-B-00000000"; "B-C-00000000"] /\
  edges (storageManager (snd (deleteNode "B" chain_graph))) = [].
Proof. repeat split; vm_compute; reflexivity. Qed.

(** ** [addNode] and its automatic connections *)

(** C10. [addNode(data)] on a reachable state, where [data.autoConnect]
    lists an id [t] that is neither stored nor the id of the new node (so
    that [t] does not resolve when the edge is created), and where the id
    of the new node is not empty (as it is when [uuidv4()] provides it):
    the call throws, and the state it leaves has the new node in the node
    collection (one more node when the id was not stored yet). *)
Theorem addNode_not_atomic (kg : KG) (now : Z) (rnd : nat -> string)
    (nodeData : NodeData.t) (targets : list string) (t : string) :
  reachable kg ->
  new_node_id rnd nodeData <> "" ->
  NodeData.autoConnect nodeData = Some targets ->
  t ∈ targets ->
  t <> new_node_id rnd nodeData ->
  ~ has_id (nodes (storageManager kg)) t ->
  exists e kg',
    addNode now rnd nodeData kg = (Throw e, kg') /\
    (exists stored,
       stored ∈ nodes (storageManager kg') /\
       same_fields stored (new_node now rnd nodeData)) /\
    (~ has_id (nodes (storageManager kg)) (new_node_id rnd nodeData) ->
       nodes (storageManager kg') =
         nodes (storageManager kg) ++ [stamp_new_node (new_node now rnd nodeData) now] /\
       length (nodes (storageManager kg')) = S (length (nodes (storageManager kg)))).
Proof.
  intros Hreach Hid Hauto Ht Hne Hmissing.
  destruct (addNode_run now rnd nodeData kg (reachable_Inv kg Hreach) Hid)
    as (r & kg' & Hrun & _ & Hstored & Hfresh & Hthrow).
  destruct (Hthrow targets t Hauto Ht Hne Hmissing) as [e ->].
  exists e, kg'. split; [exact Hrun |]. split; [exact Hstored |].
  intros Hnew. rewrite (Hfresh Hnew). split; [reflexivity |].
  rewrite length_app. simpl. lia.
Qed.

(** Adding [D] to the chain with [autoConnect: [A, ghost, B]]. *)
Lemma addNode_not_atomic_witness :
  exists e kg',
    addNode 9 no_uuid data_with_ghost chain_graph = (Throw e, kg') /\
    (exists stored,
       stored ∈ nodes (storageManager kg') /\
       same_fields stored (new_node 9 no_uuid data_with_ghost)) /\
    (~ has_id (nodes (storageManager chain_graph)) (new_node_id no_uuid data_with_ghost) ->
       nodes (storageManager kg') =
         nodes (storageManager chain_graph)
           ++ [stamp_new_node (new_node 9 no_uuid data_with_ghost) 9] /\
       length (nodes (storageManager kg')) =
         S (length (nodes (storageManager chain_graph)))).
Proof.
  apply (addNode_not_atomic chain_graph 9 no_uuid data_with_ghost
           ["A"; "ghost"; "B"] "ghost").
  - apply reachable_chain_graph.
  - discriminate.
  - reflexivity.
  - apply elem_of_cons. right. apply elem_of_cons. left. reflexivity.
  - discriminate.
  - rewrite has_id_elem_of, chain_graph_ids. intros H.
    repeat (apply elem_of_cons in H as [H | H]; [discriminate H |]).
    apply elem_of_nil in H. exact H.
Defined.

(** The same call, evaluated: it throws at the second target, after the
    node [D] and the edge to [A] have been stored. *)
Example addNode_ghost_evaluated :
  fst (addNode 9 no_uuid data_with_ghost chain_graph) =
    Throw "Target node not found: ghost" /\
  map Node.id (nodes (storageManager (snd (addNode 9 no_uuid data_with_ghost chain_graph))))
    = ["A"; "B"; "C"; "D"] /\
  map Edge.id (edges (storageManager (snd (addNode 9 no_uuid data_with_ghost chain_graph))))
    = ["A-B-00000000"; "B-C-00000000"; "D-A-00000000"].
Proof. repeat split; vm_compute; reflexivity. Qed.

(** ** [updateNode] and the preview *)

(** When [updates] carries a content or a title that is not empty, the
    node that [updateNode] saves and returns has a fresh preview. *)
Lemma updateNode_preview_recomputed (kg kg' : KG) (now : Z) (nodeId : string)
    (updates : Updates.t) (updated : Node.t) :
  Inv kg ->
  updateNode now nodeId updates kg = (Ok updated, kg') ->
  content_or_title_given updates = true ->
  preview_consistent updated /\
  exists stored, stored ∈ nodes (storageManager kg') /\ same_fields stored updated.
Proof.
  intros HInv Hrun Hgiven. unfold updateNode in Hrun.
  destruct (String.eqb_spec nodeId "") as [-> | Hid]; [discriminate Hrun |].
  unfold bind at 1 in Hrun.
  destruct (getNode_run nodeId kg HInv Hid) as (r & memo' & Hget & HInv1 & _).
  rewrite Hget in Hrun. destruct r as [node|]; [| discriminate Hrun].
  rewrite Hgiven in Hrun.
  set (merged := spread_updates node updates nodeId now) in *.
  set (updatedNode := with_preview merged (generatePreview now (node_as_data merged))) in *.
  assert (Hne : Node.id updatedNode <> "") by exact Hid.
  destruct (saveKnowledgeNode_run now updatedNode
              {| storageManager := storageManager kg; nodeMemo := memo' |} Hne)
    as (ns' & Hsave & Hstored & _).
  unfold bind at 1 in Hrun. rewrite Hsave in Hrun.
  injection Hrun as <- <-. split.
  - repeat split.
  - exact Hstored.
Qed.

(** C5 at a concrete input. [updateNode('n1', {title: ''})] succeeds and
    changes the title from [Alpha] to the empty string, but the test
    [updates.content || updates.title] is false for the empty title: the
    preview is not recomputed and the stored preview keeps the title
    [Alpha], where [generatePreview] gives [Untitled]. With the title
    [Beta] the preview follows. *)
Theorem updateNode_empty_title_stale_preview :
  map (title_view 20) (nodes (storageManager one_node)) =
    [("n1", "Alpha", "Alpha", "Alpha")] /\
  (exists updated, fst (updateNode 20 "n1" (retitle "") one_node) = Ok updated) /\
  map (title_view 20)
    (nodes (storageManager (snd (updateNode 20 "n1" (retitle "") one_node)))) =
    [("n1", "", "Alpha", "Untitled")] /\
  map (title_view 20)
    (nodes (storageManager (snd (updateNode 20 "n1" (retitle "Beta") one_node)))) =
    [("n1", "Beta", "Beta", "Beta")].
Proof.
  split; [vm_compute; reflexivity |]. split; [eexists; vm_compute; reflexivity |].
  split; vm_compute; reflexivity.
Qed.

(** The stored node of that state is not consistent. *)
Lemma updateNode_empty_title_not_consistent :
  exists stored,
    nodes (storageManager (snd (updateNode 20 "n1" (retitle "") one_node))) = [stored] /\
    ~ preview_consistent stored.
Proof.
  eexists. split; [vm_compute; reflexivity |].
  intros [Htitle _]. vm_compute in Htitle. discriminate Htitle.
Qed.

(** ** Traversal *)

(** C1 at a concrete input. In the chain [A -> B -> C], [C] is two hops
    from [A]; [getConnectedNodes(A, {depth: 2})] returns [B] alone, as it
    does with [depth: 1]: [connectedEdges] holds only the edges of the
    seed, so the edge [B -> C] is never scanned. *)
Theorem getConnectedNodes_depth2_misses_second_hop :
  map (fun e => (Edge.source e, Edge.target e)) (edges (storageManager chain_graph)) =
    [("A", "B"); ("B", "C")] /\
  connected_ids "A" (ConnOptions.mk (Some 2) None None None None) chain_graph =
    Ok [("B", 1)] /\
  connected_ids "A" (ConnOptions.mk (Some 1) None None None None) chain_graph =
    Ok [("B", 1)] /\
  connected_ids "B" (ConnOptions.mk (Some 1) None None None None) chain_graph =
    Ok [("A", 1); ("C", 1)].
Proof. repeat split; vm_compute; reflexivity. Qed.

(** C3 at a concrete input. With [limit: 1] and [includeSelf: true] the
    seed is pushed without a test of the limit, and the test that follows
    the first neighbour comes after the push: two elements are returned. *)
Theorem getConnectedNodes_limit_exceeded_with_self :
  connected_ids "A" (ConnOptions.mk None (Some 1) None None (Some true)) chain_graph =
    Ok [("A", 0); ("B", 1)] /\
  connected_ids "A" (ConnOptions.mk None (Some 1) None None None) chain_graph =
    Ok [("B", 1)].
Proof. repeat split; vm_compute; reflexivity. Qed.

(** *** The cap, without [includeSelf]

    When the seed is not injected, every push is followed by the test of
    the limit, and the cap holds. *)

Lemma edges_loop_bounded (limit currentDepth : nat) (currentId : string)
    (nodeEdges : list Edge.t) (t : Traversal) (kg : KG) :
  length (connectedNodes t) < limit ->
  flow_bounded limit (fst (edges_loop limit currentDepth currentId nodeEdges t kg)).
Proof.
  revert t kg. induction nodeEdges as [|edge rest IH]; intros t kg Hlen; simpl.
  - exact Hlen.
  - destruct (decide _); [apply IH, Hlen |].
    unfold bind. destruct (getNode _ kg) as [[connectedNode | e] kg1]; [| exact I].
    match goal with
    | |- context [connectedNodes ?t'] => set (t1 := t')
    end.
    assert (Hnext : length (connectedNodes t1) <= S (length (connectedNodes t))).
    { unfold t1. destruct connectedNode; simpl; [rewrite length_app; simpl |]; lia. }
    destruct (Nat.leb_spec limit (length (connectedNodes t1))) as [Hfull | Hroom].
    + replace (0 <? limit)%nat with true by (symmetry; apply Nat.ltb_lt; lia).
      simpl. lia.
    + rewrite andb_false_r. apply IH, Hroom.
Qed.

Lemma nodes_loop_bounded (nodeId : string) (limit : nat) (connectedEdges : list Edge.t)
    (currentDepth : nat) (nodesToProcess : list string) (t : Traversal) (kg : KG) :
  length (connectedNodes t) < limit ->
  flow_bounded limit
    (fst (nodes_loop nodeId limit false connectedEdges currentDepth nodesToProcess t kg)).
Proof.
  revert t kg. induction nodesToProcess as [|currentId rest IH]; intros t kg Hlen; simpl.
  - exact Hlen.
  - unfold bind at 1. unfold include_self. simpl. unfold bind at 1.
    pose proof (edges_loop_bounded limit currentDepth currentId
                  (List.filter (touches currentId) connectedEdges) t kg Hlen) as Hedges.
    destruct (edges_loop limit currentDepth currentId _ t kg) as [[[t2 | result] | e] kg1];
      simpl in *.
    + apply IH, Hedges.
    + exact Hedges.
    + exact I.
Qed.

Lemma depth_loop_step (nodeId : string) (limit : nat) (includeSelf : bool)
    (connectedEdges : list Edge.t) (levels currentDepth : nat) (currentId : string)
    (rest : list string) (seen : gset string) (found : list Connected.t) :
  depth_loop nodeId limit includeSelf connectedEdges (S levels) currentDepth
    (currentId :: rest) seen found =
  (flow <- nodes_loop nodeId limit includeSelf connectedEdges currentDepth
             (currentId :: rest) (mkTraversal seen found []) ;;
   match flow with
   | Return result => ret result
   | Continue t =>
       depth_loop nodeId limit includeSelf connectedEdges levels (S currentDepth)
         (nextNodesToProcess t) (visited t) (connectedNodes t)
   end).
Proof. reflexivity. Qed.

Lemma depth_loop_bounded (nodeId : string) (limit : nat) (connectedEdges : list Edge.t)
    (levels currentDepth : nat) (nodesToProcess : list string) (seen : gset string)
    (found : list Connected.t) (kg : KG) :
  length found < limit ->
  match fst (depth_loop nodeId limit false connectedEdges levels currentDepth
               nodesToProcess seen found kg) with
  | Ok result => length result <= limit
  | Throw _ => True
  end.
Proof.
  revert currentDepth nodesToProcess seen found kg.
  induction levels as [|levels IH];
    intros currentDepth nodesToProcess seen found kg Hlen.
  - simpl. lia.
  - destruct nodesToProcess as [|currentId rest]; [simpl; lia |].
    rewrite depth_loop_step. unfold bind at 1.
    pose proof (nodes_loop_bounded nodeId limit connectedEdges currentDepth
                  (currentId :: rest) (mkTraversal seen found []) kg Hlen) as Hnodes.
    destruct (nodes_loop nodeId limit false connectedEdges currentDepth
                (currentId :: rest) (mkTraversal seen found []) kg)
      as [[[t | result] | e] kg1]; cbn [fst flow_bounded] in Hnodes.
    + apply IH, Hnodes.
    + exact Hnodes.
    + exact I.
Qed.

Lemma or_nat_positive (o : option nat) (d : nat) : 0 < d -> 0 < Js.or_nat o d.
Proof.
  intros Hd. destruct o as [n|]; simpl; [| exact Hd].
  destruct (Nat.eqb_spec n 0); lia.
Qed.

(** Without [includeSelf], [getConnectedNodes] returns at most
    [options.limit || 50] elements. *)
Lemma getConnectedNodes_capped_without_self (nodeId : string) (depth limit : option nat)
    (edgeTypes : option (list string)) (direction : option string)
    (includeSelf : option bool) (kg : KG) :
  Js.or_obj includeSelf false = false ->
  exists found,
    fst (getConnectedNodes nodeId
           (ConnOptions.mk depth limit edgeTypes direction includeSelf) kg) = Ok found /\
    length found <= Js.or_nat limit 50.
Proof.
  intros Hself. unfold getConnectedNodes, try_catch. simpl. rewrite Hself.
  destruct (String.eqb nodeId "").
  - exists []. split; [reflexivity | simpl; lia].
  - unfold bind at 1. unfold getKnowledgeEdges at 1. cbv beta iota.
    match goal with
    | |- context [depth_loop ?a ?b false ?c ?d ?e ?f ?g ?h kg] =>
        pose proof (depth_loop_bounded a b c d e f g h kg) as Hbound;
        destruct (depth_loop a b false c d e f g h kg) as [[found | e0] kg1]
    end.
    + exists found. split; [reflexivity |]. apply Hbound. simpl.
      apply or_nat_positive. lia.
    + exists []. split; [reflexivity | simpl; lia].
Qed.

(** *** The cap, in general: at most one element too many *)

Lemma edges_loop_bounded_weak (limit currentDepth : nat) (currentId : string)
    (nodeEdges : list Edge.t) (t : Traversal) (kg : KG) :
  0 < limit ->
  length (connectedNodes t) <= limit ->
  flow_bounded_weak limit
    (fst (edges_loop limit currentDepth currentId nodeEdges t kg)).
Proof.
  intros Hlimit. revert t kg.
  induction nodeEdges as [|edge rest IH]; intros t kg Hlen; simpl.
  - exact Hlen.
  - destruct (decide _); [apply IH, Hlen |].
    unfold bind. destruct (getNode _ kg) as [[connectedNode | e] kg1]; [| exact I].
    match goal with
    | |- context [connectedNodes ?t'] => set (t1 := t')
    end.
    assert (Hnext : length (connectedNodes t1) <= S (length (connectedNodes t))).
    { unfold t1. destruct connectedNode; simpl; [rewrite length_app; simpl |]; lia. }
    destruct ((0 <? limit)%nat && (limit <=? length (connectedNodes t1))%nat) eqn:Hfull.
    + simpl. lia.
    + apply IH. apply andb_false_iff in Hfull as [Hzero | Hroom].
      * apply Nat.ltb_ge in Hzero. lia.
      * apply Nat.leb_gt in Hroom. lia.
Qed.

Lemma include_self_later (nodeId : string) (includeSelf : bool) (currentDepth : nat)
    (currentId : string) (t : Traversal) :
  1 < currentDepth -> include_self nodeId includeSelf currentDepth currentId t = ret t.
Proof.
  intros Hd. unfold include_self.
  replace (currentDepth =? 1)%nat with false by (symmetry; apply Nat.eqb_neq; lia).
  rewrite andb_false_r. reflexivity.
Qed.

Lemma nodes_loop_bounded_weak (nodeId : string) (limit : nat) (includeSelf : bool)
    (connectedEdges : list Edge.t) (currentDepth : nat) (nodesToProcess : list string)
    (t : Traversal) (kg : KG) :
  0 < limit ->
  1 < currentDepth ->
  length (connectedNodes t) <= limit ->
  flow_bounded_weak limit
    (fst (nodes_loop nodeId limit includeSelf connectedEdges currentDepth
            nodesToProcess t kg)).
Proof.
  intros Hlimit Hd. revert t kg.
  induction nodesToProcess as [|currentId rest IH]; intros t kg Hlen; simpl.
  - exact Hlen.
  - rewrite (include_self_later _ _ _ _ _ Hd). unfold bind at 1. unfold ret at 1.
    unfold bind at 1.
    pose proof (edges_loop_bounded_weak limit currentDepth currentId
                  (List.filter (touches currentId) connectedEdges) t kg Hlimit Hlen)
      as Hedges.
    destruct (edges_loop limit currentDepth currentId _ t kg) as [[[t2 | result] | e] kg1];
      simpl in *.
    + apply IH, Hedges.
    + exact Hedges.
    + exact I.
Qed.

Lemma depth_loop_bounded_weak (nodeId : string) (limit : nat) (includeSelf : bool)
    (connectedEdges : list Edge.t) (levels currentDepth : nat)
    (nodesToProcess : list string) (seen : gset string) (found : list Connected.t)
    (kg : KG) :
  0 < limit ->
  1 < currentDepth ->
  length found <= limit ->
  match fst (depth_loop nodeId limit includeSelf connectedEdges levels currentDepth
               nodesToProcess seen found kg) with
  | Ok result => length result <= S limit
  | Throw _ => True
  end.
Proof.
  intros Hlimit. revert currentDepth nodesToProcess seen found kg.
  induction levels as [|levels IH];
    intros currentDepth nodesToProcess seen found kg Hd Hlen.
  - simpl. lia.
  - destruct nodesToProcess as [|currentId rest]; [simpl; lia |].
    rewrite depth_loop_step. unfold bind at 1.
    pose proof (nodes_loop_bounded_weak nodeId limit includeSelf connectedEdges
                  currentDepth (currentId :: rest) (mkTraversal seen found []) kg
                  Hlimit Hd Hlen) as Hnodes.
    destruct (nodes_loop nodeId limit includeSelf connectedEdges currentDepth
                (currentId :: rest) (mkTraversal seen found []) kg)
      as [[[t | result] | e] kg1]; cbn [fst flow_bounded_weak] in Hnodes.
    + apply IH; [lia | exact Hnodes].
    + exact Hnodes.
    + exact I.
Qed.

(** The first level: the seed alone is on the frontier. *)
Lemma first_level_bounded_weak (nodeId : string) (limit : nat) (includeSelf : bool)
    (connectedEdges : list Edge.t) (seen : gset string) (kg : KG) :
  0 < limit ->
  flow_bounded_weak limit
    (fst (nodes_loop nodeId limit includeSelf connectedEdges 1 [nodeId]
            (mkTraversal seen [] []) kg)).
Proof.
  intros Hlimit. simpl. unfold bind at 1.
  assert (Hself : match include_self nodeId includeSelf 1 nodeId
                          (mkTraversal seen [] []) kg with
                  | (Ok t1, _) => length (connectedNodes t1) <= limit
                  | (Throw _, _) => True
                  end).
  { unfold include_self. destruct (_ && _); [| simpl; lia].
    unfold bind. destruct (getNode nodeId kg) as [[[n|] | e] kg1]; simpl; lia. }
  destruct (include_self nodeId includeSelf 1 nodeId (mkTraversal seen [] []) kg)
    as [[t1 | e] kg1]; [| exact I].
  unfold bind at 1.
  pose proof (edges_loop_bounded_weak limit 1 nodeId
                (List.filter (touches nodeId) connectedEdges) t1 kg1 Hlimit Hself)
    as Hedges.
  destruct (edges_loop limit 1 nodeId _ t1 kg1) as [[[t2 | result] | e] kg2];
    simpl in *; [exact Hedges | exact Hedges | exact I].
Qed.

(** Whatever the options, [getConnectedNodes] returns at most
    [(options.limit || 50) + 1] elements. *)
Lemma getConnectedNodes_capped_plus_one (nodeId : string) (options : ConnOptions.t)
    (kg : KG) :
  exists found,
    fst (getConnectedNodes nodeId options kg) = Ok found /\
    length found <= S (Js.or_nat (ConnOptions.limit options) 50).
Proof.
  unfold getConnectedNodes, try_catch.
  destruct (String.eqb nodeId "").
  - exists []. split; [reflexivity | simpl; lia].
  - unfold bind at 1. unfold getKnowledgeEdges at 1. cbv beta iota.
    set (limit := Js.or_nat (ConnOptions.limit options) 50).
    assert (Hlimit : 0 < limit) by (apply or_nat_positive; lia).
    set (depth := Js.or_nat (ConnOptions.depth options) 1).
    assert (Hdepth : 0 < depth) by (apply or_nat_positive; lia).
    destruct depth as [|levels]; [lia |].
    rewrite depth_loop_step. unfold bind at 1.
    match goal with
    | |- context [nodes_loop ?a ?b ?c ?d 1 [nodeId] (mkTraversal ?s [] []) kg] =>
        pose proof (first_level_bounded_weak a b c d s kg Hlimit) as Hfirst;
        destruct (nodes_loop a b c d 1 [nodeId] (mkTraversal s [] []) kg)
          as [[[t | result] | e] kg1]; cbn [fst flow_bounded_weak] in Hfirst
    end.
    + match goal with
      | |- context [depth_loop ?a ?b ?c ?d ?e 2 ?f ?g ?h kg1] =>
          pose proof (depth_loop_bounded_weak a b c d e 2 f g h kg1
                        Hlimit (Nat.lt_succ_diag_r 1) Hfirst) as Hrest;
          destruct (depth_loop a b c d e 2 f g h kg1) as [[found | e0] kg2]
      end.
      * exists found. split; [reflexivity | exact Hrest].
      * exists []. split; [reflexivity | simpl; lia].
    + exists result. split; [reflexivity | exact Hfirst].
    + exists []. split; [reflexivity | simpl; lia].
Qed.

(** *** Depth: levels after the first find nothing

    [connectedEdges] holds edges of the seed only. On a later level the
    current node is a neighbour of the seed, so the other end of each of
    its edges in [connectedEdges] is the seed, which is visited: without
    [includeSelf] the result does not depend on [options.depth]. *)

Lemma connected_edge_incident (edgeTypes : option (list string)) (direction : string)
    (nodeId : string) (edge : Edge.t) :
  connected_edge edgeTypes direction nodeId edge = true ->
  Edge.source edge = nodeId \/ Edge.target edge = nodeId.
Proof.
  unfold connected_edge. intros H. apply andb_true_iff in H as [_ H].
  destruct (String.eqb direction "out"); [left; apply String.eqb_eq, H |].
  destruct (String.eqb direction "in"); [right; apply String.eqb_eq, H |].
  apply orb_true_iff in H as [H | H]; [left | right]; apply String.eqb_eq, H.
Qed.

Lemma other_end_is_seed (nodeId currentId : string) (edge : Edge.t) :
  currentId <> nodeId ->
  Edge.source edge = nodeId \/ Edge.target edge = nodeId ->
  touches currentId edge = true ->
  other_end currentId edge = nodeId.
Proof.
  intros Hne Hseed Htouch. unfold other_end, touches in *.
  destruct (String.eqb_spec (Edge.source edge) currentId) as [Hs | Hs].
  - destruct Hseed as [Hseed | Hseed]; [congruence | exact Hseed].
  - simpl in Htouch. apply String.eqb_eq in Htouch.
    destruct Hseed as [Hseed | Hseed]; [exact Hseed | congruence].
Qed.

Lemma edges_loop_all_visited (limit currentDepth : nat) (currentId : string)
    (nodeEdges : list Edge.t) (t : Traversal) (kg : KG) :
  (forall e, In e nodeEdges -> other_end currentId e ∈ visited t) ->
  edges_loop limit currentDepth currentId nodeEdges t kg = (Ok (Continue t), kg).
Proof.
  induction nodeEdges as [|edge rest IH]; intros Hall; simpl.
  - reflexivity.
  - fold (other_end currentId edge).
    rewrite decide_True by (apply Hall; left; reflexivity).
    apply IH. intros e He. apply Hall. right. exact He.
Qed.

Section NothingNew.
Variable nodeId : string.
Variable limit : nat.
Variable connectedEdges : list Edge.t.
Hypothesis seed_edges : forall e, In e connectedEdges ->
  Edge.source e = nodeId \/ Edge.target e = nodeId.

Lemma nodes_loop_nothing_new (currentDepth : nat) (nodesToProcess : list string)
    (t : Traversal) (kg : KG) :
  nodeId ∈ visited t ->
  Forall (fun c => c <> nodeId) nodesToProcess ->
  nodes_loop nodeId limit false connectedEdges currentDepth nodesToProcess t kg =
    (Ok (Continue t), kg).
Proof.
  intros Hseen Hfrontier.
  induction Hfrontier as [|currentId rest Hne _ IH]; simpl.
  - reflexivity.
  - unfold bind at 1. unfold include_self. simpl. unfold bind at 1.
    rewrite edges_loop_all_visited; [exact IH |].
    intros e He. apply filter_In in He as [Hin Htouch].
    rewrite (other_end_is_seed nodeId currentId e Hne (seed_edges e Hin) Htouch).
    exact Hseen.
Qed.

Lemma depth_loop_nothing_new (levels currentDepth : nat) (nodesToProcess : list string)
    (seen : gset string) (found : list Connected.t) (kg : KG) :
  nodeId ∈ seen ->
  Forall (fun c => c <> nodeId) nodesToProcess ->
  depth_loop nodeId limit false connectedEdges levels currentDepth nodesToProcess
    seen found kg = (Ok found, kg).
Proof.
  intros Hseen Hfrontier. destruct levels as [|levels]; [reflexivity |].
  destruct nodesToProcess as [|currentId rest]; [reflexivity |].
  rewrite depth_loop_step. unfold bind at 1.
  rewrite nodes_loop_nothing_new by assumption. simpl.
  destruct levels; reflexivity.
Qed.

Lemma edges_loop_frontier (currentDepth : nat) (currentId : string)
    (nodeEdges : list Edge.t) (t : Traversal) (kg : KG) :
  frontier_ok nodeId t ->
  match fst (edges_loop limit currentDepth currentId nodeEdges t kg) with
  | Ok (Continue t') => frontier_ok nodeId t'
  | _ => True
  end.
Proof.
  revert t kg. induction nodeEdges as [|edge rest IH]; intros t kg Hok; simpl.
  - exact Hok.
  - fold (other_end currentId edge).
    destruct (decide (other_end currentId edge ∈ visited t)) as [Hin | Hout];
      [apply IH, Hok |].
    unfold bind. destruct (getNode _ kg) as [[connectedNode | e] kg1]; [| exact I].
    destruct (_ && _); [exact I |].
    apply IH. destruct Hok as [Hseen Hnext].
    destruct connectedNode as [n|]; split; simpl.
    + apply elem_of_union. right. exact Hseen.
    + apply Forall_app. split; [exact Hnext |].
      apply Forall_cons. split; [| apply Forall_nil; exact I].
      intros Heq. apply Hout. rewrite Heq. exact Hseen.
    + apply elem_of_union. right. exact Hseen.
    + exact Hnext.
Qed.

Lemma nodes_loop_single (currentDepth : nat) (currentId : string) (t : Traversal)
    (kg : KG) :
  nodes_loop nodeId limit false connectedEdges currentDepth [currentId] t kg =
  edges_loop limit currentDepth currentId
    (List.filter (touches currentId) connectedEdges) t kg.
Proof.
  simpl. unfold bind at 1. unfold include_self. simpl. unfold bind at 1.
  destruct (edges_loop limit currentDepth currentId _ t kg)
    as [[[t2 | result] | e] kg1]; reflexivity.
Qed.

(** Levels beyond the first do not change what the loop returns. *)
Lemma depth_loop_first_level_only (levels : nat) (kg : KG) :
  depth_loop nodeId limit false connectedEdges (S levels) 1 [nodeId] {[nodeId]} [] kg =
  depth_loop nodeId limit false connectedEdges 1 1 [nodeId] {[nodeId]} [] kg.
Proof.
  rewrite !depth_loop_step. unfold bind. rewrite nodes_loop_single.
  assert (Hok : frontier_ok nodeId (mkTraversal {[nodeId]} [] [])).
  { split; simpl; [apply elem_of_singleton; reflexivity | apply Forall_nil; exact I]. }
  pose proof (edges_loop_frontier 1 nodeId
                (List.filter (touches nodeId) connectedEdges) _ kg Hok) as Hfirst.
  destruct (edges_loop limit 1 nodeId _ _ kg) as [[[t | result] | e] kg1];
    simpl in *; try reflexivity.
  destruct Hfirst as [Hseen Hnext].
  rewrite depth_loop_nothing_new by assumption. reflexivity.
Qed.
End NothingNew.

(** Without [includeSelf], a larger [depth] changes nothing: the call
    returns what [depth: 1] returns, and leaves the same state. *)
Lemma getConnectedNodes_depth_irrelevant (nodeId : string) (depth : nat)
    (limit : option nat) (edgeTypes : option (list string))
    (direction : option string) (includeSelf : option bool) (kg : KG) :
  Js.or_obj includeSelf false = false ->
  getConnectedNodes nodeId
    (ConnOptions.mk (Some (S depth)) limit edgeTypes direction includeSelf) kg =
  getConnectedNodes nodeId
    (ConnOptions.mk (Some 1) limit edgeTypes direction includeSelf) kg.
Proof.
  intros Hself. unfold getConnectedNodes, try_catch.
  cbn [ConnOptions.depth ConnOptions.limit ConnOptions.edgeTypes
       ConnOptions.direction ConnOptions.includeSelf].
  rewrite Hself.
  change (Js.or_nat (Some (S depth)) 1) with (S depth).
  change (Js.or_nat (Some 1) 1) with 1.
  destruct (String.eqb nodeId ""); [reflexivity |].
  unfold bind, getKnowledgeEdges. cbv beta iota zeta.
  rewrite depth_loop_first_level_only; [reflexivity |].
  intros e He. apply filter_In in He as [_ He].
  eapply connected_edge_incident, He.
Qed.

(** * Additional properties *)

(** ** Traversal: what is returned *)

Section TraverseEntries.
Variable nodeId : string.
Variable limit : nat.
Variable includeSelf : bool.
Variable connectedEdges : list Edge.t.
Variable maxDepth : nat.

Lemma edges_loop_entries (currentDepth : nat) (currentId : string)
    (nodeEdges : list Edge.t) (t : Traversal) (kg : KG) :
  1 <= currentDepth <= maxDepth ->
  (forall e, In e nodeEdges -> In e connectedEdges) ->
  Forall (entry_ok maxDepth connectedEdges includeSelf) (connectedNodes t) ->
  flow_all (entry_ok maxDepth connectedEdges includeSelf)
    (fst (edges_loop limit currentDepth currentId nodeEdges t kg)).
Proof.
  intros Hdepth. revert t kg.
  induction nodeEdges as [|edge rest IH]; intros t kg Hsub Hall; simpl.
  - exact Hall.
  - assert (Hrest : forall e, In e rest -> In e connectedEdges)
      by (intros e He; apply Hsub; right; exact He).
    destruct (decide _) as [Hseen | Hnew]; [apply IH; assumption |].
    unfold bind. destruct (getNode _ kg) as [[connectedNode | e] kg1]; [| exact I].
    match goal with
    | |- context [connectedNodes ?t'] => set (t1 := t')
    end.
    assert (Hall1 : Forall (entry_ok maxDepth connectedEdges includeSelf)
                      (connectedNodes t1)).
    { unfold t1. destruct connectedNode as [n|]; simpl; [| exact Hall].
      apply Forall_app. split; [exact Hall |].
      apply Forall_cons. split; [| apply Forall_nil; exact I].
      unfold entry_ok. simpl. split; [apply Hsub; left; reflexivity |].
      split; [exact Hdepth |].
      destruct (String.eqb (Edge.source edge) currentId); [left | right]; reflexivity. }
    destruct (_ && _); [exact Hall1 | apply IH; assumption].
Qed.

Lemma nodes_loop_entries (currentDepth : nat) (nodesToProcess : list string)
    (t : Traversal) (kg : KG) :
  1 <= currentDepth <= maxDepth ->
  Forall (entry_ok maxDepth connectedEdges includeSelf) (connectedNodes t) ->
  flow_all (entry_ok maxDepth connectedEdges includeSelf)
    (fst (nodes_loop nodeId limit includeSelf connectedEdges currentDepth
            nodesToProcess t kg)).
Proof.
  intros Hdepth. revert t kg.
  induction nodesToProcess as [|currentId rest IH]; intros t kg Hall; simpl.
  - exact Hall.
  - unfold bind at 1.
    assert (Hself : match include_self nodeId includeSelf currentDepth currentId t kg with
                    | (Ok t1, _) =>
                        Forall (entry_ok maxDepth connectedEdges includeSelf)
                          (connectedNodes t1)
                    | (Throw _, _) => True
                    end).
    { unfold include_self. destruct includeSelf eqn:Hinc; simpl; [| exact Hall].
      destruct (_ && _); [| exact Hall].
      unfold bind. destruct (getNode currentId kg) as [[[n|] | e] kg1]; simpl;
        [| exact Hall | exact I].
      apply Forall_app. split; [exact Hall |].
      apply Forall_cons. split; [| apply Forall_nil; exact I].
      unfold entry_ok. simpl. auto. }
    destruct (include_self nodeId includeSelf currentDepth currentId t kg)
      as [[t1 | e] kg1]; [| exact I].
    unfold bind at 1.
    pose proof (edges_loop_entries currentDepth currentId
                  (List.filter (touches currentId) connectedEdges) t1 kg1 Hdepth) as Hedges.
    assert (Hsub : forall e, In e (List.filter (touches currentId) connectedEdges) ->
                     In e connectedEdges)
      by (intros e He; apply filter_In in He as [He _]; exact He).
    specialize (Hedges Hsub Hself).
    destruct (edges_loop limit currentDepth currentId _ t1 kg1)
      as [[[t2 | result] | e] kg2]; simpl in *.
    + apply IH, Hedges.
    + exact Hedges.
    + exact I.
Qed.

Lemma depth_loop_entries (levels currentDepth : nat) (nodesToProcess : list string)
    (seen : gset string) (found : list Connected.t) (kg : KG) :
  1 <= currentDepth ->
  currentDepth + levels <= S maxDepth ->
  Forall (entry_ok maxDepth connectedEdges includeSelf) found ->
  match fst (depth_loop nodeId limit includeSelf connectedEdges levels currentDepth
               nodesToProcess seen found kg) with
  | Ok result => Forall (entry_ok maxDepth connectedEdges includeSelf) result
  | Throw _ => True
  end.
Proof.
  revert currentDepth nodesToProcess seen found kg.
  induction levels as [|levels IH];
    intros currentDepth nodesToProcess seen found kg Hlow Hhigh Hall.
  - exact Hall.
  - destruct nodesToProcess as [|currentId rest]; [exact Hall |].
    rewrite depth_loop_step. unfold bind at 1.
    assert (Hdepth : 1 <= currentDepth <= maxDepth) by lia.
    pose proof (nodes_loop_entries currentDepth (currentId :: rest)
                  (mkTraversal seen found []) kg Hdepth Hall) as Hnodes.
    destruct (nodes_loop nodeId limit includeSelf connectedEdges currentDepth
                (currentId :: rest) (mkTraversal seen found []) kg)
      as [[[t | result] | e] kg1]; cbn [fst flow_all] in Hnodes.
    + apply IH; [lia | lia | exact Hnodes].
    + exact Hnodes.
    + exact I.
Qed.
End TraverseEntries.

Lemma arr_includes_In (l : list string) (x : string) :
  Js.arr_includes l x = true <-> In x l.
Proof.
  unfold Js.arr_includes. rewrite existsb_exists. split.
  - intros (y & Hy & Heq). apply String.eqb_eq in Heq. subst. exact Hy.
  - intros Hx. exists x. split; [exact Hx | apply String.eqb_refl].
Qed.

(** X3. [getConnectedNodes] always returns an array, and every element of
    it is either a neighbour entry, whose edge is a stored edge with one
    end at the seed, of a type listed in [options.edgeTypes] when that is
    given, at a depth between 1 and [options.depth || 1], with direction
    [out] or [in]; or the seed itself, without edge, at depth 0, which
    happens only when [options.includeSelf] is set. *)
Theorem getConnectedNodes_entries (nodeId : string) (options : ConnOptions.t) (kg : KG) :
  exists found,
    fst (getConnectedNodes nodeId options kg) = Ok found /\
    Forall
      (fun c =>
         Connected.depth c <= Js.or_nat (ConnOptions.depth options) 1 /\
         match Connected.edge c with
         | Some e =>
             In e (edges (storageManager kg)) /\
             (Edge.source e = nodeId \/ Edge.target e = nodeId) /\
             (forall types, ConnOptions.edgeTypes options = Some types ->
                In (Edge.type e) types) /\
             1 <= Connected.depth c /\
             (Connected.direction c = Some "out" \/ Connected.direction c = Some "in")
         | None =>
             ConnOptions.includeSelf options = Some true /\
             Connected.depth c = 0 /\ Connected.direction c = None
         end)
      found.
Proof.
  unfold getConnectedNodes, try_catch.
  destruct (String.eqb nodeId ""); [exists []; split; [reflexivity | constructor] |].
  unfold bind at 1. unfold getKnowledgeEdges at 1. cbv beta iota zeta.
  set (maxDepth := Js.or_nat (ConnOptions.depth options) 1).
  set (connectedEdges :=
         List.filter
           (connected_edge (ConnOptions.edgeTypes options)
              (Js.or_str (ConnOptions.direction options) "both") nodeId)
           (edges (storageManager kg))).
  set (includeSelf := Js.or_obj (ConnOptions.includeSelf options) false).
  match goal with
  | |- context [depth_loop nodeId ?lim includeSelf connectedEdges maxDepth 1 ?f ?s [] kg] =>
      pose proof (depth_loop_entries nodeId lim includeSelf connectedEdges maxDepth
                    maxDepth 1 f s [] kg (le_n 1) (le_n _) (Forall_nil_2 _)) as Hloop;
      destruct (depth_loop nodeId lim includeSelf connectedEdges maxDepth 1 f s [] kg)
        as [[found | e] kg1]
  end.
  2:{ exists []. split; [reflexivity | constructor]. }
  exists found. split; [reflexivity |].
  cbn [fst] in Hloop. eapply Forall_impl; [exact Hloop |].
  intros c Hc. unfold entry_ok in Hc.
  destruct (Connected.edge c) as [e|].
  - destruct Hc as (Hin & Hdepth & Hdir).
    apply filter_In in Hin as [Hstored Hfilter].
    split; [lia |]. split; [exact Hstored |].
    split; [eapply connected_edge_incident, Hfilter |].
    split; [| split; [lia | exact Hdir]].
    intros types Htypes. unfold connected_edge in Hfilter. rewrite Htypes in Hfilter.
    apply andb_true_iff in Hfilter as [Hin _]. apply arr_includes_In, Hin.
  - destruct Hc as (Hself & Hdepth & Hdir).
    split; [lia |]. split; [| split; assumption].
    unfold includeSelf in Hself. destruct (ConnOptions.includeSelf options) as [[|]|];
      simpl in Hself; congruence.
Qed.

(** ** Sorting: order and stability *)

Section SortFacts.
Context {A : Type}.
Variable gt : A -> A -> bool.
Variable D : A -> Prop.
Hypothesis gt_asym : forall a b, D a -> D b -> gt a b = true -> gt b a = false.
Hypothesis gt_ntrans : forall a b c, D a -> D b -> D c ->
  gt a b = false -> gt b c = false -> gt a c = false.

Lemma gt_irrefl (a : A) : D a -> gt a a = false.
Proof.
  intros Ha. destruct (gt a a) eqn:H; [| reflexivity].
  rewrite (gt_asym a a Ha Ha H) in H. discriminate.
Qed.

Lemma Forall_insert_sorted (P : A -> Prop) (x : A) (l : list A) :
  P x -> Forall P l -> Forall P (insert_sorted gt x l).
Proof. intros Hx Hl. rewrite insert_sorted_perm. apply Forall_cons. split; assumption. Qed.

Lemma insert_sorted_sorted (x : A) (l : list A) :
  D x -> Forall D l ->
  StronglySorted (may_precede gt) l ->
  StronglySorted (may_precede gt) (insert_sorted gt x l).
Proof.
  intros Hx HD Hsorted. induction Hsorted as [|y r Hr IH Hy]; simpl.
  - constructor; constructor.
  - apply Forall_cons in HD as [HDy HDr].
    destruct (gt y x) eqn:Hyx.
    + constructor; [constructor; assumption |].
      apply Forall_cons. split; [apply gt_asym; assumption |].
      rewrite Forall_forall in Hy, HDr |- *. intros z Hz.
      unfold may_precede.
      apply (gt_ntrans x y z Hx HDy (HDr z Hz)); [apply gt_asym; assumption | apply Hy, Hz].
    + constructor; [apply IH, HDr |].
      apply Forall_insert_sorted; assumption.
Qed.

Lemma fold_insert_sorted_sorted (l acc : list A) :
  Forall D l -> Forall D acc ->
  StronglySorted (may_precede gt) acc ->
  StronglySorted (may_precede gt)
    (fold_left (fun sorted x => insert_sorted gt x sorted) l acc).
Proof.
  revert acc. induction l as [|x l IH]; intros acc Hl Hacc Hsorted; simpl.
  - exact Hsorted.
  - apply Forall_cons in Hl as [Hx Hl]. apply IH; [exact Hl | |].
    + apply Forall_insert_sorted; assumption.
    + apply insert_sorted_sorted; assumption.
Qed.

(** For a comparator that is a consistent ordering, the sorted array is
    in order. *)
Lemma js_sort_sorted (l : list A) :
  Forall D l -> StronglySorted (may_precede gt) (js_sort gt l).
Proof.
  intros Hl. apply fold_insert_sorted_sorted; [exact Hl | constructor | constructor].
Qed.

(** A class of elements that the comparator does not tell apart. *)
Variable cls : A -> bool.
Hypothesis cls_equal : forall a b, D a -> D b ->
  cls a = true -> cls b = true -> gt a b = false.

Lemma insert_sorted_class (x : A) (l : list A) :
  D x -> Forall D l ->
  StronglySorted (may_precede gt) l ->
  List.filter cls (insert_sorted gt x l) =
  List.filter cls l ++ (if cls x then [x] else []).
Proof.
  intros Hx HD Hsorted. induction Hsorted as [|y r Hr IH Hy]; simpl.
  - destruct (cls x); reflexivity.
  - apply Forall_cons in HD as [HDy HDr].
    destruct (gt y x) eqn:Hyx; simpl.
    + destruct (cls x) eqn:Hcx; [| rewrite app_nil_r; reflexivity].
      assert (Hnone : forall z, D z -> gt y z = false -> cls z = false).
      { intros z HDz Hyz. destruct (cls z) eqn:Hcz; [| reflexivity].
        rewrite (gt_ntrans y z x HDy HDz Hx Hyz (cls_equal z x HDz Hx Hcz Hcx)) in Hyx.
        discriminate. }
      rewrite (Hnone y HDy (gt_irrefl y HDy)).
      replace (List.filter cls r) with (@nil A); [reflexivity |].
      symmetry. clear IH Hr. induction r as [|z r IHr]; [reflexivity |]. simpl.
      apply Forall_cons in Hy as [Hyz Hy]. apply Forall_cons in HDr as [HDz HDr].
      rewrite (Hnone z HDz Hyz). apply IHr; assumption.
    + rewrite (IH HDr). destruct (cls y); reflexivity.
Qed.

Lemma fold_insert_sorted_class (l acc : list A) :
  Forall D l -> Forall D acc ->
  StronglySorted (may_precede gt) acc ->
  List.filter cls (fold_left (fun sorted x => insert_sorted gt x sorted) l acc) =
  List.filter cls acc ++ List.filter cls l.
Proof.
  revert acc. induction l as [|x l IH]; intros acc Hl Hacc Hsorted; simpl.
  - rewrite app_nil_r. reflexivity.
  - apply Forall_cons in Hl as [Hx Hl]. rewrite IH; [| exact Hl | |].
    + rewrite insert_sorted_class by assumption. rewrite <- app_assoc.
      destruct (cls x); reflexivity.
    + apply Forall_insert_sorted; assumption.
    + apply insert_sorted_sorted; assumption.
Qed.

(** The sort is stable: the elements of one class keep their order. *)
Lemma js_sort_stable (l : list A) :
  Forall D l -> List.filter cls (js_sort gt l) = List.filter cls l.
Proof.
  intros Hl. unfold js_sort.
  rewrite fold_insert_sorted_class; [reflexivity | exact Hl | constructor | constructor].
Qed.
End SortFacts.

(** ** Search: the scored results *)

Lemma score_desc_gt_false (n1 n2 : Node.t) (s1 s2 : Q) (d1 d2 : MatchDetails.t) :
  score_desc_gt (Scored n1 s1 d1) (Scored n2 s2 d2) = false <-> (s2 <= s1)%Q.
Proof.
  unfold score_desc_gt. simpl. rewrite negb_false_iff, Qle_bool_iff. split; intros H; lra.
Qed.

Lemma score_desc_gt_asym (a b : Hit) :
  is_scored a -> is_scored b -> score_desc_gt a b = true -> score_desc_gt b a = false.
Proof.
  destruct a as [|n1 s1 d1]; [contradiction |]. destruct b as [|n2 s2 d2]; [contradiction |].
  intros _ _ H. apply score_desc_gt_false.
  destruct (Qlt_le_dec s1 s2) as [Hlt | Hle]; [lra |].
  apply (proj2 (score_desc_gt_false n1 n2 s1 s2 d1 d2)) in Hle. congruence.
Qed.

Lemma score_desc_gt_ntrans (a b c : Hit) :
  is_scored a -> is_scored b -> is_scored c ->
  score_desc_gt a b = false -> score_desc_gt b c = false -> score_desc_gt a c = false.
Proof.
  destruct a as [|n1 s1 d1]; [contradiction |]. destruct b as [|n2 s2 d2]; [contradiction |].
  destruct c as [|n3 s3 d3]; [contradiction |].
  intros _ _ _. rewrite !score_desc_gt_false. intros H1 H2. lra.
Qed.

Lemma has_score_equal (s : Q) (a b : Hit) :
  is_scored a -> is_scored b ->
  has_score s a = true -> has_score s b = true -> score_desc_gt a b = false.
Proof.
  destruct a as [|n1 s1 d1]; [contradiction |]. destruct b as [|n2 s2 d2]; [contradiction |].
  intros _ _. unfold has_score. simpl. intros H1 H2.
  apply Qeq_bool_iff in H1, H2. apply score_desc_gt_false. lra.
Qed.

(** The matches of a query that is not blank are the scored stored nodes
    of positive score. *)
Lemma search_matches_scored (ns : list Node.t) (query : string) (searchIn : list string) :
  blank_query query = false ->
  Forall (fun h => exists n,
            In n ns /\ h = scoreNode searchIn (query_terms query) n /\
            (0 < node_score searchIn (query_terms query) n)%Q)
         (search_matches ns query searchIn).
Proof.
  intros Hblank. unfold search_matches. rewrite Hblank.
  apply Forall_forall. intros h Hh. apply list_elem_of_In in Hh.
  apply filter_In in Hh as [Hin Hpos]. apply in_map_iff in Hin as (n & <- & Hn).
  exists n. split; [exact Hn |]. split; [reflexivity |].
  simpl in Hpos. apply negb_true_iff in Hpos.
  destruct (Qlt_le_dec 0 (node_score searchIn (query_terms query) n)) as [Hlt | Hle];
    [exact Hlt |].
  apply Qle_bool_iff in Hle. congruence.
Qed.

Lemma search_matches_is_scored (ns : list Node.t) (query : string)
    (searchIn : list string) :
  blank_query query = false -> Forall is_scored (search_matches ns query searchIn).
Proof.
  intros Hblank. eapply Forall_impl; [apply search_matches_scored, Hblank |].
  intros h (n & _ & -> & _). exact I.
Qed.

(** A positive score comes from a match in a searched field. *)
Lemma positive_score_has_match (searchIn queryTerms : list string) (node : Node.t) :
  (0 < node_score searchIn queryTerms node)%Q ->
  0 < match_count searchIn queryTerms node.
Proof.
  intros Hpos. unfold match_count.
  destruct (Nat.eq_dec
              (titleMatch searchIn queryTerms node + summaryMatch searchIn queryTerms node
               + textMatch searchIn queryTerms node + entityMatch searchIn queryTerms node
               + categoryMatch searchIn queryTerms node + tagMatch searchIn queryTerms node
               + urlMatch searchIn queryTerms node) 0) as [Hzero | Hnz]; [| lia].
  exfalso. unfold node_score in Hpos.
  replace (titleMatch searchIn queryTerms node) with 0 in Hpos by lia.
  replace (summaryMatch searchIn queryTerms node) with 0 in Hpos by lia.
  replace (textMatch searchIn queryTerms node) with 0 in Hpos by lia.
  replace (entityMatch searchIn queryTerms node) with 0 in Hpos by lia.
  replace (categoryMatch searchIn queryTerms node) with 0 in Hpos by lia.
  replace (tagMatch searchIn queryTerms node) with 0 in Hpos by lia.
  replace (urlMatch searchIn queryTerms node) with 0 in Hpos by lia.
  vm_compute in Hpos. discriminate Hpos.
Qed.

(** X4. For a query that is not blank, every element of [results] carries
    the fields of a stored node, the score of that node, which is
    positive, and that node has a match of a query term in one of the
    searched fields. *)
Theorem search_results_are_matches (ns : list Node.t) (query : string)
    (options : SearchOptions.t) :
  blank_query query = false ->
  let searchIn := search_option (SearchOptions.searchIn options) default_searchIn in
  Forall
    (fun item => exists n,
       In n ns /\
       ResultItem.fields item = Some n /\
       ResultItem.score item = Some (node_score searchIn (query_terms query) n) /\
       ResultItem.matchDetails item =
         Some (node_matchDetails searchIn (query_terms query) n) /\
       (0 < node_score searchIn (query_terms query) n)%Q /\
       0 < match_count searchIn (query_terms query) n)
    (SearchResult.results (search_nodes ns query options)).
Proof.
  intros Hblank searchIn. unfold search_nodes. simpl.
  apply Forall_fmap, Forall_slice.
  rewrite (search_sorted_perm ns query options).
  eapply Forall_impl; [apply search_matches_scored, Hblank |].
  intros h (n & Hn & -> & Hpos). exists n. simpl.
  split; [exact Hn |]. split; [reflexivity |]. split; [reflexivity |].
  split; [reflexivity |]. split; [exact Hpos |].
  apply positive_score_has_match, Hpos.
Qed.

(** The query [rust] on the store of the chain. *)
Lemma search_results_are_matches_witness :
  Forall
    (fun item => exists n,
       In n (nodes (storageManager chain_graph)) /\
       ResultItem.fields item = Some n /\
       ResultItem.score item = Some (node_score default_searchIn (query_terms "rust") n) /\
       ResultItem.matchDetails item =
         Some (node_matchDetails default_searchIn (query_terms "rust") n) /\
       (0 < node_score default_searchIn (query_terms "rust") n)%Q /\
       0 < match_count default_searchIn (query_terms "rust") n)
    (SearchResult.results
       (search_nodes (nodes (storageManager chain_graph)) "rust" SearchOptions.empty)).
Proof.
  apply (search_results_are_matches (nodes (storageManager chain_graph)) "rust"
           SearchOptions.empty).
  reflexivity.
Defined.

Lemma StronglySorted_take {A : Type} (R : A -> A -> Prop) (n : nat) (l : list A) :
  StronglySorted R l -> StronglySorted R (take n l).
Proof.
  intros H. revert n. induction H as [|x l Hl IH Hx]; intros [|n]; simpl;
    try constructor.
  - apply IH.
  - apply Forall_take, Hx.
Qed.

Lemma StronglySorted_drop {A : Type} (R : A -> A -> Prop) (n : nat) (l : list A) :
  StronglySorted R l -> StronglySorted R (drop n l).
Proof.
  intros H. revert n. induction H as [|x l Hl IH Hx]; intros [|n]; simpl.
  - constructor.
  - constructor.
  - constructor; assumption.
  - apply IH.
Qed.

Lemma StronglySorted_map_scored (l : list Hit) :
  Forall is_scored l ->
  StronglySorted (may_precede score_desc_gt) l ->
  StronglySorted score_ge (map format_result l).
Proof.
  intros Hscored Hsorted. induction Hsorted as [|x l Hl IH Hx]; simpl.
  - constructor.
  - apply Forall_cons in Hscored as [Hsx Hsl]. constructor; [apply IH, Hsl |].
    apply Forall_fmap. rewrite Forall_forall in Hx, Hsl |- *. intros y Hy.
    specialize (Hx y Hy). specialize (Hsl y Hy).
    destruct x as [|n1 s1 d1]; [contradiction |].
    destruct y as [|n2 s2 d2]; [contradiction |].
    unfold score_ge. simpl. apply score_desc_gt_false in Hx. exact Hx.
Qed.

Lemma search_sorted_relevance (ns : list Node.t) (query : string)
    (limit offset : option nat) (order : option string) (searchIn : option (list string)) :
  blank_query query = false ->
  search_sorted ns query (SearchOptions.mk limit offset None order searchIn) =
  js_sort score_desc_gt
    (search_matches ns query (search_option searchIn default_searchIn)).
Proof. intros Hblank. unfold search_sorted. simpl. rewrite Hblank. reflexivity. Qed.

(** X5. For a query that is not blank and the default sort (by relevance),
    [results] is in order of score: each element has a score, and no
    element is followed by one of larger score. *)
Theorem search_relevance_order (ns : list Node.t) (query : string)
    (limit offset : option nat) (order : option string) (searchIn : option (list string)) :
  blank_query query = false ->
  StronglySorted score_ge
    (SearchResult.results
       (search_nodes ns query (SearchOptions.mk limit offset None order searchIn))).
Proof.
  intros Hblank. unfold search_nodes.
  rewrite (search_sorted_relevance ns query limit offset order searchIn Hblank).
  cbn [SearchResult.results].
  pose proof (search_matches_is_scored ns query
                (search_option searchIn default_searchIn) Hblank) as Hscored.
  apply StronglySorted_map_scored.
  - apply Forall_slice, Forall_js_sort, Hscored.
  - unfold Js.slice. apply StronglySorted_take, StronglySorted_drop.
    apply (js_sort_sorted score_desc_gt is_scored score_desc_gt_asym
             score_desc_gt_ntrans).
    exact Hscored.
Qed.

Lemma search_relevance_order_witness :
  StronglySorted score_ge
    (SearchResult.results
       (search_nodes (nodes (storageManager chain_graph)) "rust go zig"
          (SearchOptions.mk None None None None None))).
Proof.
  apply (search_relevance_order (nodes (storageManager chain_graph)) "rust go zig").
  reflexivity.
Defined.

(** X6. The relevance sort is stable: for a query that is not blank, the
    matches of one score come in the sorted array in the order in which
    the scoring pass produced them, which is the order of the stored
    nodes. *)
Theorem search_relevance_stable (ns : list Node.t) (query : string)
    (limit offset : option nat) (order : option string) (searchIn : option (list string))
    (s : Q) :
  blank_query query = false ->
  List.filter (has_score s)
    (search_sorted ns query (SearchOptions.mk limit offset None order searchIn)) =
  List.filter (has_score s)
    (List.filter
       (fun h => negb (Qle_bool (default 0%Q (hit_score h)) 0))
       (map (scoreNode (search_option searchIn default_searchIn) (query_terms query)) ns)).
Proof.
  intros Hblank.
  rewrite (search_sorted_relevance ns query limit offset order searchIn Hblank).
  rewrite (js_sort_stable score_desc_gt is_scored score_desc_gt_asym score_desc_gt_ntrans
             (has_score s) (has_score_equal s)).
  - unfold search_matches. rewrite Hblank. reflexivity.
  - apply search_matches_is_scored, Hblank.
Qed.

Lemma search_relevance_stable_witness :
  List.filter (has_score 3)
    (search_sorted (nodes (storageManager chain_graph)) "rust go zig"
       (SearchOptions.mk None None None None None)) =
  List.filter (has_score 3)
    (List.filter
       (fun h => negb (Qle_bool (default 0%Q (hit_score h)) 0))
       (map (scoreNode (search_option None default_searchIn) (query_terms "rust go zig"))
            (nodes (storageManager chain_graph)))).
Proof.
  apply (search_relevance_stable (nodes (storageManager chain_graph)) "rust go zig").
  reflexivity.
Defined.

(** ** Statistics: the other distributions and the connections *)

Lemma bump_lookup (m : gmap string nat) (k k' : string) :
  default 0 (<[k := default 0 (m !! k) + 1]> m !! k') =
  default 0 (m !! k') + (if String.eqb k k' then 1 else 0).
Proof.
  destruct (String.eqb_spec k k') as [-> | Hne].
  - rewrite lookup_insert_eq. reflexivity.
  - rewrite lookup_insert_ne by exact Hne. lia.
Qed.

Lemma fold_count_edge_type (es : list Edge.t) (m : gmap string Count) :
  fold_left count_edge_type es m = fold_left increment (map type_bucket es) m.
Proof.
  revert m. induction es as [|e es IH]; intros m; simpl; [reflexivity | apply IH].
Qed.

Lemma fold_count_category (ns : list Node.t) (m : gmap string Count) :
  fold_left (fun counts node => fold_left count_category (Node.categories node) counts)
    ns m =
  fold_left increment (concat (map Node.categories ns)) m.
Proof.
  revert m. induction ns as [|n ns IH]; intros m; simpl; [reflexivity |].
  rewrite fold_left_app. apply IH.
Qed.

Lemma occurrences_app (k : string) (a b : list string) :
  occurrences k (a ++ b) = occurrences k a + occurrences k b.
Proof. unfold occurrences. rewrite List.filter_app, length_app. reflexivity. Qed.

Lemma occurrences_categories (c : string) (ns : list Node.t) :
  occurrences c (concat (map Node.categories ns)) = category_uses c ns.
Proof.
  unfold category_uses. induction ns as [|n ns IH]; simpl; [reflexivity |].
  rewrite occurrences_app, IH. reflexivity.
Qed.

Lemma length_concat_categories (ns : list Node.t) :
  length (concat (map Node.categories ns)) =
  list_sum (map (fun n => length (Node.categories n)) ns).
Proof.
  induction ns as [|n ns IH]; simpl; [reflexivity |]. rewrite length_app, IH. reflexivity.
Qed.

(** X7. [getStatistics] on a store where no edge type and no category is
    the name of a member of [Object.prototype] (such a key does not read
    as [undefined] on the plain objects that hold the counts). The values
    of [edgeTypeDistribution] are numbers that add up to [edgeCount], the
    bucket of a type counting the edges of that type
    ([edge.type || 'unknown']); the values of [categoriesDistribution] are
    numbers that add up to the number of category entries of all nodes,
    the bucket of a category counting each listing of it (twice for a node
    that lists it twice), so that the total is not bounded by
    [nodeCount]. A key that is not counted has no bucket. *)
Theorem getStatistics_distributions (kg : KG) :
  Forall (fun e => plain_key (type_bucket e)) (edges (storageManager kg)) ->
  Forall (fun n => Forall plain_key (Node.categories n)) (nodes (storageManager kg)) ->
  exists stats : Statistics.t,
    getStatistics kg = (Ok stats, kg) /\
    Statistics.edgeCount stats = length (edges (storageManager kg)) /\
    sum_counts (Statistics.edgeTypeDistribution stats) = Statistics.edgeCount stats /\
    (forall k : string,
       Statistics.edgeTypeDistribution stats !! k =
       bucket (length (List.filter (fun e => String.eqb (type_bucket e) k)
                         (edges (storageManager kg))))) /\
    sum_counts (Statistics.categoriesDistribution stats) =
      list_sum (map (fun n => length (Node.categories n)) (nodes (storageManager kg))) /\
    (forall c : string,
       Statistics.categoriesDistribution stats !! c =
       bucket (category_uses c (nodes (storageManager kg)))).
Proof.
  intros Htypes Hcategories.
  assert (Htype_keys : Forall plain_key (map type_bucket (edges (storageManager kg)))).
  { apply Forall_fmap. exact Htypes. }
  assert (Hcategory_keys :
            Forall plain_key (concat (map Node.categories (nodes (storageManager kg))))).
  { apply Forall_concat, Forall_fmap. exact Hcategories. }
  destruct (fold_increment_plain _ Htype_keys) as [Htsum Htlookup].
  destruct (fold_increment_plain _ Hcategory_keys) as [Hcsum Hclookup].
  eexists. split; [reflexivity |]. simpl. split; [reflexivity |].
  unfold edgeTypeDistribution, categoriesDistribution.
  rewrite fold_count_edge_type, fold_count_category.
  split; [| split; [| split]].
  - rewrite Htsum. apply length_map.
  - intros k. rewrite Htlookup, occurrences_map. reflexivity.
  - rewrite Hcsum. apply length_concat_categories.
  - intros c. rewrite Hclookup. f_equal. apply occurrences_categories.
Qed.

(** The statistics of the chain with a fourth node, whose categories
    are [lang], [systems] and [lang] again. *)
Lemma getStatistics_distributions_witness :
  exists stats : Statistics.t,
    getStatistics categorized_graph = (Ok stats, categorized_graph) /\
    Statistics.edgeCount stats = length (edges (storageManager categorized_graph)) /\
    sum_counts (Statistics.edgeTypeDistribution stats) = Statistics.edgeCount stats /\
    (forall k : string,
       Statistics.edgeTypeDistribution stats !! k =
       bucket (length (List.filter (fun e => String.eqb (type_bucket e) k)
                         (edges (storageManager categorized_graph))))) /\
    sum_counts (Statistics.categoriesDistribution stats) =
      list_sum (map (fun n => length (Node.categories n))
                  (nodes (storageManager categorized_graph))) /\
    (forall c : string,
       Statistics.categoriesDistribution stats !! c =
       bucket (category_uses c (nodes (storageManager categorized_graph)))).
Proof.
  apply (getStatistics_distributions categorized_graph).
  - vm_compute. repeat constructor.
  - vm_compute. repeat constructor.
Defined.

Lemma count_connections_lookup (m : gmap string nat) (e : Edge.t) (k : string) :
  default 0 (count_connections m e !! k) =
  default 0 (m !! k)
  + (if String.eqb (Edge.source e) k then 1 else 0)
  + (if String.eqb (Edge.target e) k then 1 else 0).
Proof. unfold count_connections. rewrite !bump_lookup. reflexivity. Qed.

Lemma count_connections_sum (m : gmap string nat) (e : Edge.t) :
  sum_values (count_connections m e) = 2 + sum_values m.
Proof. unfold count_connections. rewrite !sum_values_bump. lia. Qed.

Lemma count_connections_keys (m : gmap string nat) (e : Edge.t) (k : string) :
  is_Some (count_connections m e !! k) <->
  is_Some (m !! k) \/ Edge.source e = k \/ Edge.target e = k.
Proof.
  unfold count_connections.
  destruct (decide (Edge.target e = k)) as [<- | Ht].
  - rewrite lookup_insert_eq. split; [auto | intros _; eexists; reflexivity].
  - rewrite lookup_insert_ne by exact Ht.
    destruct (decide (Edge.source e = k)) as [<- | Hs].
    + rewrite lookup_insert_eq. split; [auto | intros _; eexists; reflexivity].
    + rewrite lookup_insert_ne by exact Hs. tauto.
Qed.

Lemma connectionCounts_fold_lookup (es : list Edge.t) (m : gmap string nat) (k : string) :
  default 0 (fold_left count_connections es m !! k) = default 0 (m !! k) + edge_ends k es.
Proof.
  revert m. induction es as [|e es IH]; intros m; unfold edge_ends; simpl; [lia |].
  rewrite IH, count_connections_lookup. unfold edge_ends.
  destruct (String.eqb (Edge.source e) k), (String.eqb (Edge.target e) k); simpl; lia.
Qed.

Lemma connectionCounts_fold_sum (es : list Edge.t) (m : gmap string nat) :
  sum_values (fold_left count_connections es m) = 2 * length es + sum_values m.
Proof.
  revert m. induction es as [|e es IH]; intros m; simpl; [lia |].
  rewrite IH, count_connections_sum. lia.
Qed.

Lemma connectionCounts_fold_keys (es : list Edge.t) (m : gmap string nat) (k : string) :
  is_Some (fold_left count_connections es m !! k) <->
  is_Some (m !! k) \/ existsb (touches k) es = true.
Proof.
  revert m. induction es as [|e es IH]; intros m; simpl.
  - split; [auto | intros [H | H]; [exact H | discriminate]].
  - rewrite IH, count_connections_keys. unfold touches at 2.
    rewrite orb_true_iff, orb_true_iff, !String.eqb_eq. tauto.
Qed.

Lemma connectionCounts_keys (es : list Edge.t) (k : string) :
  is_Some (connectionCounts es !! k) <-> existsb (touches k) es = true.
Proof.
  unfold connectionCounts. rewrite connectionCounts_fold_keys, lookup_empty.
  split; [intros [[x Hx] | H]; [discriminate | exact H] | auto].
Qed.

Lemma edge_ends_le (k : string) (es : list Edge.t) : edge_ends k es <= 2 * length es.
Proof.
  unfold edge_ends.
  pose proof (filter_length_le (fun e => String.eqb (Edge.source e) k) es).
  pose proof (filter_length_le (fun e => String.eqb (Edge.target e) k) es). lia.
Qed.

Lemma connection_value_bounds (es : list Edge.t) (v : nat) :
  In v (connection_values (connectionCounts es)) -> 1 <= v <= 2 * length es.
Proof.
  unfold connection_values. intros Hv. apply in_map_iff in Hv as ([k v'] & <- & Hin).
  apply list_elem_of_In, elem_of_map_to_list in Hin. simpl.
  pose proof (connectionCounts_fold_lookup es ∅ k) as Hlook.
  fold (connectionCounts es) in Hlook. rewrite Hin, lookup_empty in Hlook. simpl in Hlook.
  pose proof (edge_ends_le k es).
  assert (Hsome : is_Some (connectionCounts es !! k)) by (eexists; exact Hin).
  apply connectionCounts_keys, existsb_exists in Hsome as (e & He & Htouch).
  assert (1 <= edge_ends k es); [| lia].
  unfold edge_ends. unfold touches in Htouch. apply orb_true_iff in Htouch as [Hs | Ht].
  - assert (In e (List.filter (fun e0 => String.eqb (Edge.source e0) k) es))
      by (apply filter_In; split; assumption).
    destruct (List.filter (fun e0 => String.eqb (Edge.source e0) k) es);
      [contradiction | simpl; lia].
  - assert (In e (List.filter (fun e0 => String.eqb (Edge.target e0) k) es))
      by (apply filter_In; split; assumption).
    destruct (List.filter (fun e0 => String.eqb (Edge.target e0) k) es);
      [contradiction | simpl; lia].
Qed.

Lemma fold_min_bounds (l : list nat) (c lo hi : nat) :
  lo <= c <= hi -> (forall v, In v l -> lo <= v <= hi) ->
  lo <= fold_left Nat.min l c <= hi.
Proof.
  revert c. induction l as [|x l IH]; intros c Hc Hl; simpl; [exact Hc |].
  apply IH; [| intros v Hv; apply Hl; right; exact Hv].
  pose proof (Hl x (or_introl eq_refl)). lia.
Qed.

Lemma fold_max_bounds (l : list nat) (c lo hi : nat) :
  lo <= c <= hi -> (forall v, In v l -> lo <= v <= hi) ->
  lo <= fold_left Nat.max l c <= hi.
Proof.
  revert c. induction l as [|x l IH]; intros c Hc Hl; simpl; [exact Hc |].
  apply IH; [| intros v Hv; apply Hl; right; exact Hv].
  pose proof (Hl x (or_introl eq_refl)). lia.
Qed.

Lemma fold_min_le (l : list nat) (c : nat) :
  fold_left Nat.min l c <= c /\ forall v, In v l -> fold_left Nat.min l c <= v.
Proof.
  revert c. induction l as [|x l IH]; intros c; simpl; [split; [lia | contradiction] |].
  destruct (IH (Nat.min c x)) as [H1 H2]. split; [lia |].
  intros v [<- | Hv]; [lia | apply H2, Hv].
Qed.

Lemma fold_max_ge (l : list nat) (c : nat) :
  c <= fold_left Nat.max l c /\ forall v, In v l -> v <= fold_left Nat.max l c.
Proof.
  revert c. induction l as [|x l IH]; intros c; simpl; [split; [lia | contradiction] |].
  destruct (IH (Nat.max c x)) as [H1 H2]. split; [lia |].
  intros v [<- | Hv]; [lia | apply H2, Hv].
Qed.

(** X8. The connection statistics of [getStatistics]. The counts of
    [connectionCounts] add up to twice the number of edges, the count of a
    node being the number of edge ends at it (two for a self-loop);
    [isolated] is the number of nodes that no edge touches. With at least
    one edge, [min] and [max] range over the touched nodes only, so
    [1 <= min <= max <= 2 * edgeCount] even when isolated nodes exist;
    without edges [min] and [max] are 0. *)
Theorem connectionStats_spec (ns : list Node.t) (es : list Edge.t) :
  sum_values (connectionCounts es) = 2 * length es /\
  (forall k, default 0 (connectionCounts es !! k) = edge_ends k es) /\
  ConnectionStats.isolated (connectionStats ns es) =
    length (List.filter (fun n => negb (existsb (touches (Node.id n)) es)) ns) /\
  match es with
  | [] =>
      ConnectionStats.min (connectionStats ns es) = 0 /\
      ConnectionStats.max (connectionStats ns es) = 0
  | _ :: _ =>
      1 <= ConnectionStats.min (connectionStats ns es) /\
      ConnectionStats.min (connectionStats ns es)
        <= ConnectionStats.max (connectionStats ns es) /\
      ConnectionStats.max (connectionStats ns es) <= 2 * length es
  end.
Proof.
  split; [| split; [| split]].
  - unfold connectionCounts. rewrite connectionCounts_fold_sum, sum_values_empty. lia.
  - intros k. unfold connectionCounts.
    rewrite connectionCounts_fold_lookup, lookup_empty. reflexivity.
  - assert (Hiso : isolatedCount ns (connectionCounts es) =
              length (List.filter (fun n => negb (existsb (touches (Node.id n)) es)) ns)).
    { unfold isolatedCount. f_equal. apply filter_ext. intros n. f_equal.
      destruct (existsb (touches (Node.id n)) es) eqn:Hex.
      - apply bool_decide_eq_true, connectionCounts_keys, Hex.
      - apply bool_decide_eq_false. rewrite connectionCounts_keys, Hex. discriminate. }
    unfold connectionStats. destruct (0 <? size (connectionCounts es))%nat eqn:Hsize.
    + exact Hiso.
    + assert (Hempty : connectionCounts es = ∅).
      { apply map_size_empty_iff. apply Nat.ltb_ge in Hsize. lia. }
      rewrite <- Hiso. unfold isolatedCount. rewrite Hempty.
      destruct (0 <? length ns)%nat eqn:Hns; simpl.
      * symmetry. f_equal. apply forallb_filter_id. apply forallb_forall.
        intros n _. rewrite lookup_empty. reflexivity.
      * apply Nat.ltb_ge in Hns. destruct ns; [reflexivity | simpl in Hns; lia].
  - destruct es as [|e es'].
    + unfold connectionStats. simpl. destruct (0 <? length ns)%nat; split; reflexivity.
    + set (es := e :: es').
      assert (Hsome : is_Some (connectionCounts es !! Edge.source e)).
      { apply connectionCounts_keys. unfold es. simpl. unfold touches at 1.
        rewrite String.eqb_refl. reflexivity. }
      unfold connectionStats.
      assert (Hsize : (0 <? size (connectionCounts es))%nat = true).
      { apply Nat.ltb_lt. destruct (decide (size (connectionCounts es) = 0)) as [Hz | Hz];
          [| lia].
        apply map_size_empty_iff in Hz. rewrite Hz, lookup_empty in Hsome.
        destruct Hsome as [x Hx]. discriminate. }
      rewrite Hsize. simpl.
      pose proof (connection_value_bounds es) as Hbounds.
      destruct (connection_values (connectionCounts es)) as [|c rest] eqn:Hvals.
      { exfalso. destruct Hsome as [x Hx].
        apply elem_of_map_to_list in Hx. apply list_elem_of_In in Hx.
        unfold connection_values in Hvals.
        destruct (map_to_list (connectionCounts es)); [contradiction | discriminate]. }
      simpl.
      assert (Hc : 1 <= c <= 2 * length es) by (apply Hbounds; left; reflexivity).
      assert (Hrest : forall v, In v rest -> 1 <= v <= 2 * length es)
        by (intros v Hv; apply Hbounds; right; exact Hv).
      pose proof (fold_min_bounds rest c 1 (2 * length es) Hc Hrest).
      pose proof (fold_max_bounds rest c 1 (2 * length es) Hc Hrest).
      pose proof (fold_min_le rest c) as [Hmin _].
      pose proof (fold_max_ge rest c) as [Hmax _].
      unfold es in *. simpl length in *. lia.
Qed.

(** ** Life cycle: properties kept by every call *)

Section Maintains.
Variable P : KG -> Prop.

Lemma maintains_ret {A : Type} (a : A) : maintains P (ret a).
Proof. intros kg H. exact H. Qed.

Lemma maintains_throw {A : Type} (msg : string) : maintains P (@throw A msg).
Proof. intros kg H. exact H. Qed.

Lemma maintains_bind {A B : Type} (m : M A) (k : A -> M B) :
  maintains P m -> (forall a, maintains P (k a)) -> maintains P (bind m k).
Proof.
  intros Hm Hk kg H. unfold bind. specialize (Hm kg H).
  destruct (m kg) as [[a | e] kg1]; simpl in *; [apply Hk, Hm | exact Hm].
Qed.

Lemma maintains_try_catch {A : Type} (m : M A) (h : string -> M A) :
  maintains P m -> (forall e, maintains P (h e)) -> maintains P (try_catch m h).
Proof.
  intros Hm Hh kg H. unfold try_catch. specialize (Hm kg H).
  destruct (m kg) as [[a | e] kg1]; simpl in *; [exact Hm | apply Hh, Hm].
Qed.

Hypothesis P_getNode : forall k, maintains P (getNode k).
Hypothesis P_saveKnowledgeEdge : forall now edge, maintains P (saveKnowledgeEdge now edge).

Lemma maintains_addEdge (now : Z) (uuid : string) (edgeData : EdgeData.t) :
  maintains P (addEdge now uuid edgeData).
Proof.
  unfold addEdge. destruct (_ || _); [apply maintains_throw |].
  apply maintains_bind; [apply P_getNode |]. intros sourceNode.
  apply maintains_bind; [apply P_getNode |]. intros targetNode.
  destruct sourceNode; [| apply maintains_throw].
  destruct targetNode; [| apply maintains_throw].
  apply maintains_bind; [apply P_saveKnowledgeEdge | intros; apply maintains_ret].
Qed.

Lemma maintains_autoConnect_loop (now : Z) (rnd : nat -> string) (i : nat)
    (nodeId : string) (targets : list string) :
  maintains P (autoConnect_loop now rnd i nodeId targets).
Proof.
  revert i. induction targets as [|t rest IH]; intros i; simpl.
  - apply maintains_ret.
  - apply maintains_bind; [apply maintains_addEdge | intros; apply IH].
Qed.

Lemma maintains_relatedNodes_loop (now : Z) (rnd : nat -> string) (i : nat)
    (insightId : string) (relatedNodes : list string) :
  maintains P (relatedNodes_loop now rnd i insightId relatedNodes).
Proof.
  revert i. induction relatedNodes as [|t rest IH]; intros i; simpl.
  - apply maintains_ret.
  - apply maintains_bind; [apply maintains_addEdge | intros; apply IH].
Qed.

Lemma maintains_edges_loop (limit currentDepth : nat) (currentId : string)
    (nodeEdges : list Edge.t) (t : Traversal) :
  maintains P (edges_loop limit currentDepth currentId nodeEdges t).
Proof.
  revert t. induction nodeEdges as [|edge rest IH]; intros t; simpl.
  - apply maintains_ret.
  - destruct (decide _) as [Hseen | Hnew]; [apply IH |].
    apply maintains_bind; [apply P_getNode |].
    intros connectedNode. destruct (_ && _); [apply maintains_ret | apply IH].
Qed.

Lemma maintains_nodes_loop (nodeId : string) (limit : nat) (includeSelf : bool)
    (connectedEdges : list Edge.t) (currentDepth : nat) (nodesToProcess : list string)
    (t : Traversal) :
  maintains P (nodes_loop nodeId limit includeSelf connectedEdges currentDepth
                 nodesToProcess t).
Proof.
  revert t. induction nodesToProcess as [|currentId rest IH]; intros t; simpl.
  - apply maintains_ret.
  - apply maintains_bind.
    + unfold include_self. destruct (_ && _); [| apply maintains_ret].
      apply maintains_bind; [apply P_getNode |]. intros [n|]; apply maintains_ret.
    + intros t1. apply maintains_bind; [apply maintains_edges_loop |].
      intros [t2 | result]; [apply IH | apply maintains_ret].
Qed.

Lemma maintains_getConnectedNodes (nodeId : string) (options : ConnOptions.t) :
  maintains P (getConnectedNodes nodeId options).
Proof.
  unfold getConnectedNodes. apply maintains_try_catch; [| intros; apply maintains_ret].
  destruct (String.eqb nodeId ""); [apply maintains_throw |].
  apply maintains_bind; [intros kg H; exact H |]. intros es.
  generalize (Js.or_nat (ConnOptions.depth options) 1) as levels.
  generalize 1 at 2 as currentDepth. generalize [nodeId] as frontier.
  generalize (if Js.or_obj (ConnOptions.includeSelf options) false
              then (∅ : gset string) else {[nodeId]}) as seen.
  generalize (@nil Connected.t) as found.
  intros found seen frontier currentDepth levels.
  revert found seen frontier currentDepth.
  induction levels as [|levels IH]; intros found seen frontier currentDepth; simpl.
  - apply maintains_ret.
  - destruct frontier as [|currentId rest]; [apply maintains_ret |].
    apply maintains_bind; [apply maintains_nodes_loop |].
    intros [t | result]; [apply IH | apply maintains_ret].
Qed.

Lemma maintains_collect_nodes (nodeIds : list string) (found : list Node.t) :
  maintains P (collect_nodes nodeIds found).
Proof.
  revert found. induction nodeIds as [|k rest IH]; intros found; simpl.
  - apply maintains_ret.
  - apply maintains_bind; [apply P_getNode | intros node; apply IH].
Qed.

Lemma maintains_getNodesForInsight (now : Z) (options : InsightOptions.t) :
  maintains P (getNodesForInsight now options).
Proof.
  unfold getNodesForInsight. apply maintains_try_catch; [| intros; apply maintains_ret].
  destruct (search_option (InsightOptions.nodeIds options) []) as [|k rest].
  - apply maintains_bind; [| intros; apply maintains_ret].
    unfold search. apply maintains_bind; [intros kg H; exact H | intros; apply maintains_ret].
  - apply maintains_bind; [apply maintains_collect_nodes | intros; apply maintains_ret].
Qed.
End Maintains.

(** ** Life cycle: the exact effect of a save *)

Lemma findIndex_None {A : Type} (p : A -> bool) (l : list A) :
  findIndex p l = None -> forall x, In x l -> p x = false.
Proof.
  induction l as [|y r IH]; simpl; [contradiction |].
  destruct (p y) eqn:Hp; [discriminate |].
  destruct (findIndex p r); [discriminate |].
  intros _ x [<- | Hx]; [exact Hp | apply IH; [reflexivity | exact Hx]].
Qed.

Lemma findIndex_first {A : Type} (p : A -> bool) (l : list A) (i : nat) :
  findIndex p l = Some i -> forall j x, j < i -> l !! j = Some x -> p x = false.
Proof.
  revert i. induction l as [|y r IH]; intros i; simpl; [discriminate |].
  destruct (p y) eqn:Hp.
  - intros [= <-] j x Hj. lia.
  - destruct (findIndex p r) as [i'|]; [| discriminate]. intros [= <-] j x Hj.
    destruct j as [|j]; simpl.
    + intros [= <-]. exact Hp.
    + apply (IH i' eq_refl). lia.
Qed.

(** After [l[i] = x] at the index found, or [l.push(x)] when none is found,
    [find] with the same test returns [x]. *)
Lemma find_insert_found {A : Type} (p : A -> bool) (l : list A) (i : nat) (x : A) :
  findIndex p l = Some i -> p x = true -> List.find p (<[i := x]> l) = Some x.
Proof.
  revert i. induction l as [|y r IH]; intros i; simpl; [discriminate |].
  destruct (p y) eqn:Hp.
  - intros [= <-] Hx. simpl. rewrite Hx. reflexivity.
  - destruct (findIndex p r) as [i'|]; [| discriminate]. intros [= <-] Hx. simpl.
    rewrite Hp. apply IH; [reflexivity | exact Hx].
Qed.

Lemma find_push_missing {A : Type} (p : A -> bool) (l : list A) (x : A) :
  findIndex p l = None -> p x = true -> List.find p (l ++ [x]) = Some x.
Proof.
  induction l as [|y r IH]; simpl.
  - intros _ ->. reflexivity.
  - destruct (p y) eqn:Hp; [discriminate |].
    destruct (findIndex p r); [discriminate |]. intros _ Hx. apply IH; [reflexivity | exact Hx].
Qed.

(** A save leaves the other elements in place. *)
Lemma find_insert_other {A : Type} (p q : A -> bool) (l : list A) (i : nat) (old x : A) :
  l !! i = Some old -> q old = false -> q x = false ->
  List.find q (<[i := x]> l) = List.find q l.
Proof.
  revert i. induction l as [|y r IH]; intros i; simpl; [destruct i; discriminate |].
  destruct i as [|i]; simpl.
  - intros [= ->] Hold Hx. rewrite Hold, Hx. reflexivity.
  - intros Hi Hold Hx. destruct (q y); [reflexivity | apply IH; assumption].
Qed.

Lemma find_push_other {A : Type} (q : A -> bool) (l : list A) (x : A) :
  q x = false -> List.find q (l ++ [x]) = List.find q l.
Proof.
  intros Hx. induction l as [|y r IH]; simpl; [rewrite Hx; reflexivity |].
  destruct (q y); [reflexivity | exact IH].
Qed.

Lemma map_insert_same {A B : Type} (f : A -> B) (l : list A) (i : nat) (old x : A) :
  l !! i = Some old -> f x = f old -> map f (<[i := x]> l) = map f l.
Proof.
  revert i. induction l as [|y r IH]; intros i; simpl; [reflexivity |].
  destruct i as [|i]; simpl.
  - intros [= ->] ->. reflexivity.
  - intros Hi Hx. f_equal. apply IH; assumption.
Qed.

(** The two outcomes of [saveKnowledgeNode] for a node with an id: the
    first stored node of that id is replaced in place, or, when there is
    none, the node is pushed. *)
Lemma saveKnowledgeNode_cases (now : Z) (node : Node.t) (kg : KG) :
  Node.id node <> "" ->
  let ns := nodes (storageManager kg) in
  (exists i old,
     findIndex (node_has_id (Node.id node)) ns = Some i /\
     ns !! i = Some old /\ Node.id old = Node.id node /\
     saveKnowledgeNode now node kg =
       (Ok true, mkKG (mkStore (<[i := spread_saved_node old node now]> ns)
                         (edges (storageManager kg))) (nodeMemo kg)))
  \/
  (findIndex (node_has_id (Node.id node)) ns = None /\
   saveKnowledgeNode now node kg =
     (Ok true, mkKG (mkStore (ns ++ [stamp_new_node node now])
                       (edges (storageManager kg))) (nodeMemo kg))).
Proof.
  intros Hid ns. unfold saveKnowledgeNode. rewrite (eqb_empty_false _ Hid).
  unfold bind, getKnowledgeNodes, set_nodes, ret. simpl. fold ns.
  destruct (findIndex (node_has_id (Node.id node)) ns) as [i|] eqn:Hfind.
  - left. destruct (findIndex_Some _ _ _ Hfind) as (old & Hold & Hp).
    exists i, old. rewrite Hold. apply node_has_id_eq in Hp. auto.
  - right. auto.
Qed.

Lemma edge_has_id_eq (k : string) (e : Edge.t) : edge_has_id k e = true <-> Edge.id e = k.
Proof. unfold edge_has_id. apply String.eqb_eq. Qed.

Lemma saveKnowledgeEdge_cases (now : Z) (edge : Edge.t) (kg : KG) :
  Edge.id edge <> "" -> Edge.source edge <> "" -> Edge.target edge <> "" ->
  let es := edges (storageManager kg) in
  (exists i old,
     findIndex (edge_has_id (Edge.id edge)) es = Some i /\
     es !! i = Some old /\ Edge.id old = Edge.id edge /\
     saveKnowledgeEdge now edge kg =
       (Ok true, mkKG (mkStore (nodes (storageManager kg))
                         (<[i := spread_saved_edge old edge now]> es)) (nodeMemo kg)))
  \/
  (findIndex (edge_has_id (Edge.id edge)) es = None /\
   saveKnowledgeEdge now edge kg =
     (Ok true, mkKG (mkStore (nodes (storageManager kg))
                       (es ++ [stamp_new_edge edge now])) (nodeMemo kg))).
Proof.
  intros Hid Hs Ht es. unfold saveKnowledgeEdge.
  rewrite (eqb_empty_false _ Hid), (eqb_empty_false _ Hs), (eqb_empty_false _ Ht).
  unfold bind, getKnowledgeEdges, set_edges, ret. simpl. fold es.
  destruct (findIndex (edge_has_id (Edge.id edge)) es) as [i|] eqn:Hfind.
  - left. destruct (findIndex_Some _ _ _ Hfind) as (old & Hold & Hp).
    exists i, old. rewrite Hold. apply edge_has_id_eq in Hp. auto.
  - right. auto.
Qed.

(** ** Life cycle: ids stay unique *)

Lemma NoDup_map_push {A : Type} (f : A -> string) (l : list A) (x : A) :
  NoDup (map f l) -> (forall y, In y l -> f y <> f x) -> NoDup (map f (l ++ [x])).
Proof.
  intros Hnd Hfresh. rewrite map_app. simpl. apply NoDup_app. split; [exact Hnd |].
  split; [| apply NoDup_singleton].
  intros k Hk Hx. apply list_elem_of_singleton in Hx as ->.
  apply list_elem_of_In, in_map_iff in Hk as (y & Heq & Hy). apply (Hfresh y Hy Heq).
Qed.

Lemma NoDup_map_filter {A : Type} (f : A -> string) (P : A -> Prop)
    `{forall x, Decision (P x)} (l : list A) :
  NoDup (map f l) -> NoDup (map f (filter P l)).
Proof.
  induction l as [|x l IH]; simpl; [intros; constructor |].
  intros Hnd. apply NoDup_cons in Hnd as [Hx Hnd].
  rewrite filter_cons. destruct (decide (P x)); simpl; [| apply IH, Hnd].
  apply NoDup_cons. split; [| apply IH, Hnd].
  intros Hin. apply Hx. apply list_elem_of_In, in_map_iff in Hin as (y & Heq & Hy).
  apply list_elem_of_In, in_map_iff. exists y. split; [exact Heq |].
  apply list_elem_of_In. apply list_elem_of_In, list_elem_of_filter in Hy as [_ Hy]. exact Hy.
Qed.

Lemma unique_saveKnowledgeNode (now : Z) (node : Node.t) :
  maintains unique_ids (saveKnowledgeNode now node).
Proof.
  intros kg [Hn He]. destruct (String.eqb_spec (Node.id node) "") as [Heq | Hid].
  - unfold saveKnowledgeNode. rewrite Heq. simpl. split; assumption.
  - destruct (saveKnowledgeNode_cases now node kg Hid)
      as [(i & old & _ & Hold & Hsame & ->) | (Hnone & ->)]; split; simpl; try exact He.
    + rewrite (map_insert_same Node.id _ i old); [exact Hn | exact Hold |].
      simpl. congruence.
    + apply NoDup_map_push; [exact Hn |]. intros y Hy Heq.
      pose proof (findIndex_None _ _ Hnone y Hy) as Hp.
      apply node_has_id_eq in Heq. simpl in Heq. congruence.
Qed.

Lemma saveKnowledgeEdge_guard (now : Z) (edge : Edge.t) (kg : KG) :
  (Edge.id edge <> "" /\ Edge.source edge <> "" /\ Edge.target edge <> "") \/
  saveKnowledgeEdge now edge kg = (Throw "Invalid knowledge edge", kg).
Proof.
  unfold saveKnowledgeEdge.
  destruct (String.eqb_spec (Edge.id edge) "") as [H1 | H1]; [right; reflexivity |].
  destruct (String.eqb_spec (Edge.source edge) "") as [H2 | H2]; [right; reflexivity |].
  destruct (String.eqb_spec (Edge.target edge) "") as [H3 | H3]; [right; reflexivity |].
  left. auto.
Qed.

Lemma unique_saveKnowledgeEdge (now : Z) (edge : Edge.t) :
  maintains unique_ids (saveKnowledgeEdge now edge).
Proof.
  intros kg [Hn He].
  destruct (saveKnowledgeEdge_guard now edge kg) as [(H1 & H2 & H3) | ->];
    [| split; assumption].
  destruct (saveKnowledgeEdge_cases now edge kg H1 H2 H3)
    as [(i & old & _ & Hold & Hsame & ->) | (Hnone & ->)]; split; simpl; try exact Hn.
  - rewrite (map_insert_same Edge.id _ i old); [exact He | exact Hold |].
    simpl. congruence.
  - apply NoDup_map_push; [exact He |]. intros y Hy Heq.
    pose proof (findIndex_None _ _ Hnone y Hy) as Hp.
    apply edge_has_id_eq in Heq. simpl in Heq. congruence.
Qed.

Lemma getNode_store (k : string) (kg : KG) :
  storageManager (snd (getNode k kg)) = storageManager kg.
Proof.
  unfold getNode. destruct (String.eqb k ""); [reflexivity |].
  unfold bind, memo_get, getKnowledgeNodes, memo_set, ret. simpl.
  destruct (nodeMemo kg !! k); [reflexivity |].
  destruct (List.find _ _); reflexivity.
Qed.

Lemma unique_getNode (k : string) : maintains unique_ids (getNode k).
Proof. intros kg H. unfold unique_ids. rewrite getNode_store. exact H. Qed.

Lemma unique_run_call (c : Call) (kg : KG) : unique_ids kg -> unique_ids (run_call c kg).
Proof.
  intros Huniq. destruct c; simpl.
  - revert kg Huniq. unfold addNode.
    apply maintains_bind; [apply unique_saveKnowledgeNode |]. intros _.
    apply maintains_bind; [intros kg H; exact H |]. intros _.
    apply maintains_bind; [| intros; apply maintains_ret].
    destruct (NodeData.autoConnect nodeData); [| apply maintains_ret].
    apply maintains_autoConnect_loop; [apply unique_getNode | apply unique_saveKnowledgeEdge].
  - apply unique_getNode, Huniq.
  - revert kg Huniq. unfold updateNode.
    destruct (String.eqb nodeId ""); [apply maintains_throw |].
    apply maintains_bind; [apply unique_getNode |]. intros [node|]; [| apply maintains_throw].
    apply maintains_bind; [apply unique_saveKnowledgeNode |]. intros _.
    apply maintains_bind; [intros kg H; exact H | intros; apply maintains_ret].
  - destruct (String.eqb_spec nodeId "") as [-> | Hid]; [exact Huniq |].
    destruct (deleteNode_run nodeId kg Hid) as [Hfalse Htrue]. destruct Huniq as [Hn He].
    destruct (Nat.eq_dec (length (without_node nodeId (nodes (storageManager kg))))
                (length (nodes (storageManager kg)))) as [Hlen | Hlen].
    + rewrite (Hfalse Hlen). split; assumption.
    + rewrite (Htrue Hlen). split; simpl; apply NoDup_map_filter; assumption.
  - revert kg Huniq.
    apply maintains_addEdge; [apply unique_getNode | apply unique_saveKnowledgeEdge].
  - destruct Huniq as [Hn He]. unfold deleteEdge.
    destruct (String.eqb edgeId ""); [split; assumption |].
    unfold deleteKnowledgeEdge, bind, getKnowledgeEdges, set_edges, ret. simpl.
    destruct (_ =? _)%nat; simpl; split; try assumption.
    apply NoDup_map_filter, He.
  - revert kg Huniq. apply maintains_getConnectedNodes; apply unique_getNode.
Qed.

Lemma unique_ids_reachable (kg : KG) : reachable kg -> unique_ids kg.
Proof.
  induction 1 as [|c kg Hreach IH].
  - split; constructor.
  - apply unique_run_call, IH.
Qed.

(** X9. In every state that the graph reaches, no two stored nodes have
    the same id, and no two stored edges have the same id. *)
Theorem reachable_unique_ids (kg : KG) :
  reachable kg ->
  NoDup (map Node.id (nodes (storageManager kg))) /\
  NoDup (map Edge.id (edges (storageManager kg))).
Proof. intros Hreach. apply (unique_ids_reachable kg Hreach). Qed.

(** The chain, after [A] has been added a second time under another
    title. *)
Lemma reachable_unique_ids_witness :
  NoDup (map Node.id (nodes (storageManager
           (run_call (CallAddNode 6 no_uuid (data_of "A" "Rust again" 6)) chain_graph))))
  /\
  NoDup (map Edge.id (edges (storageManager
           (run_call (CallAddNode 6 no_uuid (data_of "A" "Rust again" 6)) chain_graph)))).
Proof.
  apply (reachable_unique_ids
           (run_call (CallAddNode 6 no_uuid (data_of "A" "Rust again" 6)) chain_graph)).
  apply reachable_call, reachable_chain_graph.
Defined.

(** ** Life cycle: the cache stays coherent *)

Lemma same_fields_refl (n : Node.t) : same_fields n n.
Proof. repeat split. Qed.

Lemma same_fields_id (a b : Node.t) : same_fields a b -> Node.id a = Node.id b.
Proof. intros [H _]. exact H. Qed.

Lemma coherent_getNode (k : string) : maintains coherent (getNode k).
Proof.
  intros kg Hcoh. unfold getNode. destruct (String.eqb k ""); [exact Hcoh |].
  unfold bind, memo_get, getKnowledgeNodes, memo_set, ret. simpl.
  destruct (nodeMemo kg !! k) eqn:Hmemo; [exact Hcoh |].
  pose proof (find_has_id k (nodes (storageManager kg))) as Hfind.
  destruct (List.find (node_has_id k) (nodes (storageManager kg))) as [n|];
    [| exact Hcoh].
  destruct Hfind as [Hin Hid]. intros k' n' Hlook. simpl in *.
  destruct (decide (k = k')) as [<- | Hne].
  - rewrite lookup_insert_eq in Hlook. injection Hlook as <-.
    split; [exact Hid |]. exists n. split; [exact Hin | apply same_fields_refl].
  - rewrite lookup_insert_ne in Hlook by exact Hne. apply Hcoh, Hlook.
Qed.

Lemma coherent_saveKnowledgeEdge (now : Z) (edge : Edge.t) :
  maintains coherent (saveKnowledgeEdge now edge).
Proof.
  intros kg Hcoh. destruct (saveKnowledgeEdge_run now edge kg) as (r & es' & -> & _).
  exact Hcoh.
Qed.

(** [saveKnowledgeNode(node)] followed by [nodeMemo.set(node.id, node)]. *)
Lemma coherent_save_then_cache (now : Z) (node : Node.t) (kg : KG) :
  coherent kg -> Node.id node <> "" ->
  coherent (snd (memo_set (Node.id node) node (snd (saveKnowledgeNode now node kg)))).
Proof.
  intros Hcoh Hid.
  assert (Hkeep : forall ns',
            (exists stored, stored ∈ ns' /\ same_fields stored node) ->
            (forall x, x ∈ nodes (storageManager kg) -> Node.id x <> Node.id node ->
               x ∈ ns') ->
            coherent (mkKG (mkStore ns' (edges (storageManager kg)))
                        (<[Node.id node := node]> (nodeMemo kg)))).
  { intros ns' Hnew Hothers k n Hlook. simpl in *.
    destruct (decide (Node.id node = k)) as [<- | Hne].
    - rewrite lookup_insert_eq in Hlook. injection Hlook as <-.
      split; [reflexivity | exact Hnew].
    - rewrite lookup_insert_ne in Hlook by exact Hne.
      destruct (Hcoh k n Hlook) as (Hk & stored & Hin & Hsame).
      split; [exact Hk |]. exists stored. split; [| exact Hsame].
      apply Hothers; [exact Hin |]. rewrite (same_fields_id _ _ Hsame). congruence. }
  destruct (saveKnowledgeNode_cases now node kg Hid)
    as [(i & old & _ & Hold & Hsame & ->) | (_ & ->)]; simpl; apply Hkeep.
  - exists (spread_saved_node old node now). split; [| apply same_fields_spread].
    eapply elem_of_insert_new, Hold.
  - intros x Hx Hne.
    destruct (elem_of_insert_old _ i (spread_saved_node old node now) old x Hold Hx)
      as [-> | Hin]; [congruence | exact Hin].
  - exists (stamp_new_node node now). split; [| apply same_fields_stamp].
    apply elem_of_app. right. apply list_elem_of_singleton. reflexivity.
  - intros x Hx _. apply elem_of_app. left. exact Hx.
Qed.

Lemma coherent_save_cache_then {A : Type} (now : Z) (node : Node.t) (k : string)
    (rest : M A) :
  Node.id node = k -> maintains coherent rest ->
  maintains coherent (saveKnowledgeNode now node ;; memo_set k node ;; rest).
Proof.
  intros <- Hrest kg Hcoh.
  destruct (String.eqb_spec (Node.id node) "") as [Heq | Hid].
  - unfold bind at 1. unfold saveKnowledgeNode. rewrite Heq. exact Hcoh.
  - pose proof (coherent_save_then_cache now node kg Hcoh Hid) as Hafter.
    destruct (saveKnowledgeNode_run now node kg Hid) as (ns' & Hrun & _).
    rewrite Hrun in Hafter. unfold bind at 1. rewrite Hrun.
    unfold bind at 1. apply Hrest in Hafter. exact Hafter.
Qed.

Lemma coherent_run_call (c : Call) (kg : KG) : coherent kg -> coherent (run_call c kg).
Proof.
  intros Hcoh. destruct c; simpl.
  - revert kg Hcoh. unfold addNode.
    apply coherent_save_cache_then; [reflexivity |].
    apply maintains_bind; [| intros; apply maintains_ret].
    destruct (NodeData.autoConnect nodeData); [| apply maintains_ret].
    apply maintains_autoConnect_loop;
      [apply coherent_getNode | apply coherent_saveKnowledgeEdge].
  - apply coherent_getNode, Hcoh.
  - revert kg Hcoh. unfold updateNode.
    destruct (String.eqb nodeId ""); [apply maintains_throw |].
    apply maintains_bind; [apply coherent_getNode |]. intros [node|];
      [| apply maintains_throw].
    apply coherent_save_cache_then; [| apply maintains_ret].
    destruct (content_or_title_given updates); reflexivity.
  - destruct (String.eqb_spec nodeId "") as [-> | Hid]; [exact Hcoh |].
    destruct (deleteNode_run nodeId kg Hid) as [Hfalse Htrue].
    destruct (Nat.eq_dec (length (without_node nodeId (nodes (storageManager kg))))
                (length (nodes (storageManager kg)))) as [Hlen | Hlen].
    + rewrite (Hfalse Hlen). intros k n Hlook. simpl in *.
      apply lookup_delete_Some in Hlook as [_ Hlook]. apply Hcoh, Hlook.
    + rewrite (Htrue Hlen). intros k n Hlook. simpl in *.
      apply lookup_delete_Some in Hlook as [Hne Hlook].
      destruct (Hcoh k n Hlook) as (Hk & stored & Hin & Hsame).
      split; [exact Hk |]. exists stored. split; [| exact Hsame].
      apply list_elem_of_filter. split; [| exact Hin].
      rewrite (same_fields_id _ _ Hsame). congruence.
  - revert kg Hcoh.
    apply maintains_addEdge; [apply coherent_getNode | apply coherent_saveKnowledgeEdge].
  - unfold deleteEdge. destruct (String.eqb edgeId ""); [exact Hcoh |].
    unfold deleteKnowledgeEdge, bind, getKnowledgeEdges, set_edges, ret. simpl.
    destruct (_ =? _)%nat; exact Hcoh.
  - revert kg Hcoh. apply maintains_getConnectedNodes, coherent_getNode.
Qed.

Lemma reachable_coherent (kg : KG) : reachable kg -> coherent kg.
Proof.
  induction 1 as [|c kg Hreach IH].
  - intros k n Hlook. simpl in Hlook. rewrite lookup_empty in Hlook. discriminate.
  - apply coherent_run_call, IH.
Qed.

Lemma NoDup_map_same {A : Type} (f : A -> string) (l : list A) (x y : A) :
  NoDup (map f l) -> In x l -> In y l -> f x = f y -> x = y.
Proof.
  induction l as [|z l IH]; simpl; [contradiction |].
  intros Hnd. apply NoDup_cons in Hnd as [Hz Hnd].
  intros [<- | Hx] [<- | Hy] Heq; [reflexivity | | | apply IH; assumption].
  - exfalso. apply Hz. rewrite Heq. apply list_elem_of_In, in_map, Hy.
  - exfalso. apply Hz. rewrite <- Heq. apply list_elem_of_In, in_map, Hx.
Qed.

(** What [getNode(k)] answers on a reachable state. *)
Lemma getNode_scan (kg : KG) (k : string) :
  reachable kg ->
  match fst (getNode k kg) with
  | Ok (Some n) =>
      Node.id n = k /\
      exists stored,
        List.find (node_has_id k) (nodes (storageManager kg)) = Some stored /\
        same_fields stored n
  | Ok None => ~ has_id (nodes (storageManager kg)) k
  | Throw _ => k = ""
  end.
Proof.
  intros Hreach.
  pose proof (reachable_coherent kg Hreach) as Hcoh.
  pose proof (unique_ids_reachable kg Hreach) as [Hnd _].
  unfold getNode. destruct (String.eqb_spec k "") as [-> | Hk]; [reflexivity |].
  unfold bind, memo_get, getKnowledgeNodes, memo_set, ret. simpl.
  pose proof (find_has_id k (nodes (storageManager kg))) as Hfind.
  destruct (nodeMemo kg !! k) as [n|] eqn:Hmemo; simpl.
  - destruct (Hcoh k n Hmemo) as (Hid & stored & Hin & Hsame).
    split; [exact Hid |].
    destruct (List.find (node_has_id k) (nodes (storageManager kg))) as [s|].
    + destruct Hfind as [Hs Hsid]. exists s. split; [reflexivity |].
      replace s with stored; [exact Hsame |].
      apply (NoDup_map_same Node.id (nodes (storageManager kg))); auto.
      * apply list_elem_of_In, Hin.
      * apply list_elem_of_In, Hs.
      * rewrite (same_fields_id _ _ Hsame). congruence.
    + exfalso. apply Hfind. exists stored. split; [exact Hin |].
      rewrite (same_fields_id _ _ Hsame). exact Hid.
  - destruct (List.find (node_has_id k) (nodes (storageManager kg))) as [s|]; simpl.
    + destruct Hfind as [Hs Hsid]. split; [exact Hsid |].
      exists s. split; [reflexivity | apply same_fields_refl].
    + exact Hfind.
Qed.

(** X10. In every state that the graph reaches, [getNode(k)] answers as a
    scan of the stored nodes would, up to the stamps [createdAt] and
    [updatedAt]: when it returns a node, that node has the id [k] and the
    fields of the stored node of id [k]; it returns [null] only when no
    stored node has the id [k]; and it throws only for the missing id. *)
Theorem getNode_agrees_with_store (kg : KG) (k : string) :
  reachable kg ->
  match fst (getNode k kg) with
  | Ok (Some n) =>
      Node.id n = k /\
      exists stored,
        List.find (node_has_id k) (nodes (storageManager kg)) = Some stored /\
        same_fields stored n
  | Ok None => ~ has_id (nodes (storageManager kg)) k
  | Throw _ => k = ""
  end.
Proof. apply getNode_scan. Qed.

(** [getNode('B')] on the chain, where [B] is cached. *)
Lemma getNode_agrees_with_store_witness :
  match fst (getNode "B" chain_graph) with
  | Ok (Some n) =>
      Node.id n = "B" /\
      exists stored,
        List.find (node_has_id "B") (nodes (storageManager chain_graph)) = Some stored /\
        same_fields stored n
  | Ok None => ~ has_id (nodes (storageManager chain_graph)) "B"
  | Throw _ => "B" = ""
  end.
Proof.
  apply (getNode_agrees_with_store chain_graph "B"). apply reachable_chain_graph.
Defined.

(** ** Life cycle: adding and updating a node *)

Lemma cached_getNode (k k' : string) (n : Node.t) (ns : list Node.t) :
  maintains (fun kg => nodeMemo kg !! k = Some n /\ nodes (storageManager kg) = ns)
            (getNode k').
Proof.
  intros kg [Hmemo Hns]. rewrite getNode_store. split; [| exact Hns].
  unfold getNode. destruct (String.eqb k' ""); [exact Hmemo |].
  unfold bind, memo_get, getKnowledgeNodes, memo_set, ret. simpl.
  destruct (nodeMemo kg !! k') eqn:Hk'; [exact Hmemo |].
  destruct (List.find _ _); [| exact Hmemo]. simpl.
  rewrite lookup_insert_ne; [exact Hmemo | congruence].
Qed.

Lemma cached_saveKnowledgeEdge (k : string) (n : Node.t) (ns : list Node.t)
    (now : Z) (edge : Edge.t) :
  maintains (fun kg => nodeMemo kg !! k = Some n /\ nodes (storageManager kg) = ns)
            (saveKnowledgeEdge now edge).
Proof.
  intros kg H. destruct (saveKnowledgeEdge_run now edge kg) as (r & es' & -> & _).
  exact H.
Qed.

Lemma getNode_cached (k : string) (n : Node.t) (kg : KG) :
  k <> "" -> nodeMemo kg !! k = Some n -> getNode k kg = (Ok (Some n), kg).
Proof.
  intros Hk Hmemo. unfold getNode. rewrite (eqb_empty_false _ Hk).
  unfold bind, memo_get, ret. simpl. rewrite Hmemo. reflexivity.
Qed.

Lemma findIndex_None_find {A : Type} (p : A -> bool) (l : list A) :
  findIndex p l = None -> List.find p l = None.
Proof.
  intros Hnone. destruct (List.find p l) as [x|] eqn:Hfind; [| reflexivity].
  apply find_some in Hfind as [Hin Hp].
  rewrite (findIndex_None p l Hnone x Hin) in Hp. discriminate.
Qed.

(** After [saveKnowledgeNode(node)], a scan for the id of the node finds
    the node, up to the stamps. *)
Lemma saveKnowledgeNode_then_find (now : Z) (node : Node.t) (kg : KG) :
  Node.id node <> "" ->
  exists stored,
    List.find (node_has_id (Node.id node))
      (nodes (storageManager (snd (saveKnowledgeNode now node kg)))) = Some stored /\
    same_fields stored node.
Proof.
  intros Hid.
  destruct (saveKnowledgeNode_cases now node kg Hid)
    as [(i & old & Hfind & Hold & Hsame & ->) | (Hnone & ->)]; simpl.
  - exists (spread_saved_node old node now). split; [| apply same_fields_spread].
    apply find_insert_found; [exact Hfind | apply node_has_id_eq; reflexivity].
  - exists (stamp_new_node node now). split; [| apply same_fields_stamp].
    apply find_push_missing; [exact Hnone | apply node_has_id_eq; reflexivity].
Qed.

(** X11. After [addNode(data)] with an id that is not empty, whether the
    automatic connections succeeded or threw, [getNode] of the id returns
    the node as [addNode] built it (from the cache), and a scan of the
    stored nodes finds it, up to the stamps. Without [autoConnect] the
    call returns the id. *)
Theorem addNode_then_getNode (now : Z) (rnd : nat -> string) (nodeData : NodeData.t)
    (kg : KG) :
  new_node_id rnd nodeData <> "" ->
  let nodeId := new_node_id rnd nodeData in
  let kg' := snd (addNode now rnd nodeData kg) in
  getNode nodeId kg' = (Ok (Some (new_node now rnd nodeData)), kg') /\
  (exists stored,
     List.find (node_has_id nodeId) (nodes (storageManager kg')) = Some stored /\
     same_fields stored (new_node now rnd nodeData)) /\
  match NodeData.autoConnect nodeData with
  | None => fst (addNode now rnd nodeData kg) = Ok nodeId
  | Some _ => True
  end.
Proof.
  intros Hid nodeId kg'.
  set (node := new_node now rnd nodeData).
  assert (Hnode : Node.id node <> "") by exact Hid.
  destruct (saveKnowledgeNode_then_find now node kg Hnode) as (stored & Hfind & Hsame).
  destruct (saveKnowledgeNode_run now node kg Hnode) as (ns' & Hrun & _).
  rewrite Hrun in Hfind. simpl in Hfind.
  set (P := fun kg0 : KG =>
              nodeMemo kg0 !! nodeId = Some node /\ nodes (storageManager kg0) = ns').
  assert (Hkept : P kg').
  { unfold kg', addNode. fold node. fold nodeId.
    unfold bind at 1. rewrite Hrun. unfold bind at 1. unfold memo_set at 1.
    cbv beta iota.
    match goal with
    | |- P (snd (bind ?m ?k ?s)) => apply (maintains_bind P m k)
    end.
    - destruct (NodeData.autoConnect nodeData); [| apply maintains_ret].
      apply maintains_autoConnect_loop;
        [intros k; apply cached_getNode | intros t e; apply cached_saveKnowledgeEdge].
    - intros a. apply maintains_ret.
    - split; [apply lookup_insert_eq | reflexivity]. }
  destruct Hkept as [Hmemo Hnodes].
  split; [apply getNode_cached; assumption |].
  split; [exists stored; rewrite Hnodes; auto |].
  destruct (NodeData.autoConnect nodeData) eqn:Hauto; [exact I |].
  unfold addNode. rewrite Hauto. fold node. unfold bind at 1. rewrite Hrun. reflexivity.
Qed.

(** Adding [D] to the chain with a connection to an id that no node has. *)
Lemma addNode_then_getNode_witness :
  let nodeId := new_node_id no_uuid data_with_ghost in
  let kg' := snd (addNode 9 no_uuid data_with_ghost chain_graph) in
  getNode nodeId kg' = (Ok (Some (new_node 9 no_uuid data_with_ghost)), kg') /\
  (exists stored,
     List.find (node_has_id nodeId) (nodes (storageManager kg')) = Some stored /\
     same_fields stored (new_node 9 no_uuid data_with_ghost)) /\
  match NodeData.autoConnect data_with_ghost with
  | None => fst (addNode 9 no_uuid data_with_ghost chain_graph) = Ok nodeId
  | Some _ => True
  end.
Proof.
  apply (addNode_then_getNode 9 no_uuid data_with_ghost chain_graph). discriminate.
Defined.

Lemma same_fields_sym (a b : Node.t) : same_fields a b -> same_fields b a.
Proof. unfold same_fields. intuition congruence. Qed.

Lemma same_fields_trans (a b c : Node.t) :
  same_fields a b -> same_fields b c -> same_fields a c.
Proof. unfold same_fields. intuition congruence. Qed.

Lemma updated_from_id (now : Z) (nodeId : string) (updates : Updates.t) (n : Node.t) :
  Node.id (updated_from now nodeId updates n) = nodeId.
Proof. unfold updated_from. destruct (content_or_title_given updates); reflexivity. Qed.

(** The updated node depends on the stamps of the old one only through
    its own stamps. *)
Lemma updated_from_same_fields (now : Z) (nodeId : string) (updates : Updates.t)
    (a b : Node.t) :
  same_fields a b ->
  same_fields (updated_from now nodeId updates a) (updated_from now nodeId updates b).
Proof.
  destruct a, b. unfold same_fields. simpl.
  intros (_ & -> & -> & -> & -> & -> & -> & -> & ->).
  unfold updated_from. destruct (content_or_title_given updates); simpl;
    repeat split; reflexivity.
Qed.

Lemma has_id_find (k : string) (ns : list Node.t) :
  has_id ns k -> exists n, List.find (node_has_id k) ns = Some n.
Proof.
  intros Hhas. pose proof (find_has_id k ns) as Hfind.
  destruct (List.find (node_has_id k) ns) as [n|]; [eauto | contradiction].
Qed.

(** X12. [updateNode(k, updates)] on a reachable state that stores a node
    of id [k]: the call returns the stored node with the updates spread
    over it, the id [k], the stamp [updatedAt] and, when a content or a
    non-empty title is given, a recomputed preview (whatever the cache
    held). The node collection keeps its length, a scan for [k] finds the
    returned node up to the stamps, a scan for any other id finds what it
    found before, the edges are untouched, and [getNode(k)] afterwards
    returns the returned node. *)
Theorem updateNode_stored (now : Z) (nodeId : string) (updates : Updates.t) (kg : KG) :
  reachable kg ->
  has_id (nodes (storageManager kg)) nodeId ->
  exists old updated kg',
    List.find (node_has_id nodeId) (nodes (storageManager kg)) = Some old /\
    updateNode now nodeId updates kg = (Ok updated, kg') /\
    same_fields updated (updated_from now nodeId updates old) /\
    Node.updatedAt updated = Some now /\
    (exists stored,
       List.find (node_has_id nodeId) (nodes (storageManager kg')) = Some stored /\
       same_fields stored updated) /\
    length (nodes (storageManager kg')) = length (nodes (storageManager kg)) /\
    (forall k, k <> nodeId ->
       List.find (node_has_id k) (nodes (storageManager kg')) =
       List.find (node_has_id k) (nodes (storageManager kg))) /\
    edges (storageManager kg') = edges (storageManager kg) /\
    getNode nodeId kg' = (Ok (Some updated), kg').
Proof.
  intros Hreach Hhas.
  assert (Hk : nodeId <> "").
  { destruct Hhas as (n & Hn & <-). apply (inv_ids kg (reachable_Inv kg Hreach) n Hn). }
  destruct (has_id_find nodeId _ Hhas) as (old & Hold).
  pose proof (getNode_scan kg nodeId Hreach) as Hscan.
  pose proof (getNode_store nodeId kg) as Hstore.
  destruct (getNode nodeId kg) as [[[n|] | e] kg1] eqn:Hget; simpl in Hscan, Hstore;
    [| contradiction | contradiction].
  destruct Hscan as (Hidn & stored & Hstored & Hsame).
  rewrite Hold in Hstored. injection Hstored as <-.
  set (u := updated_from now nodeId updates n).
  assert (Hu : Node.id u = nodeId) by apply updated_from_id.
  assert (Hrun : updateNode now nodeId updates kg =
                 (Ok u, mkKG (storageManager (snd (saveKnowledgeNode now u kg1)))
                          (<[nodeId := u]> (nodeMemo (snd (saveKnowledgeNode now u kg1)))))).
  { unfold updateNode. rewrite (eqb_empty_false _ Hk). unfold bind at 1. rewrite Hget.
    fold (updated_from now nodeId updates n). fold u.
    assert (Hne : Node.id u <> "") by (rewrite Hu; exact Hk).
    unfold bind at 1.
    destruct (saveKnowledgeNode_cases now u kg1 Hne)
      as [(i & o & _ & _ & _ & ->) | (_ & ->)]; reflexivity. }
  exists old, u. eexists. split; [exact Hold |]. split; [exact Hrun |].
  split; [apply updated_from_same_fields, same_fields_sym, Hsame |].
  split; [unfold u, updated_from; destruct (content_or_title_given updates); reflexivity |].
  assert (Hne : Node.id u <> "") by (rewrite Hu; exact Hk).
  simpl storageManager.
  destruct (saveKnowledgeNode_cases now u kg1 Hne)
    as [(i & o & Hfind & Ho & Hido & Hsave) | (Hnone & Hsave)];
    rewrite Hu in *; rewrite Hstore in *.
  - rewrite Hsave. simpl.
    split; [exists (spread_saved_node o u now); split;
            [apply find_insert_found;
             [exact Hfind | apply node_has_id_eq; simpl; exact Hu]
            | apply same_fields_spread] |].
    split; [apply length_insert |].
    split.
    { intros k Hne'. apply (find_insert_other (node_has_id k) (node_has_id k) _ i o); auto.
      - destruct (node_has_id k o) eqn:E; [| reflexivity].
        apply node_has_id_eq in E. congruence.
      - destruct (node_has_id k (spread_saved_node o u now)) eqn:E; [| reflexivity].
        apply node_has_id_eq in E. simpl in E. congruence. }
    split; [reflexivity |].
    apply getNode_cached; [exact Hk | apply lookup_insert_eq].
  - apply findIndex_None_find in Hnone. congruence.
Qed.

(** Retitling the middle node of the chain. *)
Lemma updateNode_stored_witness :
  exists old updated kg',
    List.find (node_has_id "B") (nodes (storageManager chain_graph)) = Some old /\
    updateNode 7 "B" (retitle "Go Channels") chain_graph = (Ok updated, kg') /\
    same_fields updated (updated_from 7 "B" (retitle "Go Channels") old) /\
    Node.updatedAt updated = Some 7%Z /\
    (exists stored,
       List.find (node_has_id "B") (nodes (storageManager kg')) = Some stored /\
       same_fields stored updated) /\
    length (nodes (storageManager kg')) = length (nodes (storageManager chain_graph)) /\
    (forall k, k <> "B" ->
       List.find (node_has_id k) (nodes (storageManager kg')) =
       List.find (node_has_id k) (nodes (storageManager chain_graph))) /\
    edges (storageManager kg') = edges (storageManager chain_graph) /\
    getNode "B" kg' = (Ok (Some updated), kg').
Proof.
  apply (updateNode_stored 7 "B" (retitle "Go Channels") chain_graph).
  - apply reachable_chain_graph.
  - apply has_id_elem_of. rewrite chain_graph_ids. apply elem_of_cons. right.
    apply elem_of_cons. left. reflexivity.
Defined.

(** X13. [updateNode(k, updates)] on a reachable state that stores no node
    of id [k] throws, and changes neither the store nor the cache; for an
    id that is not empty the message is [Node not found: k]. *)
Theorem updateNode_unknown (now : Z) (nodeId : string) (updates : Updates.t) (kg : KG) :
  reachable kg ->
  ~ has_id (nodes (storageManager kg)) nodeId ->
  exists msg,
    updateNode now nodeId updates kg = (Throw msg, kg) /\
    (nodeId = "" \/ msg = "Node not found: " ++ nodeId)%string.
Proof.
  intros Hreach Hnot. unfold updateNode.
  destruct (String.eqb_spec nodeId "") as [-> | Hk].
  - eexists. split; [reflexivity | left; reflexivity].
  - destruct (getNode_run nodeId kg (reachable_Inv kg Hreach) Hk)
      as (r & memo' & Hget & _ & _ & Hnone).
    destruct (Hnone Hnot) as [-> ->].
    unfold bind. rewrite Hget. destruct kg. eexists. split; [reflexivity | right; reflexivity].
Qed.

(** Updating a node that the chain does not have. *)
Lemma updateNode_unknown_witness :
  exists msg,
    updateNode 7 "Z" (retitle "Zeta") chain_graph = (Throw msg, chain_graph) /\
    ("Z" = "" \/ msg = "Node not found: " ++ "Z")%string.
Proof.
  apply (updateNode_unknown 7 "Z" (retitle "Zeta") chain_graph).
  - apply reachable_chain_graph.
  - intros H. apply has_id_elem_of in H. rewrite chain_graph_ids in H.
    repeat (apply elem_of_cons in H as [H | H]; [discriminate |]).
    inversion H.
Defined.

(** ** Life cycle: deleting a node *)

(** X14. [deleteNode(x)] on a reachable state that stores a node of id [x]
    returns [true]; it leaves the stored nodes of the other ids, in their
    order, and the stored edges that have [x] neither as source nor as
    target, in their order; afterwards no node has the id [x], and
    [getNode(x)] returns [null]. *)
Theorem deleteNode_stored (x : string) (kg : KG) :
  reachable kg ->
  has_id (nodes (storageManager kg)) x ->
  exists kg',
    deleteNode x kg = (Ok true, kg') /\
    nodes (storageManager kg') = without_node x (nodes (storageManager kg)) /\
    edges (storageManager kg') = without_edges_of x (edges (storageManager kg)) /\
    ~ has_id (nodes (storageManager kg')) x /\
    getNode x kg' = (Ok None, kg').
Proof.
  intros Hreach Hhas.
  assert (Hx : x <> "").
  { destruct Hhas as (n & Hn & <-). apply (inv_ids kg (reachable_Inv kg Hreach) n Hn). }
  destruct (deleteNode_run x kg Hx) as [_ Htrue].
  assert (Hlen : length (without_node x (nodes (storageManager kg)))
                 <> length (nodes (storageManager kg))).
  { intros Hlen. apply not_has_id_length in Hlen. contradiction. }
  specialize (Htrue Hlen).
  assert (Hgone : ~ has_id (without_node x (nodes (storageManager kg))) x).
  { intros (n & Hn & Hk). apply list_elem_of_filter in Hn as [Hne _]. contradiction. }
  eexists. split; [exact Htrue |]. simpl.
  split; [reflexivity |]. split; [reflexivity |]. split; [exact Hgone |].
  assert (Hreach' : reachable (run_call (CallDeleteNode x) kg)) by (apply reachable_call, Hreach).
  simpl in Hreach'. rewrite Htrue in Hreach'. simpl in Hreach'.
  destruct (getNode_run x _ (reachable_Inv _ Hreach') Hx) as (r & memo' & Hget & _ & _ & Hnone).
  destruct (Hnone Hgone) as [-> ->]. exact Hget.
Qed.

(** Deleting the middle node of the chain. *)
Lemma deleteNode_stored_witness :
  exists kg',
    deleteNode "B" chain_graph = (Ok true, kg') /\
    nodes (storageManager kg') = without_node "B" (nodes (storageManager chain_graph)) /\
    edges (storageManager kg') = without_edges_of "B" (edges (storageManager chain_graph)) /\
    ~ has_id (nodes (storageManager kg')) "B" /\
    getNode "B" kg' = (Ok None, kg').
Proof.
  apply (deleteNode_stored "B" chain_graph).
  - apply reachable_chain_graph.
  - apply has_id_elem_of. rewrite chain_graph_ids. apply elem_of_cons. right.
    apply elem_of_cons. left. reflexivity.
Defined.

(** ** Life cycle of the edges *)

Lemma getNode_resolves (k : string) (kg : KG) :
  Inv kg -> k <> "" ->
  exists r kg1,
    getNode k kg = (Ok r, kg1) /\ Inv kg1 /\
    storageManager kg1 = storageManager kg /\
    (has_id (nodes (storageManager kg)) k <-> exists n, r = Some n).
Proof.
  intros HInv Hk.
  destruct (getNode_run k kg HInv Hk) as (r & memo' & Hget & HInv' & Hiff & _).
  exists r. eexists. split; [exact Hget |]. split; [exact HInv' |].
  split; [reflexivity | exact Hiff].
Qed.

Lemma new_edge_id_not_empty (now : Z) (uuid s t : string) (edgeData : EdgeData.t) :
  Edge.id (new_edge now uuid s t edgeData) <> "".
Proof.
  simpl. destruct (EdgeData.id edgeData) as [k|]; simpl.
  - destruct (String.eqb_spec k "") as [-> | Hk]; [| exact Hk].
    destruct s; discriminate.
  - destruct s; discriminate.
Qed.

Lemma find_edge_has_id (k : string) (es : list Edge.t) :
  match List.find (edge_has_id k) es with
  | Some e => e ∈ es /\ Edge.id e = k
  | None => ~ has_edge_id es k
  end.
Proof.
  destruct (List.find (edge_has_id k) es) as [e|] eqn:Hfind.
  - apply find_some in Hfind as [Hin Hp]. split; [apply list_elem_of_In, Hin |].
    apply edge_has_id_eq, Hp.
  - intros (e & He & Hk). apply list_elem_of_In in He.
    pose proof (find_none _ _ Hfind e He) as Hp.
    apply edge_has_id_eq in Hk. congruence.
Qed.

Lemma same_edge_fields_spread (old edge : Edge.t) (now : Z) :
  same_edge_fields (spread_saved_edge old edge now) edge.
Proof. repeat split. Qed.

Lemma same_edge_fields_stamp (edge : Edge.t) (now : Z) :
  same_edge_fields (stamp_new_edge edge now) edge.
Proof. repeat split. Qed.

Lemma edge_has_id_neq (k : string) (e : Edge.t) :
  Edge.id e <> k -> edge_has_id k e = false.
Proof.
  intros Hne. destruct (edge_has_id k e) eqn:E; [| reflexivity].
  apply edge_has_id_eq in E. contradiction.
Qed.

(** X15. [addEdge(edgeData)] on a reachable state, where [edgeData.source]
    or [edgeData.target] is missing, empty, or the id of no stored node:
    the call throws, and the stored nodes and edges are as before. *)
Theorem addEdge_rejected (now : Z) (uuid : string) (edgeData : EdgeData.t) (kg : KG) :
  reachable kg ->
  ~ (resolves kg (EdgeData.source edgeData) /\ resolves kg (EdgeData.target edgeData)) ->
  exists msg kg',
    addEdge now uuid edgeData kg = (Throw msg, kg') /\
    storageManager kg' = storageManager kg.
Proof.
  intros Hreach Hnot. pose proof (reachable_Inv kg Hreach) as HInv.
  unfold addEdge.
  destruct (Js.truthy (EdgeData.source edgeData)) eqn:Hs; simpl;
    [| eexists; eexists; split; reflexivity].
  destruct (Js.truthy (EdgeData.target edgeData)) eqn:Ht; simpl;
    [| eexists; eexists; split; reflexivity].
  apply truthy_or_str in Hs as [Hs Hsne]. apply truthy_or_str in Ht as [Ht Htne].
  set (s := Js.or_str (EdgeData.source edgeData) "") in *.
  set (t := Js.or_str (EdgeData.target edgeData) "") in *.
  destruct (getNode_resolves s kg HInv Hsne) as (r1 & kg1 & Hg1 & HInv1 & Hst1 & Hiff1).
  destruct (getNode_resolves t kg1 HInv1 Htne) as (r2 & kg2 & Hg2 & HInv2 & Hst2 & Hiff2).
  unfold bind at 1. rewrite Hg1. unfold bind at 1. rewrite Hg2.
  destruct r1 as [n1|]; [| eexists; eexists; split; [reflexivity | congruence]].
  destruct r2 as [n2|]; [| eexists; eexists; split; [reflexivity | congruence]].
  exfalso. apply Hnot. split.
  - exists s. split; [exact Hs | apply Hiff1; eauto].
  - exists t. split; [exact Ht |]. rewrite <- Hst1. apply Hiff2. eauto.
Qed.

(** An edge from [A] to a node that the chain does not have. *)
Lemma addEdge_rejected_witness :
  exists msg kg',
    addEdge 6 (no_uuid 0) (edge_of "A" "ghost") chain_graph = (Throw msg, kg') /\
    storageManager kg' = storageManager chain_graph.
Proof.
  apply (addEdge_rejected 6 (no_uuid 0) (edge_of "A" "ghost") chain_graph).
  - apply reachable_chain_graph.
  - intros [_ (t & Ht & Hhas)]. injection Ht as <-.
    apply has_id_elem_of in Hhas. rewrite chain_graph_ids in Hhas.
    repeat (apply elem_of_cons in Hhas as [Hhas | Hhas]; [discriminate |]).
    inversion Hhas.
Defined.

(** X16. [addEdge(edgeData)] on a reachable state that stores the nodes
    [edgeData.source] and [edgeData.target]: the call returns the id of
    the edge, which is not empty; the nodes are untouched; [getEdge] of
    that id returns the edge as [addEdge] built it, up to the stamps;
    [getEdge] of any other id returns what it returned before; and the
    edge collection has one more edge when the id was not stored, and as
    many as before when it was. *)
Theorem addEdge_then_getEdge (now : Z) (uuid : string) (edgeData : EdgeData.t)
    (s t : string) (kg : KG) :
  reachable kg ->
  EdgeData.source edgeData = Some s ->
  EdgeData.target edgeData = Some t ->
  has_id (nodes (storageManager kg)) s ->
  has_id (nodes (storageManager kg)) t ->
  let edge := new_edge now uuid s t edgeData in
  exists kg',
    addEdge now uuid edgeData kg = (Ok (Edge.id edge), kg') /\
    Edge.id edge <> "" /\
    nodes (storageManager kg') = nodes (storageManager kg) /\
    (exists stored,
       fst (getEdge (Edge.id edge) kg') = Ok (Some stored) /\
       same_edge_fields stored edge) /\
    (forall k, k <> Edge.id edge -> fst (getEdge k kg') = fst (getEdge k kg)) /\
    length (edges (storageManager kg')) =
      match List.find (edge_has_id (Edge.id edge)) (edges (storageManager kg)) with
      | Some _ => length (edges (storageManager kg))
      | None => S (length (edges (storageManager kg)))
      end.
Proof.
  intros Hreach Hs Ht Hhs Hht edge. pose proof (reachable_Inv kg Hreach) as HInv.
  assert (Hsne : s <> "").
  { destruct Hhs as (n & Hn & <-). apply (inv_ids kg HInv n Hn). }
  assert (Htne : t <> "").
  { destruct Hht as (n & Hn & <-). apply (inv_ids kg HInv n Hn). }
  assert (Hidne : Edge.id edge <> "") by apply new_edge_id_not_empty.
  destruct (getNode_resolves s kg HInv Hsne) as (r1 & kg1 & Hg1 & HInv1 & Hst1 & Hiff1).
  destruct (getNode_resolves t kg1 HInv1 Htne) as (r2 & kg2 & Hg2 & HInv2 & Hst2 & Hiff2).
  apply Hiff1 in Hhs as [n1 ->]. rewrite <- Hst1 in Hht. apply Hiff2 in Hht as [n2 ->].
  assert (Hrun : addEdge now uuid edgeData kg =
                 (Ok (Edge.id edge), snd (saveKnowledgeEdge now edge kg2))).
  { unfold addEdge. rewrite Hs, Ht. unfold Js.truthy, Js.or_str.
    rewrite (eqb_empty_false _ Hsne), (eqb_empty_false _ Htne). cbn [negb orb].
    unfold bind at 1. rewrite Hg1. unfold bind at 1. rewrite Hg2.
    fold edge. unfold bind at 1.
    destruct (saveKnowledgeEdge_cases now edge kg2 Hidne Hsne Htne)
      as [(i & o & _ & _ & _ & ->) | (_ & ->)]; reflexivity. }
  eexists. split; [exact Hrun |]. split; [exact Hidne |].
  assert (Hedges : edges (storageManager kg2) = edges (storageManager kg)) by congruence.
  assert (Hnodes : nodes (storageManager kg2) = nodes (storageManager kg)) by congruence.
  unfold getEdge. rewrite (eqb_empty_false _ Hidne).
  unfold bind, getKnowledgeEdges, ret. simpl fst.
  destruct (saveKnowledgeEdge_cases now edge kg2 Hidne Hsne Htne)
    as [(i & o & Hfind & Ho & Hido & ->) | (Hnone & ->)]; simpl; rewrite Hedges in *.
  - split; [exact Hnodes |].
    split; [exists (spread_saved_edge o edge now); split;
            [f_equal; apply find_insert_found;
             [exact Hfind | apply edge_has_id_eq; reflexivity]
            | apply same_edge_fields_spread] |].
    split.
    + intros k Hk. destruct (String.eqb k ""); [reflexivity |]. simpl. f_equal.
      apply (find_insert_other (edge_has_id k) (edge_has_id k) _ i o);
        [exact Ho | |];
        apply edge_has_id_neq; [rewrite Hido | change (Edge.id edge <> k)];
        intros E; apply Hk; symmetry; exact E.
    + rewrite length_insert.
      destruct (List.find _ _) eqn:Hf; [reflexivity |].
      destruct (findIndex_Some _ _ _ Hfind) as (x & Hx & Hp).
      assert (Hin : In x (edges (storageManager kg))).
      { apply list_elem_of_In. eapply list_elem_of_lookup_2, Hx. }
      pose proof (find_none _ _ Hf x Hin) as Hq.
      change (edge_has_id (Edge.id edge) x = false) in Hq. congruence.
  - split; [exact Hnodes |].
    split; [exists (stamp_new_edge edge now); split;
            [f_equal; apply find_push_missing;
             [exact Hnone | apply edge_has_id_eq; reflexivity]
            | apply same_edge_fields_stamp] |].
    split.
    + intros k Hk. destruct (String.eqb k ""); [reflexivity |]. simpl. f_equal.
      apply find_push_other. apply edge_has_id_neq. change (Edge.id edge <> k).
      intros E. apply Hk. symmetry. exact E.
    + pose proof (findIndex_None_find _ _ Hnone) as Hf.
      match goal with
      | |- context [List.find ?p ?l] =>
          replace (List.find p l) with (@None Edge.t) by (symmetry; exact Hf)
      end.
      rewrite length_app. simpl. lia.
Qed.

(** A second edge from [A] to [B] on the chain. *)
Lemma addEdge_then_getEdge_witness :
  let edge := new_edge 6 (no_uuid 1) "A" "B" (edge_of "A" "B") in
  exists kg',
    addEdge 6 (no_uuid 1) (edge_of "A" "B") chain_graph = (Ok (Edge.id edge), kg') /\
    Edge.id edge <> "" /\
    nodes (storageManager kg') = nodes (storageManager chain_graph) /\
    (exists stored,
       fst (getEdge (Edge.id edge) kg') = Ok (Some stored) /\
       same_edge_fields stored edge) /\
    (forall k, k <> Edge.id edge -> fst (getEdge k kg') = fst (getEdge k chain_graph)) /\
    length (edges (storageManager kg')) =
      match List.find (edge_has_id (Edge.id edge)) (edges (storageManager chain_graph)) with
      | Some _ => length (edges (storageManager chain_graph))
      | None => S (length (edges (storageManager chain_graph)))
      end.
Proof.
  apply (addEdge_then_getEdge 6 (no_uuid 1) (edge_of "A" "B") "A" "B" chain_graph).
  - apply reachable_chain_graph.
  - reflexivity.
  - reflexivity.
  - apply has_id_elem_of. rewrite chain_graph_ids. apply elem_of_cons. left. reflexivity.
  - apply has_id_elem_of. rewrite chain_graph_ids. apply elem_of_cons. right.
    apply elem_of_cons. left. reflexivity.
Defined.

(** X17. [deleteEdge(k)] for an id that is not empty never throws. It
    returns [true] exactly when some stored edge has the id [k]; it leaves
    the stored edges of the other ids, in their order, and touches neither
    the nodes nor the cache; afterwards [getEdge(k)] returns [null]. *)
Theorem deleteEdge_effect (k : string) (kg : KG) :
  k <> "" ->
  exists b kg',
    deleteEdge k kg = (Ok b, kg') /\
    (b = true <-> has_edge_id (edges (storageManager kg)) k) /\
    edges (storageManager kg') = filter (fun e => Edge.id e ≠ k) (edges (storageManager kg)) /\
    nodes (storageManager kg') = nodes (storageManager kg) /\
    nodeMemo kg' = nodeMemo kg /\
    fst (getEdge k kg') = Ok None.
Proof.
  intros Hk. unfold deleteEdge. rewrite (eqb_empty_false _ Hk).
  unfold deleteKnowledgeEdge, bind, getKnowledgeEdges, set_edges, ret. simpl.
  set (es := edges (storageManager kg)).
  assert (Hgone : List.find (edge_has_id k) (filter (fun e => Edge.id e ≠ k) es) = None).
  { pose proof (find_edge_has_id k (filter (fun e => Edge.id e ≠ k) es)) as Hf.
    destruct (List.find _ _) as [e|]; [| reflexivity].
    destruct Hf as [He Hid]. apply list_elem_of_filter in He as [Hne _]. contradiction. }
  destruct (Nat.eqb_spec (length (filter (fun e => Edge.id e ≠ k) es)) (length es))
    as [Hlen | Hlen].
  - apply filter_same_length in Hlen.
    exists false, kg. split; [reflexivity |].
    split.
    { split; [discriminate |]. intros (e & He & Hid). rewrite <- Hlen in He.
      apply list_elem_of_filter in He as [Hne _]. contradiction. }
    split; [symmetry; exact Hlen |]. split; [reflexivity |]. split; [reflexivity |].
    unfold getEdge. rewrite (eqb_empty_false _ Hk). unfold bind, getKnowledgeEdges, ret.
    simpl. fold es. rewrite <- Hlen, Hgone. reflexivity.
  - eexists true, _. split; [reflexivity |]. simpl.
    split.
    { split; [intros _ | reflexivity].
      pose proof (find_edge_has_id k es) as Hf.
      destruct (List.find (edge_has_id k) es) as [e|] eqn:Hfind.
      - exists e. exact Hf.
      - exfalso. apply Hlen. f_equal. apply filter_all.
        intros e He Hid. apply Hf. exists e. auto. }
    split; [reflexivity |]. split; [reflexivity |]. split; [reflexivity |].
    unfold getEdge. rewrite (eqb_empty_false _ Hk). unfold bind, getKnowledgeEdges, ret.
    simpl. rewrite Hgone. reflexivity.
Qed.

(** Deleting the first edge of the chain. *)
Lemma deleteEdge_effect_witness :
  exists b kg',
    deleteEdge "A-B-00000000" chain_graph = (Ok b, kg') /\
    (b = true <-> has_edge_id (edges (storageManager chain_graph)) "A-B-00000000") /\
    edges (storageManager kg') =
      filter (fun e => Edge.id e ≠ "A-B-00000000") (edges (storageManager chain_graph)) /\
    nodes (storageManager kg') = nodes (storageManager chain_graph) /\
    nodeMemo kg' = nodeMemo chain_graph /\
    fst (getEdge "A-B-00000000" kg') = Ok None.
Proof.
  apply (deleteEdge_effect "A-B-00000000" chain_graph). discriminate.
Defined.

(** ** The storage manager: import, export, reset and migration *)

Lemma id_in_nodes_spec (ns : list Node.t) (i : string) :
  id_in_nodes ns i = true <-> has_id ns i.
Proof.
  unfold id_in_nodes, has_id. rewrite existsb_exists. split.
  - intros (n & Hn & Hp). exists n. split; [apply list_elem_of_In, Hn |].
    apply node_has_id_eq, Hp.
  - intros (n & Hn & Hp). exists n. split; [apply list_elem_of_In, Hn |].
    apply node_has_id_eq, Hp.
Qed.

Lemma id_in_edges_spec (es : list Edge.t) (i : string) :
  id_in_edges es i = true <-> has_edge_id es i.
Proof.
  unfold id_in_edges, has_edge_id. rewrite existsb_exists. split.
  - intros (e & He & Hp). exists e. split; [apply list_elem_of_In, He |].
    apply edge_has_id_eq, Hp.
  - intros (e & He & Hp). exists e. split; [apply list_elem_of_In, He |].
    apply edge_has_id_eq, Hp.
Qed.

Lemma id_in_nodes_app (a b : list Node.t) (i : string) :
  id_in_nodes (a ++ b) i = id_in_nodes a i || existsb (node_has_id i) b.
Proof. apply existsb_app. Qed.

Lemma has_id_app (a b : list Node.t) (i : string) :
  has_id (a ++ b) i <-> has_id a i \/ has_id b i.
Proof.
  unfold has_id. split.
  - intros (n & Hn & Hi). apply elem_of_app in Hn as [Hn | Hn]; eauto.
  - intros [(n & Hn & Hi) | (n & Hn & Hi)]; exists n; (split; [| exact Hi]);
      apply elem_of_app; auto.
Qed.

Lemma filter_none {A : Type} (p : A -> bool) (l : list A) :
  (forall x, In x l -> p x = false) -> List.filter p l = [].
Proof.
  induction l as [|x r IH]; intros Hall; simpl; [reflexivity |].
  rewrite (Hall x (or_introl eq_refl)). apply IH. intros y Hy. apply Hall. right. exact Hy.
Qed.

Lemma filter_every {A : Type} (p : A -> bool) (l : list A) :
  (forall x, In x l -> p x = true) -> List.filter p l = l.
Proof.
  induction l as [|x r IH]; intros Hall; simpl; [reflexivity |].
  rewrite (Hall x (or_introl eq_refl)). f_equal. apply IH. intros y Hy. apply Hall.
  right. exact Hy.
Qed.

(** What [importData] computes, for data with a [nodes] array. *)
Lemma importData_run (d : ImportData.t) (importedNodes : list Node.t) (kg : KG) :
  ImportData.nodes d = Some importedNodes ->
  let ns := nodes (storageManager kg) in
  let es := edges (storageManager kg) in
  let newNodes :=
    List.filter (fun node => negb (id_in_nodes ns (Node.id node))) importedNodes in
  let newEdges :=
    List.filter (importable_edge ns newNodes es) (Js.or_obj (ImportData.edges d) []) in
  importData d kg =
    (Ok (ImportReport.mk (length newNodes) (length newEdges)
           (length (ns ++ newNodes)) (length (es ++ newEdges))),
     mkKG (mkStore (ns ++ newNodes) (es ++ newEdges)) (nodeMemo kg)).
Proof. intros Hd. unfold importData. rewrite Hd. reflexivity. Qed.

Lemma importable_edge_spec (ns newNodes : list Node.t) (es : list Edge.t) (e : Edge.t) :
  importable_edge ns newNodes es e = true <->
  ~ has_edge_id es (Edge.id e) /\
  has_id (ns ++ newNodes) (Edge.source e) /\ has_id (ns ++ newNodes) (Edge.target e).
Proof.
  unfold importable_edge.
  rewrite <- !id_in_nodes_spec, !id_in_nodes_app, <- id_in_edges_spec.
  destruct (id_in_edges es (Edge.id e)).
  - split; [discriminate | intros [H _]; exfalso; apply H; reflexivity].
  - rewrite andb_true_iff. split; [intros H; split; [discriminate | exact H] | tauto].
Qed.

(** X18. [importData(data)] with a [nodes] array never throws. It appends
    to the stored nodes the imported nodes whose id no stored node has
    (all of them, repeated ids included, when none of their ids is stored),
    and to the stored edges the imported edges whose id no stored edge has
    and whose two ends are ids of nodes of the merged collection. What was
    stored stays in place, the cache is untouched, every imported node id
    is stored afterwards, and the report counts the added and the merged
    records. *)
Theorem importData_merge (d : ImportData.t) (importedNodes : list Node.t) (kg : KG) :
  ImportData.nodes d = Some importedNodes ->
  exists newNodes newEdges kg',
    importData d kg =
      (Ok (ImportReport.mk (length newNodes) (length newEdges)
             (length (nodes (storageManager kg')))
             (length (edges (storageManager kg')))), kg') /\
    nodes (storageManager kg') = nodes (storageManager kg) ++ newNodes /\
    edges (storageManager kg') = edges (storageManager kg) ++ newEdges /\
    nodeMemo kg' = nodeMemo kg /\
    (forall n, n ∈ newNodes <->
       n ∈ importedNodes /\ ~ has_id (nodes (storageManager kg)) (Node.id n)) /\
    (forall e, e ∈ newEdges <->
       e ∈ Js.or_obj (ImportData.edges d) [] /\
       ~ has_edge_id (edges (storageManager kg)) (Edge.id e) /\
       has_id (nodes (storageManager kg')) (Edge.source e) /\
       has_id (nodes (storageManager kg')) (Edge.target e)) /\
    (forall n, n ∈ importedNodes -> has_id (nodes (storageManager kg')) (Node.id n)) /\
    ((forall n, n ∈ importedNodes -> ~ has_id (nodes (storageManager kg)) (Node.id n)) ->
       newNodes = importedNodes).
Proof.
  intros Hd. pose proof (importData_run d importedNodes kg Hd) as Hrun.
  cbv zeta in Hrun.
  set (ns := nodes (storageManager kg)) in *.
  set (es := edges (storageManager kg)) in *.
  set (newNodes := List.filter (fun node => negb (id_in_nodes ns (Node.id node)))
                     importedNodes) in *.
  set (newEdges := List.filter (importable_edge ns newNodes es)
                     (Js.or_obj (ImportData.edges d) [])) in *.
  assert (Hnew : forall n, n ∈ newNodes <-> n ∈ importedNodes /\ ~ has_id ns (Node.id n)).
  { intros n. unfold newNodes. rewrite !list_elem_of_In, filter_In, negb_true_iff.
    rewrite <- id_in_nodes_spec. destruct (id_in_nodes ns (Node.id n)); intuition congruence. }
  exists newNodes, newEdges,
    (mkKG (mkStore (ns ++ newNodes) (es ++ newEdges)) (nodeMemo kg)).
  split; [exact Hrun |]. simpl.
  split; [reflexivity |]. split; [reflexivity |]. split; [reflexivity |].
  split; [exact Hnew |].
  split.
  { intros e. unfold newEdges. rewrite !list_elem_of_In, filter_In, importable_edge_spec.
    reflexivity. }
  split.
  { intros n Hn. apply has_id_app.
    destruct (id_in_nodes ns (Node.id n)) eqn:E.
    - left. apply id_in_nodes_spec, E.
    - right. exists n. split; [| reflexivity]. apply Hnew. split; [exact Hn |].
      intros H. apply id_in_nodes_spec in H. congruence. }
  intros Hall. unfold newNodes. apply filter_every. intros n Hn.
  apply negb_true_iff. destruct (id_in_nodes ns (Node.id n)) eqn:E; [| reflexivity].
  exfalso. apply (Hall n); [apply list_elem_of_In, Hn | apply id_in_nodes_spec, E].
Qed.

(** Importing two nodes into the chain. *)
Lemma importData_merge_witness :
  exists newNodes newEdges kg',
    importData two_nodes_export chain_graph =
      (Ok (ImportReport.mk (length newNodes) (length newEdges)
             (length (nodes (storageManager kg')))
             (length (edges (storageManager kg')))), kg') /\
    nodes (storageManager kg') = nodes (storageManager chain_graph) ++ newNodes /\
    edges (storageManager kg') = edges (storageManager chain_graph) ++ newEdges /\
    nodeMemo kg' = nodeMemo chain_graph /\
    (forall n, n ∈ newNodes <->
       n ∈ [node_alpha; node_beta] /\
       ~ has_id (nodes (storageManager chain_graph)) (Node.id n)) /\
    (forall e, e ∈ newEdges <->
       e ∈ Js.or_obj (ImportData.edges two_nodes_export) [] /\
       ~ has_edge_id (edges (storageManager chain_graph)) (Edge.id e) /\
       has_id (nodes (storageManager kg')) (Edge.source e) /\
       has_id (nodes (storageManager kg')) (Edge.target e)) /\
    (forall n, n ∈ [node_alpha; node_beta] ->
       has_id (nodes (storageManager kg')) (Node.id n)) /\
    ((forall n, n ∈ [node_alpha; node_beta] ->
        ~ has_id (nodes (storageManager chain_graph)) (Node.id n)) ->
       newNodes = [node_alpha; node_beta]).
Proof.
  apply (importData_merge two_nodes_export [node_alpha; node_beta] chain_graph).
  reflexivity.
Defined.

(** X19. [importData] keeps the integrity of the store: when both ends of
    every stored edge are ids of stored nodes before the import, they are
    so afterwards, whatever edges the imported data lists. *)
Theorem importData_ends_stored (d : ImportData.t) (kg : KG) :
  ends_stored (nodes (storageManager kg)) (edges (storageManager kg)) ->
  ends_stored (nodes (storageManager (snd (importData d kg))))
              (edges (storageManager (snd (importData d kg)))).
Proof.
  intros Hends. destruct (ImportData.nodes d) as [importedNodes|] eqn:Hd.
  - rewrite (importData_run d importedNodes kg Hd). simpl.
    intros e He. apply elem_of_app in He as [He | He].
    + destruct (Hends e He) as [Hs Ht]. split; apply has_id_app; left; assumption.
    + apply list_elem_of_In, filter_In in He as [_ He].
      apply importable_edge_spec in He as (_ & Hs & Ht). split; assumption.
  - unfold importData. rewrite Hd. exact Hends.
Qed.

(** Importing, into the chain, an edge whose target is not stored. *)
Lemma importData_ends_stored_witness :
  ends_stored (nodes (storageManager chain_graph)) (edges (storageManager chain_graph)) /\
  ends_stored
    (nodes (storageManager (snd (importData
       (ImportData.mk (Some [node_alpha])
          (Some [Edge.mk "e1" "a" "ghost" "related" "" 1 false 0 None None]))
       chain_graph))))
    (edges (storageManager (snd (importData
       (ImportData.mk (Some [node_alpha])
          (Some [Edge.mk "e1" "a" "ghost" "related" "" 1 false 0 None None]))
       chain_graph)))).
Proof.
  split.
  - exact (inv_edges chain_graph (reachable_Inv chain_graph reachable_chain_graph)).
  - apply (importData_ends_stored _ chain_graph).
    exact (inv_edges chain_graph (reachable_Inv chain_graph reachable_chain_graph)).
Defined.

(** X20. Importing the same data a second time adds nothing: the second
    call reports no added node and no added edge, and leaves the store as
    the first call left it. *)
Theorem importData_twice (d : ImportData.t) (importedNodes : list Node.t) (kg : KG) :
  ImportData.nodes d = Some importedNodes ->
  let kg1 := snd (importData d kg) in
  importData d kg1 =
    (Ok (ImportReport.mk 0 0 (length (nodes (storageManager kg1)))
           (length (edges (storageManager kg1)))), kg1).
Proof.
  intros Hd kg1. unfold kg1. rewrite (importData_run d importedNodes kg Hd). simpl snd.
  set (ns := nodes (storageManager kg)).
  set (es := edges (storageManager kg)).
  set (newNodes := List.filter (fun node => negb (id_in_nodes ns (Node.id node)))
                     importedNodes).
  set (newEdges := List.filter (importable_edge ns newNodes es)
                     (Js.or_obj (ImportData.edges d) [])).
  rewrite (importData_run d importedNodes _ Hd). simpl.
  assert (Hnodes : List.filter
                     (fun node => negb (id_in_nodes (ns ++ newNodes) (Node.id node)))
                     importedNodes = []).
  { apply filter_none. intros n Hn. apply negb_false_iff. rewrite id_in_nodes_app.
    destruct (id_in_nodes ns (Node.id n)) eqn:E; [reflexivity |]. simpl.
    apply existsb_exists. exists n. split; [| apply node_has_id_eq; reflexivity].
    apply filter_In. split; [exact Hn |]. rewrite E. reflexivity. }
  rewrite Hnodes.
  assert (Hedges : List.filter (importable_edge (ns ++ newNodes) [] (es ++ newEdges))
                     (Js.or_obj (ImportData.edges d) []) = []).
  { apply filter_none. intros e He. unfold importable_edge.
    unfold id_in_edges at 1. rewrite existsb_app. fold (id_in_edges es (Edge.id e)).
    destruct (id_in_edges es (Edge.id e)) eqn:Eid; [reflexivity |]. simpl orb.
    destruct (existsb (edge_has_id (Edge.id e)) newEdges) eqn:Enew; [reflexivity |].
    assert (Hout : importable_edge ns newNodes es e = false).
    { destruct (importable_edge ns newNodes es e) eqn:Himp; [| reflexivity].
      assert (Hin : In e newEdges) by (apply filter_In; split; assumption).
      rewrite <- Enew. symmetry. apply existsb_exists. exists e.
      split; [exact Hin | apply edge_has_id_eq; reflexivity]. }
    unfold importable_edge in Hout. rewrite Eid in Hout.
    rewrite !id_in_nodes_app. simpl existsb. rewrite !orb_false_r. exact Hout. }
  rewrite Hedges. rewrite !app_nil_r. reflexivity.
Qed.

(** Importing two nodes into the chain, twice. *)
Lemma importData_twice_witness :
  let kg1 := snd (importData two_nodes_export chain_graph) in
  importData two_nodes_export kg1 =
    (Ok (ImportReport.mk 0 0 (length (nodes (storageManager kg1)))
           (length (edges (storageManager kg1)))), kg1).
Proof.
  apply (importData_twice two_nodes_export [node_alpha; node_beta] chain_graph).
  reflexivity.
Defined.

(** X21. Export, reset, import: on a store where both ends of every edge
    are ids of stored nodes, [exportAllData], then [clearAllData], then
    [importData] of the export, restores the node collection and the edge
    collection as they were, and reports every record as added. *)
Theorem export_clear_import (kg : KG) :
  ends_stored (nodes (storageManager kg)) (edges (storageManager kg)) ->
  (exported <- exportAllData ;; clearAllData ;; importData exported)%kg kg =
    (Ok (ImportReport.mk (length (nodes (storageManager kg)))
           (length (edges (storageManager kg)))
           (length (nodes (storageManager kg)))
           (length (edges (storageManager kg)))), kg).
Proof.
  intros Hends. destruct kg as [[ns es] memo]. simpl in Hends. simpl nodes. simpl edges.
  unfold bind at 1. unfold exportAllData, bind, getKnowledgeNodes, getKnowledgeEdges, ret.
  cbn [storageManager nodes edges]. unfold clearAllData, bind, set_collections, ret.
  cbn [nodeMemo].
  rewrite (importData_run (ImportData.mk (Some ns) (Some es)) ns _ eq_refl).
  cbn [storageManager nodes edges nodeMemo].
  cbn [ImportData.edges Js.or_obj].
  assert (Hnodes : List.filter (fun node => negb (id_in_nodes [] (Node.id node))) ns = ns).
  { apply filter_every. reflexivity. }
  rewrite Hnodes.
  assert (Hedges : List.filter (importable_edge [] ns []) es = es).
  { apply filter_every. intros e He. apply importable_edge_spec. simpl.
    split; [intros (x & Hx & _); inversion Hx |].
    apply Hends, list_elem_of_In, He. }
  rewrite Hedges. reflexivity.
Qed.

(** The round trip on the chain. *)
Lemma export_clear_import_witness :
  (exported <- exportAllData ;; clearAllData ;; importData exported)%kg chain_graph =
    (Ok (ImportReport.mk (length (nodes (storageManager chain_graph)))
           (length (edges (storageManager chain_graph)))
           (length (nodes (storageManager chain_graph)))
           (length (edges (storageManager chain_graph)))), chain_graph).
Proof.
  apply (export_clear_import chain_graph).
  exact (inv_edges chain_graph (reachable_Inv chain_graph reachable_chain_graph)).
Defined.

Lemma or_Z_not_zero (o : option Z) (d : Z) : d <> 0%Z -> Js.or_Z o d <> 0%Z.
Proof.
  intros Hd. destruct o as [v|]; simpl; [| exact Hd].
  destruct (Z.eqb_spec v 0); [exact Hd | assumption].
Qed.

Lemma or_Z_keep (v d : Z) : v <> 0%Z -> Js.or_Z (Some v) d = v.
Proof. intros Hv. simpl. destruct (Z.eqb_spec v 0); [contradiction | reflexivity]. Qed.

Lemma or_Z_twice (o : option Z) (d d' : Z) :
  d <> 0%Z -> Js.or_Z (Some (Js.or_Z o d)) d' = Js.or_Z o d.
Proof. intros Hd. apply or_Z_keep, or_Z_not_zero, Hd. Qed.

Lemma migrate_node_twice (now now' : Z) (n : Node.t) :
  now <> 0%Z -> migrate_node now' (migrate_node now n) = migrate_node now n.
Proof.
  intros Hnow. unfold migrate_node.
  cbn [Node.id Node.title Node.content Node.url Node.timestamp Node.source
       Node.categories Node.tags Node.preview Node.createdAt Node.updatedAt].
  rewrite !or_Z_twice by exact Hnow. reflexivity.
Qed.

Lemma migrate_edge_twice (now now' : Z) (e : Edge.t) :
  now <> 0%Z -> migrate_edge now' (migrate_edge now e) = migrate_edge now e.
Proof.
  intros Hnow. unfold migrate_edge.
  cbn [Edge.id Edge.source Edge.target Edge.type Edge.label Edge.weight
       Edge.bidirectional Edge.timestamp Edge.createdAt Edge.updatedAt].
  rewrite !or_Z_twice by exact Hnow. reflexivity.
Qed.

Lemma migrate_node_stamped (now : Z) (n : Node.t) :
  stamped (Node.createdAt n) (Node.updatedAt n) -> migrate_node now n = n.
Proof.
  intros (c & u & Hc & Hu & Hc0 & Hu0). destruct n.
  cbn [Node.createdAt Node.updatedAt] in Hc, Hu. subst. unfold migrate_node.
  cbn [Node.id Node.title Node.content Node.url Node.timestamp Node.source
       Node.categories Node.tags Node.preview Node.createdAt Node.updatedAt].
  rewrite !or_Z_keep by assumption. reflexivity.
Qed.

Lemma migrate_edge_stamped (now : Z) (e : Edge.t) :
  stamped (Edge.createdAt e) (Edge.updatedAt e) -> migrate_edge now e = e.
Proof.
  intros (c & u & Hc & Hu & Hc0 & Hu0). destruct e.
  cbn [Edge.createdAt Edge.updatedAt] in Hc, Hu. subst. unfold migrate_edge.
  cbn [Edge.id Edge.source Edge.target Edge.type Edge.label Edge.weight
       Edge.bidirectional Edge.timestamp Edge.createdAt Edge.updatedAt].
  rewrite !or_Z_keep by assumption. reflexivity.
Qed.

(** X22. [migrateToV1] with a clock [now] that is not [0]: every stored
    node and edge keeps its place and its fields, and has both stamps set
    afterwards; a node or an edge that had both stamps is unchanged, in
    its place; and a second migration, at whatever time, changes
    nothing. *)
Theorem migrateToV1_stamps (now now' : Z) (kg : KG) :
  now <> 0%Z ->
  let kg1 := snd (migrateToV1 now kg) in
  fst (migrateToV1 now kg) = Ok true /\
  Forall2 same_fields (nodes (storageManager kg1)) (nodes (storageManager kg)) /\
  Forall2 same_edge_fields (edges (storageManager kg1)) (edges (storageManager kg)) /\
  Forall (fun n => stamped (Node.createdAt n) (Node.updatedAt n))
         (nodes (storageManager kg1)) /\
  Forall (fun e => stamped (Edge.createdAt e) (Edge.updatedAt e))
         (edges (storageManager kg1)) /\
  Forall2 (fun migrated n =>
             stamped (Node.createdAt n) (Node.updatedAt n) -> migrated = n)
          (nodes (storageManager kg1)) (nodes (storageManager kg)) /\
  Forall2 (fun migrated e =>
             stamped (Edge.createdAt e) (Edge.updatedAt e) -> migrated = e)
          (edges (storageManager kg1)) (edges (storageManager kg)) /\
  migrateToV1 now' kg1 = (Ok true, kg1).
Proof.
  intros Hnow kg1. unfold kg1.
  unfold migrateToV1, bind, getKnowledgeNodes, getKnowledgeEdges, set_collections, ret.
  simpl.
  split; [reflexivity |].
  split.
  { induction (nodes (storageManager kg)); simpl; constructor; [| assumption].
    repeat split. }
  split.
  { induction (edges (storageManager kg)); simpl; constructor; [| assumption].
    repeat split. }
  split.
  { apply Forall_map, Forall_forall. intros n _. simpl.
    exists (Js.or_Z (Node.createdAt n) now), (Js.or_Z (Node.updatedAt n) now).
    repeat split; apply or_Z_not_zero, Hnow. }
  split.
  { apply Forall_map, Forall_forall. intros e _. simpl.
    exists (Js.or_Z (Edge.createdAt e) now), (Js.or_Z (Edge.updatedAt e) now).
    repeat split; apply or_Z_not_zero, Hnow. }
  split.
  { induction (nodes (storageManager kg)); simpl; constructor; [| assumption].
    apply migrate_node_stamped. }
  split.
  { induction (edges (storageManager kg)); simpl; constructor; [| assumption].
    apply migrate_edge_stamped. }
  f_equal. f_equal. f_equal.
  - rewrite map_map. apply map_ext. intros n. apply migrate_node_twice, Hnow.
  - rewrite map_map. apply map_ext. intros e. apply migrate_edge_twice, Hnow.
Qed.

(** Migrating the chain at time [50], then at time [60]. *)
Lemma migrateToV1_stamps_witness :
  let kg1 := snd (migrateToV1 50 chain_graph) in
  fst (migrateToV1 50 chain_graph) = Ok true /\
  Forall2 same_fields (nodes (storageManager kg1)) (nodes (storageManager chain_graph)) /\
  Forall2 same_edge_fields (edges (storageManager kg1))
          (edges (storageManager chain_graph)) /\
  Forall (fun n => stamped (Node.createdAt n) (Node.updatedAt n))
         (nodes (storageManager kg1)) /\
  Forall (fun e => stamped (Edge.createdAt e) (Edge.updatedAt e))
         (edges (storageManager kg1)) /\
  Forall2 (fun migrated n =>
             stamped (Node.createdAt n) (Node.updatedAt n) -> migrated = n)
          (nodes (storageManager kg1)) (nodes (storageManager chain_graph)) /\
  Forall2 (fun migrated e =>
             stamped (Edge.createdAt e) (Edge.updatedAt e) -> migrated = e)
          (edges (storageManager kg1)) (edges (storageManager chain_graph)) /\
  migrateToV1 60 kg1 = (Ok true, kg1).
Proof.
  apply (migrateToV1_stamps 50 60 chain_graph). discriminate.
Defined.

(** ** Insights *)

(** The loop of [getNodesForInsight] over ids that are not empty: it
    collects, in order, the nodes of the ids that are stored. *)
Lemma collect_nodes_run (nodeIds : list string) (found : list Node.t) (kg : KG) :
  reachable kg ->
  Forall (fun k => k <> "") nodeIds ->
  exists more kg',
    collect_nodes nodeIds found kg = (Ok (found ++ more), kg') /\
    reachable kg' /\
    storageManager kg' = storageManager kg /\
    map Node.id more = List.filter (id_in_nodes (nodes (storageManager kg))) nodeIds /\
    Forall (fun n => exists stored,
              stored ∈ nodes (storageManager kg) /\ same_fields stored n) more.
Proof.
  revert found kg. induction nodeIds as [|k rest IH]; intros found kg Hreach Hne.
  - exists [], kg. simpl. rewrite app_nil_r. repeat split; auto.
  - apply Forall_cons in Hne as [Hk Hrest].
    pose proof (getNode_scan kg k Hreach) as Hscan.
    pose proof (getNode_store k kg) as Hstore.
    assert (Hreach1 : reachable (snd (getNode k kg))).
    { apply (reachable_call (CallGetNode k) kg Hreach). }
    cbn [collect_nodes]. unfold bind at 1.
    destruct (getNode k kg) as [[[n|] | e] kg1] eqn:Hget; cbn [fst snd] in *;
      [| | contradiction].
    + destruct Hscan as (Hid & stored & Hfind & Hsame).
      destruct (IH (found ++ [n]) kg1 Hreach1 Hrest)
        as (more & kg' & Hrun & Hreach' & Hstore' & Hids & Hall).
      exists (n :: more), kg'. rewrite Hrun, <- app_assoc. simpl app.
      split; [reflexivity |]. split; [exact Hreach' |].
      split; [congruence |]. rewrite Hstore in Hids, Hall.
      apply find_some in Hfind as [Hin _].
      split.
      * simpl. replace (id_in_nodes (nodes (storageManager kg)) k) with true.
        -- rewrite Hid, Hids. reflexivity.
        -- symmetry. apply id_in_nodes_spec. exists stored.
           split; [apply list_elem_of_In, Hin |].
           rewrite (same_fields_id _ _ Hsame). exact Hid.
      * constructor; [| exact Hall]. exists stored.
        split; [apply list_elem_of_In, Hin | exact Hsame].
    + destruct (IH found kg1 Hreach1 Hrest)
        as (more & kg' & Hrun & Hreach' & Hstore' & Hids & Hall).
      exists more, kg'. rewrite Hrun.
      split; [reflexivity |]. split; [exact Hreach' |].
      split; [congruence |]. rewrite Hstore in Hids, Hall.
      split; [| exact Hall].
      simpl. replace (id_in_nodes (nodes (storageManager kg)) k) with false; [exact Hids |].
      symmetry. destruct (id_in_nodes (nodes (storageManager kg)) k) eqn:E; [| reflexivity].
      apply id_in_nodes_spec in E. contradiction.
Qed.

(** The loop throws when one of the ids is the empty string. *)
Lemma collect_nodes_empty_id (nodeIds : list string) (found : list Node.t) (kg : KG) :
  In "" nodeIds ->
  exists msg kg',
    collect_nodes nodeIds found kg = (Throw msg, kg') /\
    storageManager kg' = storageManager kg.
Proof.
  revert found kg. induction nodeIds as [|k rest IH]; intros found kg Hin; [contradiction |].
  cbn [collect_nodes]. unfold bind at 1.
  pose proof (getNode_store k kg) as Hstore.
  destruct (String.eqb_spec k "") as [-> | Hk].
  - eexists. eexists. split; reflexivity.
  - destruct Hin as [-> | Hin]; [contradiction |].
    destruct (getNode k kg) as [[node | e] kg1]; cbn [snd] in Hstore.
    + destruct (IH (match node with Some n => found ++ [n] | None => found end) kg1 Hin)
        as (msg & kg' & Hrun & Hstore').
      exists msg, kg'. split; [exact Hrun | congruence].
    + exists e, kg1. split; [reflexivity | exact Hstore].
Qed.

(** X23. [getNodesForInsight({nodeIds})] on a reachable state, for an
    array of ids that is not empty: the call never throws and does not
    change the store. When one of the ids is the empty string the answer
    is the empty array; otherwise the answer holds, in the order of the
    request and with its repetitions, one node for each requested id that
    is stored, each with the fields of a stored node. *)
Theorem getNodesForInsight_by_ids (now : Z) (options : InsightOptions.t)
    (k : string) (ks : list string) (kg : KG) :
  reachable kg ->
  InsightOptions.nodeIds options = Some (k :: ks) ->
  exists found kg',
    getNodesForInsight now options kg = (Ok (map StoredNode found), kg') /\
    storageManager kg' = storageManager kg /\
    (if existsb (String.eqb "") (k :: ks) then found = []
     else map Node.id found =
            List.filter (id_in_nodes (nodes (storageManager kg))) (k :: ks)) /\
    Forall (fun n => exists stored,
              stored ∈ nodes (storageManager kg) /\ same_fields stored n) found.
Proof.
  intros Hreach Hids. unfold getNodesForInsight. rewrite Hids. cbn [search_option].
  unfold try_catch. unfold bind at 1.
  destruct (existsb (String.eqb "") (k :: ks)) eqn:Hempty.
  - apply existsb_exists in Hempty as (x & Hx & Heq). apply String.eqb_eq in Heq. subst x.
    destruct (collect_nodes_empty_id (k :: ks) [] kg Hx) as (msg & kg' & -> & Hstore).
    exists [], kg'. split; [reflexivity |]. split; [exact Hstore |].
    split; [reflexivity | constructor].
  - assert (Hne : Forall (fun x => x <> "") (k :: ks)).
    { apply Forall_forall. intros x Hx ->.
      assert (Hex : existsb (String.eqb "") (k :: ks) = true).
      { apply existsb_exists. exists "".
        split; [apply list_elem_of_In, Hx | reflexivity]. }
      congruence. }
    destruct (collect_nodes_run (k :: ks) [] kg Hreach Hne)
      as (more & kg' & -> & _ & Hstore & Hmap & Hall).
    exists more, kg'. split; [reflexivity |]. split; [exact Hstore |].
    split; [exact Hmap | exact Hall].
Qed.

(** Asking the chain for [C], for an unknown id and for [A]. *)
Lemma getNodesForInsight_by_ids_witness :
  exists found kg',
    getNodesForInsight 9 (insight_by_ids ["C"; "ghost"; "A"]) chain_graph =
      (Ok (map StoredNode found), kg') /\
    storageManager kg' = storageManager chain_graph /\
    (if existsb (String.eqb "") ["C"; "ghost"; "A"] then found = []
     else map Node.id found =
            List.filter (id_in_nodes (nodes (storageManager chain_graph)))
                        ["C"; "ghost"; "A"]) /\
    Forall (fun n => exists stored,
              stored ∈ nodes (storageManager chain_graph) /\ same_fields stored n) found.
Proof.
  apply (getNodesForInsight_by_ids 9 (insight_by_ids ["C"; "ghost"; "A"])
           "C" ["ghost"; "A"] chain_graph).
  - apply reachable_chain_graph.
  - reflexivity.
Defined.

(** X24. [getNodesForInsight] without ids, with categories and tags that
    make a blank query, and with a time range: the elements that [search]
    returns for a blank query have no [timestamp], so the filter on the
    time range drops them all, and the answer is the empty array whatever
    is stored. *)
Theorem getNodesForInsight_blank_time_range (now : Z) (options : InsightOptions.t)
    (range : Z) (kg : KG) :
  search_option (InsightOptions.nodeIds options) [] = [] ->
  blank_query (insight_query (search_option (InsightOptions.categories options) [])
                             (search_option (InsightOptions.tags options) [])) = true ->
  InsightOptions.timeRange options = Some range ->
  range <> 0%Z ->
  getNodesForInsight now options kg = (Ok [], kg).
Proof.
  intros Hids Hblank Hrange Hnz. unfold getNodesForInsight.
  rewrite Hids, Hrange. apply Z.eqb_neq in Hnz. rewrite Hnz.
  cbv beta iota zeta delta [try_catch bind search getKnowledgeNodes ret].
  rewrite filter_none; [reflexivity |].
  intros item Hitem.
  pose proof (search_blank_items_empty (nodes (storageManager kg)) _
                (insight_search_options
                   (search_option (InsightOptions.limit options) 20)) Hblank) as Hall.
  rewrite Forall_forall in Hall. rewrite (Hall item); [reflexivity |].
  apply list_elem_of_In, Hitem.
Qed.

(** The nodes of the last hour of the chain, at time [4]. *)
Lemma getNodesForInsight_blank_time_range_witness :
  getNodesForInsight 4 (insight_recent 3600000) chain_graph = (Ok [], chain_graph).
Proof.
  apply (getNodesForInsight_blank_time_range 4 (insight_recent 3600000) 3600000 chain_graph).
  - reflexivity.
  - reflexivity.
  - reflexivity.
  - discriminate.
Defined.

(** [addEdge] returns exactly when both ends resolve. *)
Lemma addEdge_outcome (now : Z) (uuid : string) (edgeData : EdgeData.t) (kg : KG) :
  Inv kg ->
  exists r kg',
    addEdge now uuid edgeData kg = (r, kg') /\
    Inv kg' /\
    nodes (storageManager kg') = nodes (storageManager kg) /\
    ((exists k, r = Ok k) <->
     resolves kg (EdgeData.source edgeData) /\ resolves kg (EdgeData.target edgeData)).
Proof.
  intros HInv.
  assert (Hnot_empty : forall o, Js.truthy o = false -> ~ resolves kg o).
  { intros o Ho (s & -> & n & Hn & <-). simpl in Ho.
    apply negb_false_iff, String.eqb_eq in Ho. apply (inv_ids kg HInv n Hn), Ho. }
  unfold addEdge.
  destruct (Js.truthy (EdgeData.source edgeData)) eqn:Hs; cbn [negb orb].
  2:{ exists (Throw "Edge must have source and target node IDs"), kg.
      split; [reflexivity |]. split; [exact HInv |]. split; [reflexivity |].
      split; [intros [k Hk]; discriminate | intros [H _]].
      exfalso. apply (Hnot_empty _ Hs H). }
  destruct (Js.truthy (EdgeData.target edgeData)) eqn:Ht; cbn [negb orb].
  2:{ exists (Throw "Edge must have source and target node IDs"), kg.
      split; [reflexivity |]. split; [exact HInv |]. split; [reflexivity |].
      split; [intros [k Hk]; discriminate | intros [_ H]].
      exfalso. apply (Hnot_empty _ Ht H). }
  apply truthy_or_str in Hs as [Hs Hsne]. apply truthy_or_str in Ht as [Ht Htne].
  set (s := Js.or_str (EdgeData.source edgeData) "") in *.
  set (t := Js.or_str (EdgeData.target edgeData) "") in *.
  destruct (getNode_resolves s kg HInv Hsne) as (r1 & kg1 & Hg1 & HInv1 & Hst1 & Hiff1).
  destruct (getNode_resolves t kg1 HInv1 Htne) as (r2 & kg2 & Hg2 & HInv2 & Hst2 & Hiff2).
  rewrite Hst1 in Hiff2.
  assert (Hres_s : resolves kg (EdgeData.source edgeData)
                   <-> has_id (nodes (storageManager kg)) s).
  { unfold resolves. rewrite Hs. split; [intros (x & [= <-] & H); exact H | eauto]. }
  assert (Hres_t : resolves kg (EdgeData.target edgeData)
                   <-> has_id (nodes (storageManager kg)) t).
  { unfold resolves. rewrite Ht. split; [intros (x & [= <-] & H); exact H | eauto]. }
  unfold bind at 1. rewrite Hg1. unfold bind at 1. rewrite Hg2.
  destruct r1 as [n1|].
  2:{ eexists. eexists. split; [reflexivity |]. split; [exact HInv2 |].
      split; [congruence |].
      split; [intros [k Hk]; discriminate | intros [H _]].
      apply Hres_s, Hiff1 in H as [n Hn]. discriminate. }
  destruct r2 as [n2|].
  2:{ eexists. eexists. split; [reflexivity |]. split; [exact HInv2 |].
      split; [congruence |].
      split; [intros [k Hk]; discriminate | intros [_ H]].
      apply Hres_t, Hiff2 in H as [n Hn]. discriminate. }
  assert (Hhs : has_id (nodes (storageManager kg)) s) by (apply Hiff1; eauto).
  assert (Hht : has_id (nodes (storageManager kg)) t) by (apply Hiff2; eauto).
  set (edge := new_edge now uuid s t edgeData).
  assert (Hst : storageManager kg2 = storageManager kg) by congruence.
  destruct (saveKnowledgeEdge_Inv now edge kg2 HInv2) as [HInv3 Hnodes3];
    [rewrite Hst; exact Hhs | rewrite Hst; exact Hht |].
  unfold bind at 1.
  destruct (saveKnowledgeEdge_cases now edge kg2 (new_edge_id_not_empty now uuid s t edgeData)
              Hsne Htne) as [(i & o & _ & _ & _ & Hsave) | (_ & Hsave)];
    rewrite Hsave in *; cbn [snd] in *;
    (eexists; eexists; split; [reflexivity |]; split; [exact HInv3 |];
     split; [rewrite Hnodes3, Hst; reflexivity |];
     split; [intros _; split; [apply Hres_s, Hhs | apply Hres_t, Hht] | eauto]).
Qed.

(** The loop of [addInsightNode] over the related nodes returns exactly
    when each of them is stored. *)
Lemma relatedNodes_loop_outcome (now : Z) (rnd : nat -> string) (insightId : string)
    (relatedNodes : list string) (i : nat) (kg : KG) :
  Inv kg ->
  has_id (nodes (storageManager kg)) insightId ->
  exists r kg',
    relatedNodes_loop now rnd i insightId relatedNodes kg = (r, kg') /\
    Inv kg' /\
    nodes (storageManager kg') = nodes (storageManager kg) /\
    ((exists u, r = Ok u) <->
     forall t, t ∈ relatedNodes -> has_id (nodes (storageManager kg)) t).
Proof.
  revert i kg. induction relatedNodes as [|t rest IH]; intros i kg HInv Hid.
  - exists (Ok tt), kg. split; [reflexivity |]. split; [exact HInv |].
    split; [reflexivity |]. split; [intros _ t Ht; inversion Ht | eauto].
  - cbn [relatedNodes_loop]. unfold bind at 1.
    destruct (addEdge_outcome now (rnd i) (insight_edge insightId t) kg HInv)
      as (r1 & kg1 & Hrun1 & HInv1 & Hnodes1 & Hiff1).
    rewrite Hrun1.
    assert (Hres : (exists k, r1 = Ok k) <-> has_id (nodes (storageManager kg)) t).
    { rewrite Hiff1. unfold resolves. simpl. split.
      - intros [_ (x & [= <-] & H)]. exact H.
      - intros H. split; eauto. }
    destruct r1 as [k | e].
    + rewrite <- Hnodes1 in Hid.
      destruct (IH (S i) kg1 HInv1 Hid) as (r & kg' & Hrun & HInv' & Hnodes' & Hiff).
      exists r, kg'. split; [exact Hrun |]. split; [exact HInv' |].
      split; [congruence |]. rewrite Hiff, Hnodes1. split.
      * intros Hall x Hx. apply elem_of_cons in Hx as [-> | Hx]; [| apply Hall, Hx].
        apply Hres. eauto.
      * intros Hall x Hx. apply Hall, elem_of_cons. right. exact Hx.
    + exists (Throw e), kg1. split; [reflexivity |]. split; [exact HInv1 |].
      split; [exact Hnodes1 |].
      split; [intros [u Hu]; discriminate | intros Hall].
      assert (Hok : exists k, @Throw string e = Ok k).
      { apply Hres, Hall, elem_of_cons. left. reflexivity. }
      destruct Hok as [k Hk]. discriminate.
Qed.

(** X25. [addInsightNode(data)] on a reachable state, for data with a
    content, where [uuidv4()] returns an id that is not empty. The insight
    node is stored with the source [insight] under that id, and [getNode]
    returns it afterwards, whether the call returned or threw. The call
    returns the id exactly when every id of [data.relatedNodes] is the id
    of a stored node; otherwise it throws, and the node it added stays
    stored. *)
Theorem addInsightNode_outcome (now : Z) (rnd : nat -> string)
    (insightData : InsightData.t) (content : Content.t) (kg : KG) :
  reachable kg ->
  InsightData.content insightData = Some content ->
  rnd 0 <> "" ->
  let node := new_node now rnd (insight_node content insightData) in
  exists r kg',
    addInsightNode now rnd insightData kg = (r, kg') /\
    Node.id node = rnd 0 /\
    Node.source node = "insight" /\
    getNode (rnd 0) kg' = (Ok (Some node), kg') /\
    (exists stored,
       List.find (node_has_id (rnd 0)) (nodes (storageManager kg')) = Some stored /\
       same_fields stored node) /\
    (r = Ok (rnd 0) \/ exists e, r = Throw e) /\
    (r = Ok (rnd 0) <->
     forall t, t ∈ Js.or_obj (InsightData.relatedNodes insightData) [] ->
       has_id (nodes (storageManager kg')) t).
Proof.
  intros Hreach Hcontent Hrnd node.
  pose proof (reachable_Inv kg Hreach) as HInv.
  assert (Hid : Node.id node = rnd 0) by reflexivity.
  assert (Hnode : Node.id node <> "") by (rewrite Hid; exact Hrnd).
  destruct (saveKnowledgeNode_then_find now node kg Hnode) as (stored & Hfind & Hsame).
  destruct (saveKnowledgeNode_Inv now node kg HInv Hnode) as [HInv1 Hhas1].
  destruct (saveKnowledgeNode_run now node kg Hnode) as (ns' & Hsave & _).
  rewrite Hsave in Hfind, HInv1, Hhas1. cbn [snd storageManager nodes] in Hfind, Hhas1.
  rewrite Hid in Hfind, Hhas1.
  pose proof (Inv_memo_set (rnd 0) node _ HInv1 Hhas1) as HInv2.
  set (kg2 := mkKG (mkStore ns' (edges (storageManager kg)))
                   (<[rnd 0 := node]> (nodeMemo kg))).
  change (Inv kg2) in HInv2.
  assert (Hadd : addNode now rnd (insight_node content insightData) kg = (Ok (rnd 0), kg2)).
  { unfold addNode. fold node. cbn [NodeData.autoConnect insight_node].
    unfold bind at 1. rewrite Hsave. reflexivity. }
  set (P := fun kg0 : KG =>
              nodeMemo kg0 !! rnd 0 = Some node /\ nodes (storageManager kg0) = ns').
  assert (HP2 : P kg2) by (split; [apply lookup_insert_eq | reflexivity]).
  set (relatedNodes := Js.or_obj (InsightData.relatedNodes insightData) []).
  destruct (relatedNodes_loop_outcome now rnd (rnd 0) relatedNodes 1 kg2 HInv2 Hhas1)
    as (r & kg' & Hloop & _ & Hnodes' & Hiff).
  assert (HP' : P kg').
  { replace kg' with (snd (relatedNodes_loop now rnd 1 (rnd 0) relatedNodes kg2))
      by (rewrite Hloop; reflexivity).
    apply maintains_relatedNodes_loop;
      [intros k; apply cached_getNode | intros t e; apply cached_saveKnowledgeEdge
      | exact HP2]. }
  destruct HP' as [Hmemo' Hns'].
  assert (Hrun : addInsightNode now rnd insightData kg =
                 (match r with Ok _ => Ok (rnd 0) | Throw e => Throw e end, kg')).
  { unfold addInsightNode. rewrite Hcontent. unfold bind at 1. rewrite Hadd.
    unfold bind at 1. unfold relatedNodes in Hloop.
    destruct (InsightData.relatedNodes insightData) as [related|]; cbn [Js.or_obj] in Hloop.
    - rewrite Hloop. destruct r; reflexivity.
    - cbn [relatedNodes_loop] in Hloop. injection Hloop as <- <-. reflexivity. }
  eexists. exists kg'. split; [exact Hrun |].
  split; [exact Hid |]. split; [reflexivity |].
  split; [apply getNode_cached; assumption |].
  split; [exists stored; rewrite Hns'; auto |].
  rewrite Hnodes'. cbn [storageManager nodes] in Hiff |- *.
  destruct r as [u | e].
  - split; [left; reflexivity |]. split; [intros _; apply Hiff; eauto | reflexivity].
  - split; [right; eauto |]. split; [discriminate |].
    intros Hall. apply Hiff in Hall as [u Hu]. discriminate.
Qed.

(** An insight about [A] and [C], added to the chain. *)
Lemma addInsightNode_outcome_witness :
  let node :=
    new_node 9 no_uuid
      (insight_node (Content.mk (Some "A and C are systems languages") None None)
                    chain_insight) in
  exists r kg',
    addInsightNode 9 no_uuid chain_insight chain_graph = (r, kg') /\
    Node.id node = no_uuid 0 /\
    Node.source node = "insight" /\
    getNode (no_uuid 0) kg' = (Ok (Some node), kg') /\
    (exists stored,
       List.find (node_has_id (no_uuid 0)) (nodes (storageManager kg')) = Some stored /\
       same_fields stored node) /\
    (r = Ok (no_uuid 0) \/ exists e, r = Throw e) /\
    (r = Ok (no_uuid 0) <->
     forall t, t ∈ Js.or_obj (InsightData.relatedNodes chain_insight) [] ->
       has_id (nodes (storageManager kg')) t).
Proof.
  apply (addInsightNode_outcome 9 no_uuid chain_insight
           (Content.mk (Some "A and C are systems languages") None None) chain_graph).
  - apply reachable_chain_graph.
  - reflexivity.
  - discriminate.
Defined.

(** ** The error registry *)

Lemma removelast_take {A : Type} (l : list A) : removelast l = take (length l - 1) l.
Proof.
  induction l as [|x r IH]; [reflexivity |].
  destruct r as [|y r']; [reflexivity |].
  change (removelast (x :: y :: r')) with (x :: removelast (y :: r')).
  rewrite IH. simpl. rewrite Nat.sub_0_r. reflexivity.
Qed.

(** [add] keeps the newest [maxErrors] errors. *)
Lemma registry_add_take (error : ErrorEntry.t) (r : ErrorRegistry) :
  length (errors r) <= maxErrors r ->
  registry_add error r = mkRegistry (take (maxErrors r) (error :: errors r)) (maxErrors r).
Proof.
  intros Hlen. unfold registry_add.
  destruct (Nat.ltb_spec (maxErrors r) (length (error :: errors r))) as [Hlt | Hge].
  - unfold pop. rewrite removelast_take. simpl length in *. f_equal. f_equal. lia.
  - rewrite take_ge by exact Hge. reflexivity.
Qed.

Lemma handle_all_errors (calls : list (Z * ErrorInfo.t)) (r : ErrorRegistry) :
  length (errors r) <= maxErrors r ->
  handle_all calls r =
    mkRegistry (take (maxErrors r) (rev (standardized calls) ++ errors r)) (maxErrors r).
Proof.
  revert r. induction calls as [|[t info] rest IH]; intros r Hlen.
  - simpl. rewrite take_ge by exact Hlen. destruct r. reflexivity.
  - unfold handle_all. cbn [fold_left handleError fst snd].
    fold (handle_all rest (registry_add (standard_error t info) r)).
    rewrite (registry_add_take _ r Hlen). rewrite IH; cbn [errors maxErrors].
    + f_equal. unfold standardized. cbn [map rev fst snd]. rewrite <- app_assoc.
      cbn [app].
      set (older := rev (map (fun call => standard_error (fst call) (snd call)) rest)).
      set (e := standard_error t info).
      destruct (Nat.le_gt_cases (maxErrors r) (length older)) as [Hle | Hgt].
      * rewrite !take_app_le by exact Hle. reflexivity.
      * rewrite !take_app_ge by lia. f_equal. rewrite take_take. f_equal. lia.
    + rewrite length_take. lia.
Qed.

(** X26. The registry keeps the most recent errors, newest first, and at
    most [maxErrors] of them: after any sequence of [handleError] calls on
    a new registry, it holds the first [maxErrors] of the standardized
    errors in the reverse order of the calls. *)
Theorem registry_keeps_most_recent (bound : nat) (calls : list (Z * ErrorInfo.t)) :
  errors (handle_all calls (new_registry bound)) =
    take bound (rev (standardized calls)) /\
  length (errors (handle_all calls (new_registry bound))) =
    Nat.min bound (length calls).
Proof.
  rewrite handle_all_errors by (simpl; lia). cbn [errors new_registry maxErrors].
  rewrite app_nil_r. split; [reflexivity |].
  rewrite length_take, length_rev. unfold standardized. rewrite length_map. reflexivity.
Qed.

(** X27. [getRecentErrors(limit)] after any sequence of [handleError]
    calls on a new registry of bound [bound]: it returns the newest errors
    first, [limit] of them at most (10 when the argument is omitted), never
    more than the bound; and the limit [0] is no limit at all, it returns
    everything the registry holds. *)
Theorem getRecentErrors_newest_first (bound : nat) (calls : list (Z * ErrorInfo.t))
    (limit : option nat) :
  getRecentErrors limit (handle_all calls (new_registry bound)) =
    match search_option limit 10 with
    | 0 => take bound (rev (standardized calls))
    | S n => take (Nat.min (S n) bound) (rev (standardized calls))
    end.
Proof.
  unfold getRecentErrors, getFiltered. cbn [ErrorFilter.category ErrorFilter.level
    ErrorFilter.limit Js.truthy].
  rewrite handle_all_errors by (simpl; lia). cbn [errors new_registry maxErrors].
  rewrite app_nil_r.
  destruct (search_option limit 10) as [|n]; [reflexivity |].
  cbn [Nat.ltb Nat.leb]. unfold Js.slice. rewrite drop_0, Nat.sub_0_r.
  apply take_take.
Qed.

Lemma sublist_List_filter {A : Type} (p : A -> bool) (l : list A) :
  sublist (List.filter p l) l.
Proof.
  induction l as [|x r IH]; simpl; [constructor |].
  destruct (p x); [apply sublist_skip, IH | apply sublist_cons, IH].
Qed.

Lemma filter_admits (criterion : option string) (value : ErrorEntry.t -> string)
    (l : list ErrorEntry.t) :
  let kept :=
    if Js.truthy criterion
    then List.filter (fun e => String.eqb (value e) (Js.or_str criterion "")) l
    else l in
  sublist kept l /\
  forall e, e ∈ kept <-> e ∈ l /\ admits criterion (value e).
Proof.
  unfold admits. destruct (Js.truthy criterion) eqn:Htruthy; cbn zeta.
  - split; [apply sublist_List_filter |]. intros e.
    rewrite !list_elem_of_In, filter_In, String.eqb_eq.
    destruct (truthy_or_str criterion Htruthy) as [Hc _]. split.
    + intros [Hin Heq]. split; [exact Hin |]. intros _. congruence.
    + intros [Hin Heq]. split; [exact Hin |]. specialize (Heq eq_refl). congruence.
  - split; [reflexivity |]. intros e. split; [intros He; split; [exact He | discriminate] |].
    intros [He _]. exact He.
Qed.

(** X28. [getFiltered({category, level, limit})] returns errors of the
    registry, in the order of the registry, each of the asked category and
    of the asked level (an absent or empty criterion admits every error).
    With a positive limit it returns at most that many; with no limit, or
    the limit [0], it returns every error that the criteria admit. *)
Theorem getFiltered_sound (f : ErrorFilter.t) (r : ErrorRegistry) :
  sublist (getFiltered f r) (errors r) /\
  Forall (fun e => admits (ErrorFilter.category f) (ErrorEntry.category e) /\
                   admits (ErrorFilter.level f) (ErrorEntry.level e))
         (getFiltered f r) /\
  match ErrorFilter.limit f with
  | Some (S n) => length (getFiltered f r) <= S n
  | _ =>
      forall e, e ∈ errors r ->
        admits (ErrorFilter.category f) (ErrorEntry.category e) ->
        admits (ErrorFilter.level f) (ErrorEntry.level e) ->
        e ∈ getFiltered f r
  end.
Proof.
  unfold getFiltered.
  destruct (filter_admits (ErrorFilter.category f) ErrorEntry.category (errors r))
    as [Hsub1 Hin1].
  cbv zeta in Hsub1, Hin1.
  set (byCategory := if Js.truthy (ErrorFilter.category f) then _ else _) in *.
  destruct (filter_admits (ErrorFilter.level f) ErrorEntry.level byCategory)
    as [Hsub2 Hin2].
  cbv zeta in Hsub2, Hin2.
  set (byLevel := if Js.truthy (ErrorFilter.level f) then _ else _) in *.
  assert (Hsub : sublist byLevel (errors r)) by (etransitivity; eassumption).
  assert (Hall : Forall (fun e => admits (ErrorFilter.category f) (ErrorEntry.category e) /\
                                  admits (ErrorFilter.level f) (ErrorEntry.level e))
                        byLevel).
  { apply Forall_forall. intros e He. apply Hin2 in He as [He Hl].
    apply Hin1 in He as [_ Hc]. split; assumption. }
  assert (Hcomplete : forall e, e ∈ errors r ->
            admits (ErrorFilter.category f) (ErrorEntry.category e) ->
            admits (ErrorFilter.level f) (ErrorEntry.level e) -> e ∈ byLevel).
  { intros e He Hc Hl. apply Hin2. split; [| exact Hl]. apply Hin1. split; assumption. }
  destruct (ErrorFilter.limit f) as [[|n]|]; cbn [Nat.ltb Nat.leb];
    [split; [exact Hsub |]; split; [exact Hall | exact Hcomplete]
    | | split; [exact Hsub |]; split; [exact Hall | exact Hcomplete]].
  unfold Js.slice. rewrite drop_0, Nat.sub_0_r.
  split; [etransitivity; [apply sublist_take | exact Hsub] |].
  split; [apply Forall_take, Hall |]. rewrite length_take. lia.
Qed.

(** ** UUIDs *)

(** A draw [r] of [Math.random() * 16 | 0] is written as one hexadecimal
    digit; in the place of a [y], as one of [8], [9], [a], [b]. *)
Lemma uuid_digit_x (r : N) :
  (r < 16)%N ->
  exists d, uuid_digit "x" r = String d EmptyString /\ class_matches HexDigit d = true.
Proof.
  intros Hr. unfold uuid_digit. cbn [Ascii.eqb Bool.eqb].
  assert (Hcases : In r [0; 1; 2; 3; 4; 5; 6; 7; 8; 9; 10; 11; 12; 13; 14; 15]%N).
  { simpl. lia. }
  simpl in Hcases.
  repeat (destruct Hcases as [<- | Hcases];
          [eexists; split; [vm_compute; reflexivity | reflexivity] |]).
  contradiction.
Qed.

Lemma uuid_digit_y (r : N) :
  (r < 16)%N ->
  exists d, uuid_digit "y" r = String d EmptyString /\ class_matches Variant d = true.
Proof.
  intros Hr. unfold uuid_digit. cbn [Ascii.eqb Bool.eqb].
  assert (Hcases : In r [0; 1; 2; 3; 4; 5; 6; 7; 8; 9; 10; 11; 12; 13; 14; 15]%N).
  { simpl. lia. }
  simpl in Hcases.
  repeat (destruct Hcases as [<- | Hcases];
          [eexists; split; [vm_compute; reflexivity | reflexivity] |]).
  contradiction.
Qed.

Lemma matches_exactly_length (pattern : list CharClass) (s : string) :
  matches_exactly pattern s = true -> String.length s = length pattern.
Proof.
  revert s. induction pattern as [|cls rest IH]; intros [|c s]; simpl; try discriminate.
  - reflexivity.
  - intros H. apply andb_true_iff in H as [_ H]. f_equal. apply IH, H.
Qed.

(** A template that fits a pattern gives, whatever the draws, a string
    that the pattern matches. *)
Lemma replace_xy_matches (rand : nat -> N) (template : string)
    (pattern : list CharClass) (i : nat) :
  (forall j, (rand j < 16)%N) ->
  fits template pattern = true ->
  matches_exactly pattern (replace_xy template rand i) = true.
Proof.
  intros Hrand. revert pattern i.
  induction template as [|c rest IH]; intros [|cls pattern] i;
    cbn [fits replace_xy]; try discriminate.
  - reflexivity.
  - intros Hfits. apply andb_true_iff in Hfits as [Hc Hrest].
    destruct (Ascii.eqb_spec c "x") as [-> | Hx].
    + destruct cls; try discriminate. cbn [Ascii.eqb Bool.eqb orb].
      destruct (uuid_digit_x (rand i) (Hrand i)) as (d & -> & Hd).
      change (class_matches HexDigit d
              && matches_exactly pattern (replace_xy rest rand (S i)) = true).
      rewrite Hd. apply IH, Hrest.
    + destruct (Ascii.eqb_spec c "y") as [-> | Hy].
      * destruct cls; try discriminate. cbn [Ascii.eqb Bool.eqb orb].
        destruct (uuid_digit_y (rand i) (Hrand i)) as (d & -> & Hd).
        change (class_matches Variant d
                && matches_exactly pattern (replace_xy rest rand (S i)) = true).
        rewrite Hd. apply IH, Hrest.
      * cbn [orb matches_exactly]. rewrite Hc. apply IH, Hrest.
Qed.

(** X29. Whatever [Math.random()] returns (each draw [r * 16 | 0] is an
    integer from 0 to 15), the string that [v4()] builds is accepted by
    [isValidUUID]; it has 36 characters, so it is never the empty id. *)
Theorem v4_is_valid (rand : nat -> N) :
  (forall i, (rand i < 16)%N) ->
  isValidUUID (v4 rand) = true /\
  String.length (v4 rand) = 36 /\
  v4 rand <> "".
Proof.
  intros Hrand.
  assert (Hvalid : isValidUUID (v4 rand) = true).
  { unfold isValidUUID, v4. apply replace_xy_matches; [exact Hrand | reflexivity]. }
  revert Hvalid. generalize (v4 rand). intros uuid Hvalid.
  pose proof (matches_exactly_length uuid_pattern uuid Hvalid) as Hlen.
  change (length uuid_pattern) with 36 in Hlen.
  split; [exact Hvalid |]. split; [exact Hlen |].
  intros Hempty. rewrite Hempty in Hlen. discriminate.
Qed.

(** The draws [0, 1, ..., 15, 0, 1, ...]. *)
Lemma v4_is_valid_witness :
  isValidUUID (v4 (fun i => N.of_nat (i mod 16))) = true /\
  String.length (v4 (fun i => N.of_nat (i mod 16))) = 36 /\
  v4 (fun i => N.of_nat (i mod 16)) <> "".
Proof.
  apply (v4_is_valid (fun i => N.of_nat (i mod 16))).
  intros i. pose proof (Nat.mod_upper_bound i 16). lia.
Defined.

(** ** The traversal: size of the answer and role of the depth *)

(** X1. [getConnectedNodes] always returns an array, of at most
    [options.limit || 50] elements, plus one when [options.includeSelf]
    is set. *)
Theorem getConnectedNodes_size (nodeId : string) (options : ConnOptions.t) (kg : KG) :
  exists found,
    fst (getConnectedNodes nodeId options kg) = Ok found /\
    length found <=
      Js.or_nat (ConnOptions.limit options) 50
      + (if Js.or_obj (ConnOptions.includeSelf options) false then 1 else 0).
Proof.
  destruct (Js.or_obj (ConnOptions.includeSelf options) false) eqn:Hself.
  - destruct (getConnectedNodes_capped_plus_one nodeId options kg) as (found & Hrun & Hlen).
    exists found. split; [exact Hrun | lia].
  - destruct options as [depth limit edgeTypes direction includeSelf].
    destruct (getConnectedNodes_capped_without_self nodeId depth limit edgeTypes direction
                includeSelf kg Hself) as (found & Hrun & Hlen).
    exists found. split; [exact Hrun | simpl; lia].
Qed.

(** X2. Without [includeSelf], [options.depth] has no effect: whatever
    depth is asked for, [getConnectedNodes] returns what it returns
    without the option (the direct neighbours of the seed), and leaves
    the same state. *)
Theorem getConnectedNodes_depth_ignored (nodeId : string) (depth limit : option nat)
    (edgeTypes : option (list string)) (direction : option string)
    (includeSelf : option bool) (kg : KG) :
  Js.or_obj includeSelf false = false ->
  getConnectedNodes nodeId
    (ConnOptions.mk depth limit edgeTypes direction includeSelf) kg =
  getConnectedNodes nodeId
    (ConnOptions.mk None limit edgeTypes direction includeSelf) kg.
Proof.
  intros Hself. destruct depth as [[|depth]|]; [reflexivity | | reflexivity].
  rewrite (getConnectedNodes_depth_irrelevant nodeId depth limit edgeTypes direction
             includeSelf kg Hself).
  reflexivity.
Qed.

(** The neighbours of [A] in the chain, with [depth: 2]. *)
Lemma getConnectedNodes_depth_ignored_witness :
  getConnectedNodes "A" (ConnOptions.mk (Some 2) None None None None) chain_graph =
  getConnectedNodes "A" (ConnOptions.mk None None None None None) chain_graph.
Proof.
  apply (getConnectedNodes_depth_ignored "A" (Some 2) None None None None chain_graph).
  reflexivity.
Defined.

(** ** Search: the page is cut from the scored and sorted matches *)

Lemma StronglySorted_weaken {A : Type} (R R' : A -> A -> Prop) (P : A -> Prop)
    (l : list A) :
  Forall P l ->
  (forall a b, P a -> P b -> R a b -> R' a b) ->
  StronglySorted R l -> StronglySorted R' l.
Proof.
  intros HP Himpl Hsorted. induction Hsorted as [|a l Hl IH Ha]; [constructor |].
  apply Forall_cons in HP as [Pa Pl]. constructor; [apply IH, Pl |].
  rewrite Forall_forall in *. intros b Hb. apply Himpl; auto.
Qed.

Lemma insert_sorted_last {A : Type} (gt : A -> A -> bool) (x : A) (l : list A) :
  (forall y, In y l -> gt y x = false) -> insert_sorted gt x l = l ++ [x].
Proof.
  induction l as [|y r IH]; intros Hall; simpl; [reflexivity |].
  rewrite (Hall y (or_introl eq_refl)). f_equal. apply IH. intros z Hz. apply Hall.
  right. exact Hz.
Qed.

(** A comparator that orders no two elements leaves the array as it is. *)
Lemma js_sort_unordered {A : Type} (gt : A -> A -> bool) (l : list A) :
  (forall a b, In a l -> In b l -> gt a b = false) -> js_sort gt l = l.
Proof.
  intros Hall. unfold js_sort.
  enough (Hgen : forall acc rest, l = acc ++ rest ->
            fold_left (fun sorted x => insert_sorted gt x sorted) rest acc = l)
    by (apply (Hgen [] l); reflexivity).
  intros acc rest. revert acc. induction rest as [|x rest IH]; intros acc Hl; simpl.
  - rewrite app_nil_r in Hl. congruence.
  - rewrite insert_sorted_last.
    + apply IH. rewrite <- app_assoc. exact Hl.
    + intros y Hy. apply Hall; rewrite Hl, in_app_iff; [left; exact Hy | right; left].
      reflexivity.
Qed.

Lemma walk_parts_undefined (parts : list string) : walk_parts VUndefined parts = VUndefined.
Proof. destruct parts; reflexivity. Qed.

(** On the stored nodes of a blank query, [a.node] is [undefined]: the
    comparator of the second sort reads [0] on both sides. *)
Lemma sort_gt_raw (sortBy : string) (order : Z) (na nb : Node.t) :
  sort_gt sortBy order (RawNode na) (RawNode nb) = false.
Proof.
  unfold sort_gt, sort_compare, getNestedProperty. cbn [hit_node].
  rewrite walk_parts_undefined. cbn [or_zero]. rewrite Z.mul_0_r. reflexivity.
Qed.

Lemma timestamp_desc_gt_asym (a b : Hit) :
  timestamp_desc_gt a b = true -> timestamp_desc_gt b a = false.
Proof. unfold timestamp_desc_gt. intros H. apply Z.ltb_lt in H. apply Z.ltb_ge. lia. Qed.

Lemma timestamp_desc_gt_ntrans (a b c : Hit) :
  timestamp_desc_gt a b = false -> timestamp_desc_gt b c = false ->
  timestamp_desc_gt a c = false.
Proof.
  unfold timestamp_desc_gt. intros H1 H2. apply Z.ltb_ge in H1, H2. apply Z.ltb_ge. lia.
Qed.

Lemma or_Z_same (t : Z) : Js.or_Z (Some t) 0 = t.
Proof. simpl. destruct (Z.eqb_spec t 0); congruence. Qed.

Lemma sort_gt_timestamp (order : Z) (na nb : Node.t) (sa sb : Q)
    (da db : MatchDetails.t) :
  sort_gt "timestamp" order (Scored na sa da) (Scored nb sb db) =
  (0 <? order * (Node.timestamp na - Node.timestamp nb))%Z.
Proof. reflexivity. Qed.

Lemma sort_gt_timestamp_asym (order : Z) (a b : Hit) :
  is_scored a -> is_scored b ->
  sort_gt "timestamp" order a b = true -> sort_gt "timestamp" order b a = false.
Proof.
  destruct a as [|na sa da]; [contradiction |]. destruct b as [|nb sb db]; [contradiction |].
  intros _ _. rewrite !sort_gt_timestamp. intros H. apply Z.ltb_lt in H. apply Z.ltb_ge.
  nia.
Qed.

Lemma sort_gt_timestamp_ntrans (order : Z) (a b c : Hit) :
  is_scored a -> is_scored b -> is_scored c ->
  sort_gt "timestamp" order a b = false -> sort_gt "timestamp" order b c = false ->
  sort_gt "timestamp" order a c = false.
Proof.
  destruct a as [|na sa da]; [contradiction |]. destruct b as [|nb sb db]; [contradiction |].
  destruct c as [|nc sc dc]; [contradiction |].
  intros _ _ _. rewrite !sort_gt_timestamp. intros H1 H2.
  apply Z.ltb_ge in H1, H2. apply Z.ltb_ge. nia.
Qed.

(** The matches of a query that is not blank are the stored nodes of
    positive score, in the order of the store, each with its score. *)
Lemma search_matches_positive (ns : list Node.t) (query : string) (searchIn : list string) :
  blank_query query = false ->
  search_matches ns query searchIn =
  map (scoreNode searchIn (query_terms query))
    (List.filter
       (fun n => negb (Qle_bool (node_score searchIn (query_terms query) n) 0)) ns).
Proof.
  intros Hblank. unfold search_matches. rewrite Hblank.
  induction ns as [|n ns IH]; simpl; [reflexivity |].
  destruct (Qle_bool (node_score searchIn (query_terms query) n) 0); simpl;
    rewrite IH; reflexivity.
Qed.

Lemma Forall_is_scored_map (f : Node.t -> Hit) (l : list Node.t) :
  (forall n, is_scored (f n)) -> Forall is_scored (map f l).
Proof. intros Hf. apply Forall_fmap, Forall_forall. intros n _. apply Hf. Qed.

(** The order of [results] before the page is cut. *)
Lemma search_sorted_order (ns : list Node.t) (query : string) (options : SearchOptions.t) :
  let sortBy := search_option (SearchOptions.sortBy options) "relevance" in
  let order := search_option (SearchOptions.order options) "desc" in
  let sorted := search_sorted ns query options in
  if blank_query query then StronglySorted newest_first sorted
  else if String.eqb sortBy "relevance" then StronglySorted best_first sorted
  else if String.eqb sortBy "timestamp" then StronglySorted (by_timestamp order) sorted
  else True.
Proof.
  cbv zeta. unfold search_sorted.
  set (searchIn := search_option (SearchOptions.searchIn options) default_searchIn).
  set (sortBy := search_option (SearchOptions.sortBy options) "relevance").
  set (order := search_option (SearchOptions.order options) "desc").
  destruct (blank_query query) eqn:Hblank.
  - assert (Hraw : Forall (fun h => exists n, h = RawNode n)
                     (js_sort timestamp_desc_gt (search_matches ns query searchIn))).
    { apply Forall_js_sort. unfold search_matches. rewrite Hblank.
      apply Forall_fmap, Forall_forall. intros n _. exists n. reflexivity. }
    assert (Hfirst : StronglySorted newest_first
                       (js_sort timestamp_desc_gt (search_matches ns query searchIn))).
    { apply (StronglySorted_weaken (may_precede timestamp_desc_gt) newest_first
               (fun h => exists n, h = RawNode n)); [exact Hraw | |].
      - intros a b [na ->] [nb ->]. unfold may_precede, timestamp_desc_gt, newest_first.
        cbn [hit_timestamp]. rewrite !or_Z_same. intros H. apply Z.ltb_ge in H. lia.
      - apply (js_sort_sorted timestamp_desc_gt (fun _ => True)).
        + intros a b _ _. apply timestamp_desc_gt_asym.
        + intros a b c _ _ _. apply timestamp_desc_gt_ntrans.
        + apply Forall_forall. intros; exact I. }
    destruct (negb (String.eqb sortBy "relevance")); [| exact Hfirst].
    rewrite js_sort_unordered; [exact Hfirst |].
    intros a b Ha Hb. rewrite Forall_forall in Hraw.
    destruct (Hraw a (proj2 (list_elem_of_In _ _) Ha)) as [na ->].
    destruct (Hraw b (proj2 (list_elem_of_In _ _) Hb)) as [nb ->].
    apply sort_gt_raw.
  - assert (Hscored : Forall is_scored
                        (js_sort score_desc_gt (search_matches ns query searchIn))).
    { apply Forall_js_sort, search_matches_is_scored, Hblank. }
    destruct (String.eqb sortBy "relevance") eqn:Hrel; cbn [negb].
    + apply (StronglySorted_weaken (may_precede score_desc_gt) best_first is_scored);
        [exact Hscored | |].
      * intros [|na sa da] [|nb sb db] Ha Hb; try contradiction.
        unfold may_precede, best_first. cbn [hit_score]. intros H.
        apply (proj1 (score_desc_gt_false na nb sa sb da db)), H.
      * apply (js_sort_sorted score_desc_gt is_scored score_desc_gt_asym
                 score_desc_gt_ntrans).
        apply search_matches_is_scored, Hblank.
    + destruct (String.eqb_spec sortBy "timestamp") as [-> | _]; [| exact I].
      set (direction := (if String.eqb order "asc" then 1 else -1)%Z).
      apply (StronglySorted_weaken (may_precede (sort_gt "timestamp" direction))
               (by_timestamp order) is_scored).
      * apply Forall_js_sort, Hscored.
      * intros [|na sa da] [|nb sb db] Ha Hb; try contradiction.
        unfold may_precede, by_timestamp. rewrite sort_gt_timestamp. cbn [hit_node].
        unfold direction. intros H. apply Z.ltb_ge in H.
        destruct (String.eqb order "asc"); lia.
      * apply (js_sort_sorted (sort_gt "timestamp" direction) is_scored
                 (sort_gt_timestamp_asym direction) (sort_gt_timestamp_ntrans direction)).
        exact Hscored.
Qed.

(** C7. With [options.limit = L] and [options.offset = O] (and any
    [sortBy], [order], [searchIn]), [search] returns without changing the
    state, and pagination comes after full scoring and sorting. The array
    [sorted] from which the page is cut (what [results] holds after the
    sorts) is a reordering of all the matches
    (every stored node for a blank query; otherwise every stored node of
    positive score, with its score), and it is in order: newest first for
    a blank query, best score first for the sort by relevance, by
    timestamp in the asked direction for [sortBy: 'timestamp']. [results]
    is the formatted slice [sorted.slice(O, O + L)], [total] is the number
    of matched nodes, and [results] has [max(0, min(L, total - O))]
    elements. *)
Theorem search_pagination (kg : KG) (query : string) (L O : nat)
    (sortBy order : option string) (searchIn : option (list string)) :
  let options := SearchOptions.mk (Some L) (Some O) sortBy order searchIn in
  let fields := search_option searchIn default_searchIn in
  let matchedNodes :=
    if blank_query query then nodes (storageManager kg)
    else List.filter
           (fun n => negb (Qle_bool (node_score fields (query_terms query) n) 0))
           (nodes (storageManager kg)) in
  let sorted := search_sorted (nodes (storageManager kg)) query options in
  exists r : SearchResult.t,
    search query options kg = (Ok r, kg) /\
    sorted ≡ₚ
      map (fun n => if blank_query query then RawNode n
                    else scoreNode fields (query_terms query) n) matchedNodes /\
    (if blank_query query then StronglySorted newest_first sorted
     else if String.eqb (search_option sortBy "relevance") "relevance"
          then StronglySorted best_first sorted
          else if String.eqb (search_option sortBy "relevance") "timestamp"
               then StronglySorted (by_timestamp (search_option order "desc")) sorted
               else True) /\
    SearchResult.results r = map format_result (take L (drop O sorted)) /\
    SearchResult.total r = length matchedNodes /\
    SearchResult.offset r = O /\
    SearchResult.limit r = L /\
    Z.of_nat (length (SearchResult.results r)) =
      Z.max 0 (Z.min (Z.of_nat L) (Z.of_nat (SearchResult.total r) - Z.of_nat O)).
Proof.
  intros options fields matchedNodes sorted.
  exists (search_nodes (nodes (storageManager kg)) query options).
  assert (Hperm : sorted ≡ₚ
                  map (fun n => if blank_query query then RawNode n
                                else scoreNode fields (query_terms query) n)
                      matchedNodes).
  { unfold sorted. rewrite (search_sorted_perm _ query options).
    cbn [SearchOptions.searchIn options].
    fold fields. unfold matchedNodes. destruct (blank_query query) eqn:Hblank.
    - unfold search_matches. rewrite Hblank. reflexivity.
    - rewrite (search_matches_positive _ _ _ Hblank). reflexivity. }
  split; [reflexivity |]. split; [exact Hperm |].
  split; [exact (search_sorted_order (nodes (storageManager kg)) query options) |].
  unfold search_nodes. cbn [SearchResult.results SearchResult.total SearchResult.offset
    SearchResult.limit SearchOptions.limit SearchOptions.offset options search_option].
  fold sorted. unfold Js.slice. replace (O + L - O) with L by lia.
  split; [reflexivity |].
  assert (Htotal : length sorted = length matchedNodes).
  { rewrite (Permutation_length Hperm). apply length_map. }
  split; [exact Htotal |]. split; [reflexivity |]. split; [reflexivity |].
  rewrite length_map, length_take, length_drop, Htotal. lia.
Qed.

(** ** Search: the searched fields and the url *)

(** C6, as the code has it. Without a [searchIn] option the searched
    fields are [title], [content], [categories] and [tags]; [url] is not
    one of them. Whatever [searchIn] is: when it lists [url], the url has
    one match for each query term that is a substring of it (in lower
    case), and the score is the score without the url plus one for each
    such term; when it does not list [url], as by default, the url has no
    match and the score does not depend on the url. So under the default
    options a node that no query term matches in its title, content,
    categories or tags has the score 0 and is not returned, whatever its
    url. *)
Theorem search_default_fields_exclude_url (ns : list Node.t) (query : string)
    (limit offset : option nat) (sortBy order : option string)
    (searchIn queryTerms : list string) (node : Node.t) (u : option string) :
  search_nodes ns query (SearchOptions.mk limit offset sortBy order None) =
    search_nodes ns query
      (SearchOptions.mk limit offset sortBy order
         (Some ["title"; "content"; "categories"; "tags"])) /\
  Js.arr_includes default_searchIn "url" = false /\
  (if Js.arr_includes searchIn "url"
   then
     urlMatch searchIn queryTerms node =
       (if Js.truthy (Node.url node)
        then count_terms_in queryTerms (Js.or_str (Node.url node) "") else 0) /\
     (node_score searchIn queryTerms node ==
        node_score searchIn queryTerms (with_url node None)
        + Q_of_nat (urlMatch searchIn queryTerms node))%Q
   else
     urlMatch searchIn queryTerms node = 0 /\
     node_score searchIn queryTerms (with_url node u) =
       node_score searchIn queryTerms node) /\
  (blank_query query = false ->
   match_count_without_url default_searchIn (query_terms query) node = 0 ->
   (node_score default_searchIn (query_terms query) node == 0)%Q /\
   forall item,
     In item (SearchResult.results
                (search_nodes ns query
                   (SearchOptions.mk limit offset sortBy order None))) ->
     ResultItem.fields item <> Some node).
Proof.
  split; [reflexivity |]. split; [reflexivity |]. split.
  - destruct (Js.arr_includes searchIn "url") eqn:Hurl.
    + split.
      * unfold urlMatch. rewrite Hurl. reflexivity.
      * unfold node_score.
        change (titleMatch searchIn queryTerms (with_url node None))
          with (titleMatch searchIn queryTerms node).
        change (summaryMatch searchIn queryTerms (with_url node None))
          with (summaryMatch searchIn queryTerms node).
        change (textMatch searchIn queryTerms (with_url node None))
          with (textMatch searchIn queryTerms node).
        change (entityMatch searchIn queryTerms (with_url node None))
          with (entityMatch searchIn queryTerms node).
        change (categoryMatch searchIn queryTerms (with_url node None))
          with (categoryMatch searchIn queryTerms node).
        change (tagMatch searchIn queryTerms (with_url node None))
          with (tagMatch searchIn queryTerms node).
        replace (urlMatch searchIn queryTerms (with_url node None)) with 0
          by (unfold urlMatch; rewrite Hurl; reflexivity).
        change (Q_of_nat 0) with 0%Q. ring.
    + split.
      * unfold urlMatch. rewrite Hurl. reflexivity.
      * unfold node_score, urlMatch. rewrite Hurl. reflexivity.
  - intros Hblank Hnone. unfold match_count_without_url in Hnone.
    assert (Hzero : (node_score default_searchIn (query_terms query) node == 0)%Q).
    { unfold node_score.
      replace (titleMatch default_searchIn (query_terms query) node) with 0 by lia.
      replace (summaryMatch default_searchIn (query_terms query) node) with 0 by lia.
      replace (textMatch default_searchIn (query_terms query) node) with 0 by lia.
      replace (entityMatch default_searchIn (query_terms query) node) with 0 by lia.
      replace (categoryMatch default_searchIn (query_terms query) node) with 0 by lia.
      replace (tagMatch default_searchIn (query_terms query) node) with 0 by lia.
      change (urlMatch default_searchIn (query_terms query) node) with 0.
      reflexivity. }
    split; [exact Hzero |].
    assert (Hall : Forall (fun item => ResultItem.fields item <> Some node)
                     (SearchResult.results
                        (search_nodes ns query
                           (SearchOptions.mk limit offset sortBy order None)))).
    { unfold search_nodes. cbn [SearchResult.results].
      apply Forall_fmap, Forall_slice.
      rewrite (search_sorted_perm ns query
                 (SearchOptions.mk limit offset sortBy order None)).
      eapply Forall_impl; [apply search_matches_scored, Hblank |].
      intros h (n & _ & -> & Hpos). simpl. intros [= ->].
      cbn [SearchOptions.searchIn search_option] in Hpos.
      rewrite Hzero in Hpos. discriminate Hpos. }
    intros item Hitem. rewrite Forall_forall in Hall.
    apply Hall, list_elem_of_In, Hitem.
Qed.
